(** * Union dictionary searcher: relevance-ranked graph expansion

    A shallow embedding of [UnionSearcher] (tkrzw_union_searcher.py): the
    feature extractor, the similarity scorer, the best-first expansion
    engine and the search facade, with the properties stated about them.

    Python floats are IEEE-754 binary64 values: they are modelled by Rocq's
    primitive floats, whose operations are the correctly rounded binary64
    ones.  Dictionaries keep their insertion order (the order in which
    [items()] yields them decides the order of the float additions), so they
    are association lists; sets are only tested for membership and size, so
    they are [gset]s. *)

From Stdlib Require Import ZArith List String Ascii Floats Lia Bool Sorted.
From Stdlib Require Uint63.
From stdpp Require Import gmap strings list.
Set Warnings "-inexact-float,-clear-no-such-hyp".
Local Open Scope string_scope.
Local Open Scope Z_scope.
Local Open Scope list_scope.

(** ** Outcomes of fallible code *)

(** The exceptions that the arithmetic of the file raises: a division by a
    zero, [int()] of a NaN, and [int()] of an infinity or a power or
    conversion that overflows. *)
Inductive exn : Type :=
  | ZeroDivisionError
  | ValueError
  | OverflowError.

(** A call either returns, raises, or - for the bounded unrolling of the
    [while] loop - runs out of fuel. *)
Inductive res (A : Type) : Type :=
  | Ok (a : A)
  | Raise (e : exn)
  | OutOfFuel.
Arguments Ok {A} a.
Arguments Raise {A} e.
Arguments OutOfFuel {A}.

#[export] Instance res_ret : MRet res := fun A a => Ok a.
#[export] Instance res_bind : MBind res := fun A B f m =>
  match m with
  | Ok a => f a
  | Raise e => Raise e
  | OutOfFuel => OutOfFuel
  end.

(** ** Python float operations *)

Module PyFloat.

(** [x / y] on floats raises on a zero divisor (of either sign). *)
Definition truediv (x y : float) : res float :=
  if (y =? 0)%float then Raise ZeroDivisionError else Ok (x / y)%float.

(** [max(a, b)] keeps its first argument unless the second is greater. *)
Definition max (a b : float) : float := if (a <? b)%float then b else a.

(** [min(a, b)] keeps its first argument unless the second is smaller. *)
Definition min (a b : float) : float := if (b <? a)%float then b else a.

(** Truth value of a float: everything but the two zeros. *)
Definition truthy (x : float) : bool := negb (x =? 0)%float.

(** [o or 0.0] for the result [o] of [dict.get]. *)
Definition or_zero (o : option float) : float :=
  match o with
  | Some v => if truthy v then v else 0%float
  | None => 0%float
  end.

(** [x ** 2], taken as the correctly rounded square.  The power of a finite
    number that overflows raises; a NaN or an infinity goes through. *)
Definition pow2 (x : float) : res float :=
  let y := (x * x)%float in
  match Prim2SF x, Prim2SF y with
  | S754_finite _ _ _, S754_infinity _ => Raise OverflowError
  | _, _ => Ok y
  end.

(** [x ** 0.5] for an [x] that is not negative, taken as the correctly
    rounded square root. *)
Definition pow_half (x : float) : float := PrimFloat.sqrt x.

(** [float(n)] for an integer [n], as the mixed arithmetic converts it: the
    nearest binary64 value, and an error beyond the largest one. *)
Definition of_int (n : Z) : res float :=
  match binary_normalize prec emax n 0 false with
  | S754_infinity _ => Raise OverflowError
  | x => Ok (SF2Prim x)
  end.

(** [int(x)]: truncation toward zero; a NaN and the infinities raise. *)
Definition to_int (x : float) : res Z :=
  match Prim2SF x with
  | S754_finite s m e =>
      let v := if (0 <=? e)%Z then Z.pos m * 2 ^ e else Z.pos m / 2 ^ (- e) in
      Ok (if s then - v else v)
  | S754_zero _ => Ok 0
  | S754_infinity _ => Raise OverflowError
  | S754_nan => Raise ValueError
  end.

End PyFloat.

(** ** Dictionaries with insertion order *)

Section Dict.
Context {V : Type}.

Fixpoint dict_get (d : list (string * V)) (k : string) : option V :=
  match d with
  | [] => None
  | (k', v) :: rest => if String.eqb k' k then Some v else dict_get rest k
  end.

Definition dict_mem (d : list (string * V)) (k : string) : bool :=
  match dict_get d k with Some _ => true | None => false end.

(** [d[k] = v]: an existing key keeps its position, a new key goes last. *)
Fixpoint dict_set (d : list (string * V)) (k : string) (v : V) : list (string * V) :=
  match d with
  | [] => [(k, v)]
  | (k', v') :: rest =>
      if String.eqb k' k then (k', v) :: rest else (k', v') :: dict_set rest k v
  end.

Definition dict_keys (d : list (string * V)) : list string := map fst d.
End Dict.

(** ** The data model *)

(** A sense item of an entry. *)
Record Item := { i_label : string; i_pos : string; i_text : string }.

(** An entry of the body database.  The optional fields are the keys read
    with [entry.get]; an absent key and an empty list are treated alike by
    every reader ([if xs:]). *)
Record Entry := {
  e_word : string;
  e_item : list Item;
  e_translation : option (list string);
  e_related : option (list string);
  e_parent : option (list string);
  e_child : option (list string);
  e_cooccurrence : option (list string)
}.

(** The list behind an optional field, empty when the key is absent. *)
Definition py_list {A} (o : option (list A)) : list A := default [] o.

(** [xs[:n]] for a list [xs] and an integer [n] of either sign. *)
Definition slice_to {A} (xs : list A) (n : Z) : list A :=
  if 0 <=? n then firstn (Z.to_nat n) xs
  else firstn (Z.to_nat (Z.of_nat (length xs) + n)) xs.

(** [s.split(sep)] for a one-character separator. *)
Fixpoint split_on (sep : ascii) (s : string) : list string :=
  match s with
  | EmptyString => [EmptyString]
  | String c rest =>
      if Ascii.eqb c sep then EmptyString :: split_on sep rest
      else match split_on sep rest with
           | [] => [String c EmptyString]
           | w :: ws => String c w :: ws
           end
  end.

(** The collaborators of the searcher: the functions of other modules that
    the file calls, and the databases opened by [__init__].
    [tkrzw_dict.NormalizeWord], the suffix-stripping substitutions
    ([regex.sub] with the patterns of the source: one in [GetFeatures], two
    composed in [ExpandEntries]) and [math.log2] are not part of the file;
    the body database is read through [json.loads], the translation index
    holds tab-separated values, the key files answer [Search]. *)
Record UnionSearcher := {
  NormalizeWord : string -> string;
  StripFeatureSuffix : string -> string;
  StripTranSuffix : string -> string;
  math_log2 : Z -> float;
  body_dbm : string -> option (list Entry);
  tran_index_dbm : string -> option string;
  keys_file : string -> string -> Z -> bool -> list string;
  tran_keys_file : string -> string -> Z -> bool -> list string
}.

Definition Features := list (string * float).

(** ** Feature extraction and similarity *)

Section Features.
Variable self : UnionSearcher.

Definition SCORE_DECAY : float := 0.95%float.

(** The loop over [entry["item"]]. *)
Fixpoint pos_loop (items : list Item) (pos_features : Features)
    (pos_score pos_score_max : float) : Features * float :=
  match items with
  | [] => (pos_features, pos_score_max)
  | item :: rest =>
      let pos := String.append "__" (i_pos item) in
      let new_score := (PyFloat.or_zero (dict_get pos_features pos) + pos_score)%float in
      pos_loop rest (dict_set pos_features pos new_score)
               (pos_score * SCORE_DECAY)%float
               (PyFloat.max pos_score_max new_score)
  end.

(** The loop over [pos_features.items()]. *)
Fixpoint pos_normalize (pos_items : Features) (pos_score_max : float)
    (features : Features) : res Features :=
  match pos_items with
  | [] => Ok features
  | (pos, pos_feature_score) :: rest =>
      q ← PyFloat.truediv pos_feature_score pos_score_max;
      pos_normalize rest pos_score_max (dict_set features pos q)
  end.

(** One of the three token passes; [norm] is the pass's normalization. *)
Fixpoint token_pass (norm : string -> string) (words : list string)
    (features : Features) (score : float) : Features * float :=
  match words with
  | [] => (features, score)
  | w :: rest =>
      let w := norm w in
      if dict_mem features w then token_pass norm rest features score
      else
        let score := (score * SCORE_DECAY)%float in
        token_pass norm rest (dict_set features w score) score
  end.

Definition GetFeatures (entry : Entry) : res Features :=
  let word := NormalizeWord self (e_word entry) in
  let features := [(word, 1%float)] in
  let '(pos_features, pos_score_max) := pos_loop (e_item entry) [] 1%float 0%float in
  features ← pos_normalize pos_features pos_score_max features;
  let score := 1%float in
  let '(features, score) :=
    token_pass (NormalizeWord self) (firstn 20 (py_list (e_related entry))) features score in
  let '(features, score) :=
    token_pass (fun tran => StripFeatureSuffix self (NormalizeWord self tran))
               (firstn 20 (py_list (e_translation entry))) features score in
  let '(features, score) :=
    token_pass (NormalizeWord self) (firstn 20 (py_list (e_cooccurrence entry))) features score in
  Ok features.

(** The loop of [GetSimilarity] over [seed_features.items()]. *)
Fixpoint similarity_loop (seed_items : Features) (cand_features : Features)
    (product seed_norm cand_norm : float) : res (float * float * float) :=
  match seed_items with
  | [] => Ok (product, seed_norm, cand_norm)
  | (seed_word, seed_score) :: rest =>
      let cand_score := PyFloat.or_zero (dict_get cand_features seed_word) in
      let product := (product + seed_score * cand_score)%float in
      seed_square ← PyFloat.pow2 seed_score;
      let seed_norm := (seed_norm + seed_square)%float in
      cand_square ← PyFloat.pow2 cand_score;
      let cand_norm := (cand_norm + cand_square)%float in
      similarity_loop rest cand_features product seed_norm cand_norm
  end.

Definition GetSimilarity (seed_features cand_features : Features) : res float :=
  '(product, seed_norm, cand_norm) ←
    similarity_loop seed_features cand_features 0%float 0%float 0%float;
  if (cand_norm =? 0)%float || (seed_norm =? 0)%float then Ok 0%float
  else
    q ← PyFloat.truediv product
          (PyFloat.pow_half seed_norm * PyFloat.pow_half cand_norm)%float;
    let score := PyFloat.min q 1%float in
    Ok (if (0.99999 <=? score)%float then 1%float else score).
End Features.

(** ** Storage and the search facade *)

(** The calls issued to the storage collaborator, in the order issued. *)
Inductive StorageCall :=
  | BodyGet (key : string)
  | TranIndexGet (key : string)
  | KeysSearch (mode text : string) (capacity : Z) (utf : bool)
  | TranKeysSearch (mode text : string) (capacity : Z) (utf : bool).

(** A candidate of the priority queue: the tuple [(-score, num_steps, entry)]. *)
Record Candidate := { c_neg_score : float; c_steps : Z; c_entry : Entry }.

(** Python's order on the tuples: the first components decide unless they are
    equal, then the second ones do (they never tie, so entries are never
    compared). *)
Definition cand_lt (a b : Candidate) : bool :=
  if (c_neg_score a =? c_neg_score b)%float then c_steps a <? c_steps b
  else (c_neg_score a <? c_neg_score b)%float.

(** [heapq] is modelled by its contract: [heappush] adds an item and
    [heappop] removes and returns the least one. *)
Definition heappush (h : list Candidate) (c : Candidate) : list Candidate := h ++ [c].

Fixpoint heap_min (best : Candidate) (rest : list Candidate) : Candidate :=
  match rest with
  | [] => best
  | c :: rest' => heap_min (if cand_lt c best then c else best) rest'
  end.

Fixpoint heap_remove (steps : Z) (h : list Candidate) : list Candidate :=
  match h with
  | [] => []
  | c :: rest => if c_steps c =? steps then rest else c :: heap_remove steps rest
  end.

Definition heappop (h : list Candidate) : option (Candidate * list Candidate) :=
  match h with
  | [] => None
  | c :: rest => let m := heap_min c rest in Some (m, heap_remove (c_steps m) h)
  end.

(** The local state of one [ExpandEntries] call. *)
Record ExpState := {
  st_result : list Entry;
  st_seeds : list Candidate;
  st_num_steps : Z;
  st_checked_words : gset string;
  st_checked_trans : gset string;
  st_num_appends : Z;
  st_calls : list StorageCall
}.

Definition str_empty (s : string) : bool :=
  match s with EmptyString => true | _ => false end.

(** [hay.find(needle) >= 0]. *)
Definition str_contains (hay needle : string) : bool :=
  match String.index 0 needle hay with Some _ => true | None => false end.

(** [xs[n:]] for an integer [n] of either sign. *)
Definition slice_from {A} (xs : list A) (n : Z) : list A :=
  if 0 <=? n then skipn (Z.to_nat n) xs
  else skipn (Z.to_nat (Z.of_nat (length xs) + n)) xs.

Definition len {A} (xs : list A) : Z := Z.of_nat (length xs).

Section Searcher.
Variable self : UnionSearcher.

Abbreviation GetFeatures := (GetFeatures self).

Definition SearchBody (text : string) : option (list Entry) * list StorageCall :=
  (body_dbm self text, [BodyGet text]).

Definition SearchTranIndex (text : string) : list string * list StorageCall :=
  let text := NormalizeWord self text in
  (match tran_index_dbm self text with
   | Some tsv => if str_empty tsv then [] else split_on "009" tsv
   | None => []
   end, [TranIndexGet text]).

(** *** SearchExact *)

Fixpoint exact_entries (entries : list Entry) (capacity : Z)
    (result : list Entry) (uniq_words : gset string) : list Entry * gset string :=
  match entries with
  | [] => (result, uniq_words)
  | entry :: rest =>
      if capacity <=? len result then (result, uniq_words)
      else
        let word := e_word entry in
        if bool_decide (word ∈ uniq_words) then exact_entries rest capacity result uniq_words
        else exact_entries rest capacity (result ++ [entry]) ({[word]} ∪ uniq_words)
  end.

Fixpoint exact_words (words : list string) (capacity : Z) (result : list Entry)
    (uniq_words : gset string) (calls : list StorageCall)
    : list Entry * list StorageCall :=
  match words with
  | [] => (result, calls)
  | word :: rest =>
      if capacity <=? len result then (result, calls)
      else
        let word := NormalizeWord self word in
        if str_empty word then exact_words rest capacity result uniq_words calls
        else
          let '(entries, c) := SearchBody word in
          match entries with
          | None | Some [] => exact_words rest capacity result uniq_words (calls ++ c)
          | Some entries =>
              let '(result, uniq_words) := exact_entries entries capacity result uniq_words in
              exact_words rest capacity result uniq_words (calls ++ c)
          end
  end.

Definition SearchExact (text : string) (capacity : Z) : list Entry * list StorageCall :=
  exact_words (split_on "," text) capacity [] ∅ [].

(** *** SearchExactReverse *)

Fixpoint reverse_ja_words (words : list string) (ja_words : list string)
    (ja_uniq_words : gset string) : list string :=
  match words with
  | [] => ja_words
  | ja_word :: rest =>
      let ja_word := NormalizeWord self ja_word in
      if str_empty ja_word then reverse_ja_words rest ja_words ja_uniq_words
      else if bool_decide (ja_word ∈ ja_uniq_words)
      then reverse_ja_words rest ja_words ja_uniq_words
      else reverse_ja_words rest (ja_words ++ [ja_word]) ({[ja_word]} ∪ ja_uniq_words)
  end.

Fixpoint reverse_en_hits (hits : list string) (en_words : list string)
    (en_uniq_words : gset string) : list string * gset string :=
  match hits with
  | [] => (en_words, en_uniq_words)
  | en_word :: rest =>
      if bool_decide (en_word ∈ en_uniq_words) then reverse_en_hits rest en_words en_uniq_words
      else reverse_en_hits rest (en_words ++ [en_word]) ({[en_word]} ∪ en_uniq_words)
  end.

Fixpoint reverse_en_words (ja_words : list string) (en_words : list string)
    (en_uniq_words : gset string) (calls : list StorageCall)
    : list string * list StorageCall :=
  match ja_words with
  | [] => (en_words, calls)
  | ja_word :: rest =>
      let '(hits, c) := SearchTranIndex ja_word in
      let '(en_words, en_uniq_words) := reverse_en_hits hits en_words en_uniq_words in
      reverse_en_words rest en_words en_uniq_words (calls ++ c)
  end.

(** The confirmation of a candidate: one of its normalized translations
    contains one of the query words. *)
Definition reverse_match (ja_words : list string) (entry : Entry) : bool :=
  existsb (fun tran =>
             let tran := NormalizeWord self tran in
             existsb (fun ja_word => str_contains tran ja_word) ja_words)
          (py_list (e_translation entry)).

Fixpoint reverse_entries (ja_words : list string) (entries : list Entry) (capacity : Z)
    (result : list Entry) (uniq_words : gset string) : list Entry * gset string * Z :=
  match entries with
  | [] => (result, uniq_words, capacity)
  | entry :: rest =>
      if capacity <? 1 then (result, uniq_words, capacity)
      else
        let word := e_word entry in
        if bool_decide (word ∈ uniq_words)
        then reverse_entries ja_words rest capacity result uniq_words
        else
          let uniq_words := {[word]} ∪ uniq_words in
          if reverse_match ja_words entry
          then reverse_entries ja_words rest (capacity - 1) (result ++ [entry]) uniq_words
          else reverse_entries ja_words rest capacity result uniq_words
  end.

Fixpoint reverse_results (ja_words : list string) (en_words : list string) (capacity : Z)
    (result : list Entry) (uniq_words : gset string) (calls : list StorageCall)
    : list Entry * list StorageCall :=
  match en_words with
  | [] => (result, calls)
  | en_word :: rest =>
      if capacity <? 1 then (result, calls)
      else
        let '(entries, c) := SearchBody en_word in
        match entries with
        | None | Some [] => reverse_results ja_words rest capacity result uniq_words (calls ++ c)
        | Some entries =>
            let '(result, uniq_words, capacity) :=
              reverse_entries ja_words entries capacity result uniq_words in
            reverse_results ja_words rest capacity result uniq_words (calls ++ c)
        end
  end.

Definition SearchExactReverse (text : string) (capacity : Z)
    : list Entry * list StorageCall :=
  let ja_words := reverse_ja_words (split_on "," text) [] ∅ in
  let '(en_words, calls) := reverse_en_words ja_words [] ∅ [] in
  reverse_results ja_words en_words capacity [] ∅ calls.

(** *** ExpandEntries *)

Section Expand.
Variable seed_features : Features.
Variable capacity : Z.

(** The nested function [AddSeed]: score the entry and push it. *)
Definition AddSeed (st : ExpState) (entry : Entry) : res ExpState :=
  features ← GetFeatures entry;
  score ← GetSimilarity seed_features features;
  Ok {| st_result := st_result st;
        st_seeds := heappush (st_seeds st)
                      {| c_neg_score := - score; c_steps := st_num_steps st;
                         c_entry := entry |};
        st_num_steps := st_num_steps st + 1;
        st_checked_words := st_checked_words st;
        st_checked_trans := st_checked_trans st;
        st_num_appends := st_num_appends st;
        st_calls := st_calls st |}.

(** [checked_words.add(word)]. *)
Definition check_word (st : ExpState) (word : string) : ExpState :=
  {| st_result := st_result st; st_seeds := st_seeds st;
     st_num_steps := st_num_steps st;
     st_checked_words := {[word]} ∪ st_checked_words st;
     st_checked_trans := st_checked_trans st;
     st_num_appends := st_num_appends st; st_calls := st_calls st |}.

(** [checked_trans.add(tran)]. *)
Definition check_tran (st : ExpState) (tran : string) : ExpState :=
  {| st_result := st_result st; st_seeds := st_seeds st;
     st_num_steps := st_num_steps st;
     st_checked_words := st_checked_words st;
     st_checked_trans := {[tran]} ∪ st_checked_trans st;
     st_num_appends := st_num_appends st; st_calls := st_calls st |}.

(** [num_appends += 1]. *)
Definition count_append (st : ExpState) : ExpState :=
  {| st_result := st_result st; st_seeds := st_seeds st;
     st_num_steps := st_num_steps st;
     st_checked_words := st_checked_words st;
     st_checked_trans := st_checked_trans st;
     st_num_appends := st_num_appends st + 1; st_calls := st_calls st |}.

(** The storage calls of a lookup made during the expansion. *)
Definition log_calls (st : ExpState) (c : list StorageCall) : ExpState :=
  {| st_result := st_result st; st_seeds := st_seeds st;
     st_num_steps := st_num_steps st;
     st_checked_words := st_checked_words st;
     st_checked_trans := st_checked_trans st;
     st_num_appends := st_num_appends st; st_calls := st_calls st ++ c |}.

(** The heap after [heappop], [result.append(entry)], [num_appends = 0]. *)
Definition start_pop (st : ExpState) (entry : Entry) (rest : list Candidate) : ExpState :=
  {| st_result := st_result st ++ [entry]; st_seeds := rest;
     st_num_steps := st_num_steps st;
     st_checked_words := st_checked_words st;
     st_checked_trans := st_checked_trans st;
     st_num_appends := 0; st_calls := st_calls st |}.

Definition num_checked (st : ExpState) : Z := Z.of_nat (size (st_checked_words st)).

(** The loop over the seed entries. *)
Fixpoint seed_loop (seed_entries : list Entry) (st : ExpState) : res ExpState :=
  match seed_entries with
  | [] => Ok st
  | entry :: rest =>
      let word := e_word entry in
      if bool_decide (word ∈ st_checked_words st) then seed_loop rest st
      else
        st ← AddSeed (check_word st word) entry;
        seed_loop rest st
  end.

(** The loop over the children found for a related or co-occurring word. *)
Fixpoint adopt_children (children : list Entry) (st : ExpState) : res ExpState :=
  match children with
  | [] => Ok st
  | child :: rest =>
      if capacity <=? num_checked st then Ok st
      else
        let word := e_word child in
        if bool_decide (word ∈ st_checked_words st) then adopt_children rest st
        else
          st ← AddSeed (check_word st word) child;
          adopt_children rest (count_append st)
  end.

(** The loop over the children found for a translation. *)
Fixpoint adopt_tran_children (children : list Entry) (num_tran_adopts : Z)
    (st : ExpState) : res ExpState :=
  match children with
  | [] => Ok st
  | child :: rest =>
      if capacity <=? num_checked st then Ok st
      else if 5 <=? num_tran_adopts then Ok st
      else
        let word := e_word child in
        if bool_decide (word ∈ st_checked_words st)
        then adopt_tran_children rest num_tran_adopts st
        else
          st ← AddSeed (check_word st word) child;
          adopt_tran_children rest (num_tran_adopts + 1) (count_append st)
  end.

(** The loop over [rel_words[:max_rel_words]]. *)
Fixpoint expand_rel_words (rel_words : list string) (st : ExpState) : res ExpState :=
  match rel_words with
  | [] => Ok st
  | rel_word :: rest =>
      if capacity <=? num_checked st then Ok st
      else if bool_decide (rel_word ∈ st_checked_words st) then expand_rel_words rest st
      else
        let '(children, c) := SearchExact rel_word (capacity - num_checked st) in
        st ← adopt_children children (log_calls st c);
        expand_rel_words rest st
  end.

(** The loop over [trans[:max_trans]]. *)
Fixpoint expand_trans (trans : list string) (st : ExpState) : res ExpState :=
  match trans with
  | [] => Ok st
  | tran :: rest =>
      if capacity <=? num_checked st then Ok st
      else
        let tran := StripTranSuffix self tran in
        if bool_decide (tran ∈ st_checked_trans st) then expand_trans rest st
        else
          let st := check_tran st tran in
          let max_children := Z.min (capacity - num_checked st) 10 in
          let '(children, c) := SearchExactReverse tran max_children in
          st ← adopt_tran_children children 0 (log_calls st c);
          expand_trans rest st
  end.

(** The loop over the co-occurrence words. *)
Fixpoint expand_coocs (coocs : list string) (st : ExpState) : res ExpState :=
  match coocs with
  | [] => Ok st
  | cooc :: rest =>
      if 8 <=? st_num_appends st then Ok st
      else if capacity <=? num_checked st then Ok st
      else if bool_decide (cooc ∈ st_checked_words st) then expand_coocs rest st
      else
        let '(children, c) := SearchExact cooc (capacity - num_checked st) in
        st ← adopt_children children (log_calls st c);
        expand_coocs rest st
  end.

(** [(rel_word, i + j)] for the [j]-th word of the [i]-th relation. *)
Fixpoint ranked (i : Z) (j : Z) (words : list string) : list (string * Z) :=
  match words with
  | [] => []
  | w :: rest => (w, i + j) :: ranked i (j + 1) rest
  end.

(** [sorted(rel_words, key=...)]: a stable sort by the rank. *)
Fixpoint insert_ranked (x : string * Z) (sorted : list (string * Z)) : list (string * Z) :=
  match sorted with
  | [] => [x]
  | y :: rest => if snd x <? snd y then x :: sorted else y :: insert_ranked x rest
  end.

Definition sort_ranked (l : list (string * Z)) : list (string * Z) :=
  fold_left (fun acc x => insert_ranked x acc) l [].

Definition merged_rel_words (entry : Entry) : list string :=
  let rel_words :=
    ranked 0 0 (py_list (e_related entry)) ++
    ranked 1 0 (py_list (e_parent entry)) ++
    ranked 2 0 (py_list (e_child entry)) in
  map fst (sort_ranked rel_words).

(** [max(int(base / math.log2(len(result) + 1) * score), least)], for the
    literal [base] 16 or 8. *)
Definition fan_out (base : float) (least : Z) (result : list Entry) (score : float)
    : res Z :=
  q ← PyFloat.truediv base (math_log2 self (len result + 1));
  n ← PyFloat.to_int (q * score)%float;
  Ok (Z.max n least).

(** The body of the [while] loop for the popped candidate [c]. *)
Definition expand_body (st : ExpState) (c : Candidate) (rest : list Candidate)
    : res ExpState :=
  let score := (c_neg_score c * -1)%float in
  let entry := c_entry c in
  let st := start_pop st entry rest in
  max_rel_words ← fan_out 16 4 (st_result st) score;
  max_trans ← fan_out 8 2 (st_result st) score;
  st ← expand_rel_words (slice_to (merged_rel_words entry) max_rel_words) st;
  st ← expand_trans (slice_to (py_list (e_translation entry)) max_trans) st;
  expand_coocs (py_list (e_cooccurrence entry)) st.

(** The [while seeds:] loop, unrolled at most [fuel] times. *)
Fixpoint expand_loop (fuel : nat) (st : ExpState) : res ExpState :=
  match heappop (st_seeds st) with
  | None => Ok st
  | Some (c, rest) =>
      match fuel with
      | O => OutOfFuel
      | S fuel' =>
          st ← expand_body st c rest;
          expand_loop fuel' st
      end
  end.

Definition initial_state : ExpState :=
  {| st_result := []; st_seeds := []; st_num_steps := 0;
     st_checked_words := ∅; st_checked_trans := ∅;
     st_num_appends := 0; st_calls := [] |}.

(** Every pass of the loop pops one pushed candidate, and no more than
    [max capacity (len seed_entries)] candidates are ever pushed: that
    many passes are enough (see [expand_loop_terminates]). *)
Definition expand_fuel (seed_entries : list Entry) : nat :=
  Z.to_nat (Z.max capacity (len seed_entries)).

(** The final state of [ExpandEntries]. *)
Definition ExpandEntries_state (seed_entries : list Entry) : res ExpState :=
  st ← seed_loop seed_entries initial_state;
  expand_loop (expand_fuel seed_entries) st.
End Expand.

Definition ExpandEntries (seed_entries : list Entry) (seed_features : Features)
    (capacity : Z) : res (list Entry * list StorageCall) :=
  st ← ExpandEntries_state seed_features capacity seed_entries;
  Ok (st_result st, st_calls st).

(** *** SearchRelatedWithSeeds and the remaining entry points *)

(** [seed_features[word] += score * weight] over the features of a seed;
    [seed_features] is a [defaultdict(float)]. *)
Fixpoint add_features (items : Features) (weight : float) (seed_features : Features)
    : Features :=
  match items with
  | [] => seed_features
  | (word, score) :: rest =>
      let old := default 0%float (dict_get seed_features word) in
      add_features rest weight (dict_set seed_features word (old + score * weight)%float)
  end.

(** The weight of a seed: [base_weight], times 0.1 for a repeated word. *)
Definition seed_weight (base_weight : float) (uniq_words : gset string)
    (norm_word : string) : float :=
  if bool_decide (norm_word ∈ uniq_words) then (base_weight * 0.1)%float
  else base_weight.

Fixpoint aggregate_seeds (seeds : list Entry) (seed_features : Features)
    (base_weight : float) (uniq_words : gset string) : res Features :=
  match seeds with
  | [] => Ok seed_features
  | seed :: rest =>
      let norm_word := NormalizeWord self (e_word seed) in
      let weight := seed_weight base_weight uniq_words norm_word in
      let uniq_words := {[norm_word]} ∪ uniq_words in
      features ← GetFeatures seed;
      aggregate_seeds rest (add_features features weight seed_features)
                      (base_weight * 0.8)%float uniq_words
  end.

(** [max(int(capacity * 1.2), 100)]. *)
Definition working_capacity (capacity : Z) : res Z :=
  c ← PyFloat.of_int capacity;
  n ← PyFloat.to_int (c * 1.2)%float;
  Ok (Z.max n 100).

Definition SearchRelatedWithSeeds (seeds : list Entry) (capacity : Z)
    : res (list Entry * list StorageCall) :=
  seed_features ← aggregate_seeds seeds [] 1%float ∅;
  expand_capacity ← working_capacity capacity;
  r ← ExpandEntries seeds seed_features expand_capacity;
  Ok (slice_to (fst r) capacity, snd r).

(** The seeds of a comma-separated query, resolved by [lookup]. *)
Fixpoint resolve_seeds (lookup : string -> Z -> list Entry * list StorageCall)
    (words : list string) (capacity : Z) (seeds : list Entry)
    (calls : list StorageCall) : list Entry * list StorageCall :=
  match words with
  | [] => (seeds, calls)
  | word :: rest =>
      if str_empty word then resolve_seeds lookup rest capacity seeds calls
      else
        let '(found, c) := lookup word capacity in
        resolve_seeds lookup rest capacity (seeds ++ found) (calls ++ c)
  end.

Definition SearchRelated (text : string) (capacity : Z)
    : res (list Entry * list StorageCall) :=
  let '(seeds, calls) := resolve_seeds SearchExact (split_on "," text) capacity [] [] in
  r ← SearchRelatedWithSeeds seeds capacity;
  Ok (fst r, calls ++ snd r).

Definition SearchRelatedReverse (text : string) (capacity : Z)
    : res (list Entry * list StorageCall) :=
  let '(seeds, calls) :=
    resolve_seeds SearchExactReverse (split_on "," text) capacity [] [] in
  r ← SearchRelatedWithSeeds seeds capacity;
  Ok (fst r, calls ++ snd r).

Fixpoint pattern_keys (keys : list string) (capacity : Z) (result : list Entry)
    (calls : list StorageCall) : list Entry * list StorageCall :=
  match keys with
  | [] => (result, calls)
  | key :: rest =>
      if capacity <=? len result then (result, calls)
      else
        let '(found, c) := SearchExact key (capacity - len result) in
        pattern_keys rest capacity (result ++ found) (calls ++ c)
  end.

Definition SearchPatternMatch (mode text : string) (capacity : Z)
    : list Entry * list StorageCall :=
  let text := NormalizeWord self text in
  let keys := keys_file self mode text capacity true in
  pattern_keys keys capacity [] [KeysSearch mode text capacity true].

Fixpoint pattern_reverse_keys (keys : list string) (capacity : Z) (result : list Entry)
    (uniq_words : gset string) (calls : list StorageCall)
    : list Entry * list StorageCall :=
  match keys with
  | [] => (result, calls)
  | key :: rest =>
      if capacity <=? len result then (result, calls)
      else
        let '(found, c) := SearchExactReverse key (capacity - len result + 10) in
        let '(result, uniq_words) := exact_entries found capacity result uniq_words in
        pattern_reverse_keys rest capacity result uniq_words (calls ++ c)
  end.

Definition SearchPatternMatchReverse (mode text : string) (capacity : Z)
    : list Entry * list StorageCall :=
  let text := NormalizeWord self text in
  let keys := tran_keys_file self mode text capacity true in
  pattern_reverse_keys keys capacity [] ∅ [TranKeysSearch mode text capacity true].

Fixpoint grade_keys (keys : list string) (capacity : Z) (first_only : bool)
    (result : list Entry) (calls : list StorageCall) : list Entry * list StorageCall :=
  match keys with
  | [] => (result, calls)
  | key :: rest =>
      if capacity <=? len result then (result, calls)
      else
        let '(found, c) := SearchExact key (capacity - len result) in
        let found := if first_only then firstn 1 found else found in
        grade_keys rest capacity first_only (result ++ found) (calls ++ c)
  end.

Definition SearchByGrade (capacity page : Z) (first_only : bool)
    : list Entry * list StorageCall :=
  let keys := keys_file self "begin" "" (capacity * page) false in
  let keys := if 1 <? page then slice_from keys (capacity * (page - 1)) else keys in
  grade_keys keys capacity first_only [] [KeysSearch "begin" "" (capacity * page) false].
End Searcher.

(** *** The lookups outside the expansion *)

(** [SearchInflections] reads the inflection index, the third database
    that [__init__] opens; the index is passed as it is looked up, a key
    without value giving [None].  The text is not normalized. *)
Definition SearchInflections (infl_index_dbm : string -> option string) (text : string)
    : list string :=
  match infl_index_dbm text with
  | Some tsv => if str_empty tsv then [] else split_on "009" tsv
  | None => []
  end.

(** [GetResultKeys]: the set of the normalized headwords. *)
Definition GetResultKeys (self : UnionSearcher) (entries : list Entry) : gset string :=
  fold_left (fun keys entry => {[NormalizeWord self (e_word entry)]} ∪ keys) entries ∅.

(** ** Notions used in the statements *)

(** [0.95^k] as the code computes it: [k] multiplications from 1.0. *)
Definition decay_pow (k : nat) : float :=
  Nat.iter k (fun score => (score * SCORE_DECAY)%float) 1%float.

(** The base weight of the [i]-th seed: [i] multiplications by 0.8 from 1.0. *)
Definition base_weight_at (i : nat) : float :=
  Nat.iter i (fun w => (w * 0.8)%float) 1%float.

Section FeatureSpec.
Variable self : UnionSearcher.

(** The part-of-speech pseudo-tokens of an entry. *)
Definition pos_tokens (entry : Entry) : list string :=
  map (fun item => String.append "__" (i_pos item)) (e_item entry).

(** The tokens read by the related, translation and co-occurrence passes,
    in that order, at most 20 per pass. *)
Definition feature_tokens (entry : Entry) : list string :=
  map (NormalizeWord self) (firstn 20 (py_list (e_related entry))) ++
  map (fun tran => StripFeatureSuffix self (NormalizeWord self tran))
      (firstn 20 (py_list (e_translation entry))) ++
  map (NormalizeWord self) (firstn 20 (py_list (e_cooccurrence entry))).

(** The tokens of a stream that are new: neither [seen] nor met earlier
    in the stream. *)
Fixpoint fresh_tokens (seen : list string) (tokens : list string) : list string :=
  match tokens with
  | [] => []
  | t :: rest =>
      if decide (t ∈ seen) then fresh_tokens seen rest
      else t :: fresh_tokens (t :: seen) rest
  end.

(** The newly introduced tokens of an entry, in the order of introduction. *)
Definition new_tokens (entry : Entry) : list string :=
  fresh_tokens (NormalizeWord self (e_word entry) :: pos_tokens entry) (feature_tokens entry).

(** The weight with which the [i]-th seed enters the aggregate: its base
    weight, times 0.1 when its normalized headword is that of an earlier
    seed. *)
Definition seed_weight_at (seeds : list Entry) (i : nat) : float :=
  let norm_words := map (fun seed => NormalizeWord self (e_word seed)) seeds in
  match norm_words !! i with
  | Some w =>
      if decide (w ∈ take i norm_words) then (base_weight_at i * 0.1)%float
      else base_weight_at i
  | None => base_weight_at i
  end.
End FeatureSpec.

(** The weighted sum of feature vectors, accumulated as [add_features] does. *)
Fixpoint weighted_union (fs : list Features) (ws : list float) (acc : Features) : Features :=
  match fs, ws with
  | f :: fs', w :: ws' => weighted_union fs' ws' (add_features f w acc)
  | _, _ => acc
  end.

(** A heap whose discovery numbers are pairwise distinct and below the
    counter [n]. *)
Definition heap_wf (h : list Candidate) (n : Z) : Prop :=
  NoDup (map c_steps h) /\ Forall (fun c => 0 <= c_steps c < n) h.

(** A score that compares with itself, that is: not a NaN. *)
Definition comparable (c : Candidate) : Prop :=
  (c_neg_score c =? c_neg_score c)%float = true.

(** Facts on the binary64 format are stated on its specification
    ([spec_float]); these are the classes of values they use. *)
Module SF.
(** The magnitude of a finite number: [2^(mag - 1) <= m * 2^e < 2^mag]. *)
Definition magnitude (m : positive) (e : Z) : Z := Zdigits2 (Z.pos m) + e.
Arguments magnitude : simpl never.

(** What rounding returns for a positive mantissa: a number of sign [s]
    and magnitude at least [g], or an infinity. *)
Definition rounded (s : bool) (g : Z) (x : spec_float) : Prop :=
  match x with
  | S754_finite s' m e => s' = s /\ g <= magnitude m e
  | S754_infinity s' => s' = s
  | _ => False
  end.

(** Not negative: a NaN, a zero, a positive number or plus infinity. *)
Definition nonneg (x : spec_float) : Prop :=
  match x with
  | S754_finite true _ _ | S754_infinity true => False
  | _ => True
  end.

(** A NaN, plus infinity, or a positive number of magnitude at least
    [2^-537] (the square root of the least positive number). *)
Definition big (x : spec_float) : Prop :=
  match x with
  | S754_nan | S754_infinity false => True
  | S754_finite false m e => -536 <= magnitude m e
  | _ => False
  end.

Definition nonzero (x : spec_float) : Prop :=
  match x with S754_zero _ => False | _ => True end.

(** A zero, or a number of either sign whose magnitude is at most [g]: its
    absolute value is below [2^g]. *)
Definition below (g : Z) (x : spec_float) : Prop :=
  match x with
  | S754_zero _ => True
  | S754_finite _ m e => magnitude m e <= g
  | _ => False
  end.

(** Plus infinity, or a positive number whose magnitude is at least [g]:
    it is at least [2^(g-1)]. *)
Definition above (g : Z) (x : spec_float) : Prop :=
  match x with
  | S754_infinity false => True
  | S754_finite false m e => g <= magnitude m e
  | _ => False
  end.

(** [below], decided, for the constants. *)
Definition belowb (g : Z) (x : spec_float) : bool :=
  match x with
  | S754_zero _ => true
  | S754_finite _ m e => magnitude m e <=? g
  | _ => false
  end.

(** The mantissa of 1.0, [2^52]. *)
Definition one_m : positive := 4503599627370496.

(** The composition of two comparisons along a chain [x <= y <= z]. *)
Definition comb (c1 c2 : comparison) : comparison :=
  match c1 with Eq => c2 | _ => c1 end.

(** The order on positive finite numbers: exponents first. *)
Definition lex_compare (e1 : Z) (m1 : positive) (e2 : Z) (m2 : positive) : comparison :=
  match e1 ?= e2 with Lt => Lt | Gt => Gt | Eq => Pos.compare_cont Eq m1 m2 end.

(** The comparison of two primitive floats, read on their specification. *)
Definition fcompare (x y : float) : option comparison :=
  SFcompare (Prim2SF x) (Prim2SF y).
End SF.

(** The side conditions of a run of the expansion: on them the arithmetic
    of the scores raises nothing. *)
Section Conditions.
Variable self : UnionSearcher.
Variable seed_features : Features.
Variable seed_entries : list Entry.

(** The score that [AddSeed] gives to an entry. *)
Definition similarity (entry : Entry) : res float :=
  features ← GetFeatures self entry;
  GetSimilarity seed_features features.

(** An entry held by the body database. *)
Definition stored (entry : Entry) : Prop :=
  exists key entries, body_dbm self key = Some entries /\ entry ∈ entries.

(** The entries that the expansion can meet. *)
Definition known (entry : Entry) : Prop := entry ∈ seed_entries \/ stored entry.

(** [math.log2] is at least 1 from 2 on. *)
Definition log2_sane : Prop :=
  forall n, 2 <= n -> (1 <=? math_log2 self n)%float = true.

(** [math.log2] is not 0 from 2 on. *)
Definition log2_nonzero : Prop :=
  forall n, 2 <= n -> (math_log2 self n =? 0)%float = false.

(** The score of every entry that can be met is computed, and is a number
    that is not negative. *)
Definition scores_defined : Prop :=
  forall entry, known entry ->
  exists score, similarity entry = Ok score /\ (0 <=? score)%float = true.

(** The condition on the score of one entry, decided. *)
Definition score_ok (entry : Entry) : bool :=
  match similarity entry with
  | Ok score => (0 <=? score)%float
  | _ => false
  end.

Definition tame : Prop := log2_sane /\ scores_defined.

(** What an exception tells about the run: a division by zero needs a
    logarithm that is 0, any other exception a score out of range or a
    logarithm below 1. *)
Definition excuse (e : exn) : Prop :=
  match e with
  | ZeroDivisionError => ~ log2_nonzero
  | _ => ~ tame
  end.

(** A pending candidate carries the negated score of its entry, and its
    entry is a seed or comes from the body database. *)
Definition candidate_ok (c : Candidate) : Prop :=
  known (c_entry c) /\
  exists score, similarity (c_entry c) = Ok score /\ c_neg_score c = (- score)%float.
End Conditions.

(** The side conditions of [SearchRelatedWithSeeds]: a capacity of 63 bits,
    and the conditions above for the aggregated seed features. *)
Definition related_tame (self : UnionSearcher) (seeds : list Entry) (capacity : Z) : Prop :=
  - 2 ^ 63 < capacity < 2 ^ 63 /\
  exists seed_features,
    aggregate_seeds self seeds [] 1%float ∅ = Ok seed_features /\
    tame self seed_features seeds.

Definition related_excuse (self : UnionSearcher) (seeds : list Entry) (capacity : Z)
    (e : exn) : Prop :=
  match e with
  | ZeroDivisionError => ~ log2_nonzero self
  | _ => ~ related_tame self seeds capacity
  end.

(** The result of a call: it satisfies [P] when the call returns, the
    exception is accounted for by [excuse] when it raises, and the fuel is
    never exhausted. *)
Definition outcome {A} (excuse : exn -> Prop) (P : A -> Prop) (r : res A) : Prop :=
  match r with
  | Ok a => P a
  | Raise e => excuse e
  | OutOfFuel => False
  end.

(** ** A small dictionary, for the examples *)

Module Example.
Definition lower_ascii (c : ascii) : ascii :=
  let n := nat_of_ascii c in
  if ((65 <=? n)%nat && (n <=? 90)%nat)%bool then ascii_of_nat (n + 32) else c.

(** Lower-casing of ASCII letters: what the normalization does to the
    words used below. *)
Fixpoint lower (s : string) : string :=
  match s with
  | EmptyString => EmptyString
  | String c rest => String (lower_ascii c) (lower rest)
  end.

(** The suffix patterns match no ASCII word. *)
Definition no_suffix (s : string) : string := s.

(** [math.log2] on the first integers. *)
Definition log2 (n : Z) : float :=
  if n <=? 2 then 1%float
  else if n =? 3 then 1.584962500721156%float
  else if n =? 4 then 2%float
  else 2.321928094887362%float.

Definition noun := {| i_label := "wn"; i_pos := "noun"; i_text := "" |}.
Definition verb := {| i_label := "wn"; i_pos := "verb"; i_text := "" |}.

Definition entry (word : string) (items : list Item) (trans related : list string) : Entry :=
  {| e_word := word; e_item := items; e_translation := Some trans;
     e_related := Some related; e_parent := None; e_child := None;
     e_cooccurrence := None |}.

Definition apple := entry "apple" [noun] ["ringo"] ["pear"].
Definition Apple := entry "Apple" [noun] ["kaisha"] [].
Definition pear := entry "pear" [noun] ["nashi"] ["apple"].
Definition tagged := entry "__verb" [noun; verb] [] [].

Definition body (key : string) : option (list Entry) :=
  if String.eqb key "apple" then Some [apple; Apple]
  else if String.eqb key "pear" then Some [pear]
  else None.

Definition tran_index (key : string) : option string :=
  if String.eqb key "ringo" then Some (String.append "apple" (String "009" "pear"))
  else None.

Definition keys (mode text : string) (capacity : Z) (utf : bool) : list string :=
  ["apple"; "pear"].


Definition searcher : UnionSearcher :=
  {| NormalizeWord := lower; StripFeatureSuffix := no_suffix;
     StripTranSuffix := no_suffix; math_log2 := log2;
     body_dbm := body; tran_index_dbm := tran_index;
     keys_file := keys; tran_keys_file := keys |}.
End Example.

(** ** The invariant of the expansion *)

(** The state after [AddSeed] pushed [entry] with [score]. *)
Definition pushed (st : ExpState) (score : float) (entry : Entry) : ExpState :=
  {| st_result := st_result st;
     st_seeds := heappush (st_seeds st)
                   {| c_neg_score := - score; c_steps := st_num_steps st; c_entry := entry |};
     st_num_steps := st_num_steps st + 1;
     st_checked_words := st_checked_words st;
     st_checked_trans := st_checked_trans st;
     st_num_appends := st_num_appends st;
     st_calls := st_calls st |}.

(** The headwords of the output and of the pending candidates. *)
Definition discovered (st : ExpState) : list string :=
  map e_word (st_result st) ++ map (fun c => e_word (c_entry c)) (st_seeds st).

(** Every candidate was pushed when its headword was added to the visited
    set: the pushes are counted by [num_steps] and by the size of the set,
    each pushed candidate is pending or in the output, no headword was
    pushed twice, and the discovery numbers of the pending candidates are
    distinct. *)
Record expansion_inv (st : ExpState) : Prop := {
  inv_steps : st_num_steps st = num_checked st;
  inv_count : len (st_result st) + len (st_seeds st) = st_num_steps st;
  inv_nodup : NoDup (discovered st);
  inv_visited : forall w, w ∈ discovered st -> w ∈ st_checked_words st;
  inv_heap : heap_wf (st_seeds st) (st_num_steps st)
}.

(** The invariant, with the provenance of the pending candidates. *)
Definition expansion_ok (self : UnionSearcher) (seed_features : Features)
    (seed_entries : list Entry) (st : ExpState) : Prop :=
  expansion_inv st /\
  Forall (candidate_ok self seed_features seed_entries) (st_seeds st).

(** What the fan-out of one pass may change: nothing of the output, and
    the visited set grows only while it is smaller than the capacity. *)
Definition grows (capacity : Z) (st st' : ExpState) : Prop :=
  st_result st' = st_result st /\
  num_checked st' <= Z.max (num_checked st) capacity.


(** A lookup in the reverse translation index. *)
Definition is_index_call (c : StorageCall) : Prop :=
  match c with TranIndexGet _ => True | _ => False end.

(** The number of distinct headwords among the seed entries. *)
Definition distinct_seeds (seed_entries : list Entry) : Z :=
  Z.of_nat (size (list_to_set (map e_word seed_entries) : gset string)).

(** The states in which the [while] loop tests its condition. *)
Inductive visits (self : UnionSearcher) (seed_features : Features) (capacity : Z)
    : ExpState -> ExpState -> Prop :=
  | visits_here st : visits self seed_features capacity st st
  | visits_pass st c rest st' st'' :
      heappop (st_seeds st) = Some (c, rest) ->
      expand_body self seed_features capacity st c rest = Ok st' ->
      visits self seed_features capacity st' st'' ->
      visits self seed_features capacity st st''.

(** ** Notions for the lookups *)

(** A lookup in the body database. *)
Definition is_body_call (c : StorageCall) : Prop :=
  match c with BodyGet _ => True | _ => False end.

(** A lookup of the body database or of the translation index. *)
Definition is_lookup_call (c : StorageCall) : Prop :=
  match c with BodyGet _ | TranIndexGet _ => True | _ => False end.

Section LookupSpec.
Variable self : UnionSearcher.

(** An entry found for one of the words of a query. *)
Definition found_for (words : list string) (e : Entry) : Prop :=
  exists word entries,
    word ∈ words /\ NormalizeWord self word <> "" /\
    body_dbm self (NormalizeWord self word) = Some entries /\ e ∈ entries.

(** A body lookup for one of the words of a query. *)
Definition lookup_of (words : list string) (c : StorageCall) : Prop :=
  exists word,
    word ∈ words /\ NormalizeWord self word <> "" /\
    c = BodyGet (NormalizeWord self word).

(** A translation of the entry contains one of the query terms. *)
Definition confirmed_by (words : list string) (e : Entry) : Prop :=
  exists tran word,
    tran ∈ py_list (e_translation e) /\ word ∈ words /\
    NormalizeWord self word <> "" /\
    str_contains (NormalizeWord self tran) (NormalizeWord self word) = true.
End LookupSpec.

(** What a stretch of the expansion does to its bookkeeping: the set of the
    visited headwords only grows, and the storage calls are followed by
    lookups. *)
Definition extends (st st' : ExpState) : Prop :=
  st_checked_words st ⊆ st_checked_words st' /\
  exists more, st_calls st' = st_calls st ++ more /\ Forall is_lookup_call more.

(** [sep.join(words)]. *)
Fixpoint join_on (sep : ascii) (words : list string) : string :=
  match words with
  | [] => ""
  | [w] => w
  | w :: rest => String.append w (String sep (join_on sep rest))
  end.

(** The character occurs in the string. *)
Fixpoint has_char (c : ascii) (s : string) : bool :=
  match s with
  | EmptyString => false
  | String c' rest => Ascii.eqb c' c || has_char c rest
  end.


(** * Properties *)

(** ** Facts on binary64 arithmetic *)

Module FloatFacts.
Import SF.

Lemma digits2_size p : digits2_pos p = Pos.size p.
Proof. induction p; simpl; congruence. Qed.

Lemma Zdigits2_log2 m : 0 < m -> Zdigits2 m = Z.log2 m + 1.
Proof.
destruct m as [|p|p]; try lia. intros _. simpl. rewrite digits2_size.
destruct p; simpl; lia.
Qed.

Lemma shr_1_m mrs : 0 <= shr_m mrs -> shr_m (shr_1 mrs) = shr_m mrs / 2.
Proof.
destruct mrs as [m r s]. intros Hm. rewrite <- Z.div2_div.
destruct m as [|[p|p|]|p]; try reflexivity. simpl in Hm. lia.
Qed.

Lemma iter_pos_shr_m p : forall mrs, 0 <= shr_m mrs ->
shr_m (SpecFloat.iter_pos shr_1 p mrs) = shr_m mrs / 2 ^ Z.pos p.
Proof.
assert (Hstep : forall mrs, 0 <= shr_m mrs -> 0 <= shr_m (shr_1 mrs)).
{ intros mrs H. rewrite shr_1_m by assumption. apply Z.div_pos; lia. }
assert (Hpow : forall q, 0 < 2 ^ Z.pos q) by (intros; apply Z.pow_pos_nonneg; lia).
assert (Hdiv : forall a q, 0 <= a -> 0 <= a / 2 ^ Z.pos q).
{ intros. apply Z.div_pos; auto. }
induction p as [p IH|p IH|]; intros mrs Hm; simpl SpecFloat.iter_pos.
- rewrite IH.
  + rewrite IH by auto. rewrite shr_1_m by auto.
    pose proof (Hpow p).
    rewrite !Z.div_div by lia.
    f_equal. replace (Z.pos p~1) with (1 + Z.pos p + Z.pos p) by lia.
    rewrite !Z.pow_add_r by lia. lia.
  + rewrite IH by auto. apply Hdiv. auto.
- rewrite IH.
  + rewrite IH by auto. pose proof (Hpow p).
    rewrite !Z.div_div by lia.
    f_equal. replace (Z.pos p~0) with (Z.pos p + Z.pos p) by lia.
    rewrite !Z.pow_add_r by lia. lia.
  + rewrite IH by auto. apply Hdiv. auto.
- rewrite shr_1_m by auto. reflexivity.
Qed.

Lemma shr_record_of_loc_m m l : shr_m (shr_record_of_loc m l) = m.
Proof. destruct l as [|[]]; reflexivity. Qed.

Section Binary64.
(** The shift to the canonical exponent keeps a positive mantissa positive
  and keeps the magnitude [digits + exponent], as soon as the number is
  at least the least subnormal one. *)
Lemma shr_fexp_magnitude m e l :
0 < m -> emin + 1 <= Zdigits2 m + e ->
0 < shr_m (fst (shr_fexp prec emax m e l)) /\
Zdigits2 (shr_m (fst (shr_fexp prec emax m e l))) + snd (shr_fexp prec emax m e l)
  = Zdigits2 m + e.
Proof.
intros Hm Hg. unfold shr_fexp, shr.
set (n := fexp prec emax (Zdigits2 m + e) - e).
assert (Hn : n <= Z.log2 m).
{ subst n. unfold fexp. rewrite Zdigits2_log2 in * by lia.
  unfold SpecFloat.emin, prec, emax in *. lia. }
destruct n as [|p|p] eqn:En; simpl fst; simpl snd;
  rewrite ?shr_record_of_loc_m; try (split; [lia|reflexivity]).
rewrite iter_pos_shr_m by (rewrite shr_record_of_loc_m; lia).
rewrite shr_record_of_loc_m.
rewrite <- Z.shiftr_div_pow2 by lia.
assert (Hpos : 0 < Z.shiftr m (Z.pos p)).
{ rewrite Z.shiftr_div_pow2 by lia.
  apply Z.div_str_pos. split; [apply Z.pow_pos_nonneg; lia|].
  apply Z.log2_le_pow2; lia. }
split; [exact Hpos|].
rewrite !Zdigits2_log2 by lia.
rewrite Z.log2_shiftr by lia. lia.
Qed.

Lemma round_nearest_even_ge m l : m <= round_nearest_even m l.
Proof. destruct l as [|[]]; simpl; try lia. destruct (Z.even m); lia. Qed.

Lemma binary_round_aux_magnitude s m e l :
0 < m -> emin + 1 <= Zdigits2 m + e ->
rounded s (Zdigits2 m + e) (binary_round_aux prec emax s m e l).
Proof.
intros Hm Hg. unfold binary_round_aux.
pose proof (shr_fexp_magnitude m e l Hm Hg) as [H1 H2].
destruct (shr_fexp prec emax m e l) as [mrs' e'] eqn:E1. simpl fst in *. simpl snd in *.
set (m2 := round_nearest_even (shr_m mrs') (loc_of_shr_record mrs')).
assert (Hm2 : shr_m mrs' <= m2) by apply round_nearest_even_ge.
assert (Hd : Zdigits2 (shr_m mrs') <= Zdigits2 m2).
{ rewrite !Zdigits2_log2 by lia. pose proof (Z.log2_le_mono _ _ Hm2). lia. }
assert (Hg2 : emin + 1 <= Zdigits2 m2 + e') by lia.
pose proof (shr_fexp_magnitude m2 e' loc_Exact ltac:(lia) Hg2) as [H3 H4].
destruct (shr_fexp prec emax m2 e' loc_Exact) as [mrs'' e''] eqn:E2.
simpl fst in *. simpl snd in *.
destruct (shr_m mrs'') as [|p|p] eqn:E3; try lia.
destruct (e'' <=? emax - prec); simpl; [|reflexivity].
split; [reflexivity|]. unfold magnitude. lia.
Qed.

Lemma binary_round_aux_sign s m e l :
match binary_round_aux prec emax s m e l with
| S754_finite s' _ _ | S754_infinity s' | S754_zero s' => s' = s
| S754_nan => True
end.
Proof.
unfold binary_round_aux.
destruct (shr_fexp prec emax m e l) as [mrs' e'].
destruct (shr_fexp prec emax _ e' loc_Exact) as [mrs'' e''].
destruct (shr_m mrs''); auto. destruct (e'' <=? emax - prec); auto.
Qed.

Lemma SFmul_square_nonneg x : nonneg (SFmul prec emax x x).
Proof.
destruct x as [s|s| |s m e]; simpl; auto; try (destruct s; exact I).
pose proof (binary_round_aux_sign (xorb s s) (Z.pos (m * m)) (e + e) loc_Exact) as H.
destruct (binary_round_aux prec emax (xorb s s) (Z.pos (m * m)) (e + e) loc_Exact);
  simpl; auto; subst; destruct s; exact I.
Qed.

Lemma SFadd_nonneg x y : nonneg x -> nonneg y -> nonneg (SFadd prec emax x y).
Proof.
destruct x as [sx|sx| |sx mx ex], y as [sy|sy| |sy my ey]; simpl; auto;
  try (destruct sx, sy; simpl; tauto).
destruct sx, sy; simpl; try tauto. intros _ _.
unfold binary_normalize, binary_round.
destruct (shl_align _ _ _) as [mz ez].
pose proof (binary_round_aux_sign false (Z.pos mz) ez loc_Exact) as H.
destruct (binary_round_aux prec emax false (Z.pos mz) ez loc_Exact); simpl; auto; subst; exact I.
Qed.

Lemma SFmul_big x y : big x -> big y -> nonzero (SFmul prec emax x y).
Proof.
destruct x as [sx|sx| |sx mx ex], y as [sy|sy| |sy my ey]; simpl; auto;
  try (destruct sx; simpl; tauto); try (destruct sy; simpl; tauto).
destruct sx, sy; simpl; try tauto. intros Hx Hy.
assert (Hm : 0 < Z.pos (mx * my)) by lia.
assert (Hg : emin + 1 <= Zdigits2 (Z.pos (mx * my)) + (ex + ey)).
{ rewrite Zdigits2_log2 by lia. rewrite Pos2Z.inj_mul.
  pose proof (Z.log2_mul_below (Z.pos mx) (Z.pos my) ltac:(lia) ltac:(lia)).
  pose proof (Zdigits2_log2 (Z.pos mx) ltac:(lia)) as H1.
  pose proof (Zdigits2_log2 (Z.pos my) ltac:(lia)) as H2.
  unfold magnitude in Hx, Hy.
  unfold SpecFloat.emin, prec, emax. lia. }
pose proof (binary_round_aux_magnitude false _ _ loc_Exact Hm Hg) as H.
destruct (binary_round_aux prec emax false (Z.pos (mx * my)) (ex + ey) loc_Exact);
  simpl in *; auto.
Qed.

Lemma valid_finite_magnitude s m e :
valid_binary (S754_finite s m e) = true -> emin + 1 <= magnitude m e.
Proof.
unfold SpecFloat.valid_binary, bounded, canonical_mantissa, magnitude, Zdigits2.
intros Hv. apply andb_prop in Hv. destruct Hv as [Hc _]. apply Z.eqb_eq in Hc.
unfold fexp in Hc.
pose proof (Pos2Z.is_pos (digits2_pos m)). lia.
Qed.

Lemma sqrt_core_magnitude m e :
emin + 1 <= magnitude m e ->
let '(q, e', _) := SFsqrt_core_binary prec emax (Z.pos m) e in
0 < q /\ -536 <= Zdigits2 q + e'.
Proof.
intros Hg. unfold SFsqrt_core_binary.
set (d := Zdigits2 (Z.pos m)).
set (e' := Z.min (fexp prec emax (Z.div2 (d + e + 1))) (Z.div2 e)).
set (sh := e - 2 * e').
assert (Hsh : 0 <= sh).
{ subst sh e'. rewrite !Z.div2_div. pose proof (Z.mul_div_le e 2 ltac:(lia)). lia. }
set (m' := match sh with Z.pos _ => Z.shiftl (Z.pos m) sh | 0 => Z.pos m | Z.neg _ => 0 end).
assert (Hm' : m' = Z.pos m * 2 ^ sh).
{ subst m'. destruct sh as [|p|p] eqn:E; try lia.
  rewrite Z.shiftl_mul_pow2 by lia. reflexivity. }
pose proof (Z.sqrtrem_sqrt m') as Hq.
destruct (Z.sqrtrem m') as [q r]. unfold fst in Hq. subst q.
set (k := (Z.log2 (Z.pos m) + sh) / 2).
assert (Hk0 : 0 <= k).
{ subst k. apply Z.div_pos; [|lia]. pose proof (Z.log2_nonneg (Z.pos m)). lia. }
assert (Hlow : 2 ^ k <= Z.sqrt m').
{ apply Z.sqrt_le_square.
  - rewrite Hm'. apply Z.mul_nonneg_nonneg; [lia|]. apply Z.pow_nonneg; lia.
  - apply Z.pow_nonneg; lia.
  - rewrite <- Z.pow_add_r by lia. rewrite Hm'.
    apply Z.le_trans with (2 ^ (Z.log2 (Z.pos m) + sh)).
    + apply Z.pow_le_mono_r; [lia|]. subst k.
      pose proof (Z.mul_div_le (Z.log2 (Z.pos m) + sh) 2 ltac:(lia)). lia.
    + rewrite Z.pow_add_r by (try apply Z.log2_nonneg; lia).
      apply Z.mul_le_mono_nonneg_r; [apply Z.pow_nonneg; lia|].
      apply Z.log2_spec. lia. }
assert (Hqpos : 0 < Z.sqrt m').
{ pose proof (Z.pow_pos_nonneg 2 k ltac:(lia) Hk0). lia. }
assert (Hkq : k <= Z.log2 (Z.sqrt m')) by (apply Z.log2_le_pow2; assumption).
split; [exact Hqpos|].
rewrite Zdigits2_log2 by lia.
unfold magnitude in Hg. rewrite Zdigits2_log2 in Hg by lia.
assert (Hk : k = (Z.log2 (Z.pos m) + e) / 2 - e').
{ subst k sh. replace (Z.log2 (Z.pos m) + (e - 2 * e')) with
    (Z.log2 (Z.pos m) + e + (- e') * 2) by lia.
  rewrite Z.div_add by lia. lia. }
assert (-537 <= (Z.log2 (Z.pos m) + e) / 2).
{ apply Z.div_le_lower_bound; [lia|]. unfold SpecFloat.emin, prec, emax in Hg. lia. }
lia.
Qed.

Lemma SFsqrt_big x :
valid_binary x = true -> nonneg x -> nonzero x -> big (SFsqrt prec emax x).
Proof.
destruct x as [s|s| |s m e]; intros Hv Hn Hz;
  try (destruct s; simpl in *; tauto); try exact I.
destruct s; [contradiction|]. clear Hn Hz.
apply valid_finite_magnitude in Hv.
pose proof (sqrt_core_magnitude m e Hv) as Hc.
unfold SFsqrt.
destruct (SFsqrt_core_binary prec emax (Z.pos m) e) as [[q e'] l].
destruct Hc as [Hq Hmag].
pose proof (binary_round_aux_magnitude false q e' l Hq
              ltac:(unfold SpecFloat.emin, prec, emax; lia)) as H.
destruct (binary_round_aux prec emax false q e' l); unfold rounded, big in *; try tauto.
- subst. exact I.
- destruct H as [-> H]. lia.
Qed.
End Binary64.

Lemma eqb_zero_nonzero x : (x =? 0)%float = false <-> nonzero (Prim2SF x).
Proof.
rewrite FloatAxioms.eqb_spec. change (Prim2SF 0) with (S754_zero false).
destruct (Prim2SF x) as [s|s| |s m e]; simpl; try tauto; try (destruct s; simpl; tauto).
- unfold SFeqb. simpl. intuition congruence.
Qed.

(** The divisor of [GetSimilarity] is not zero when both norms are sums of
  squares that are not zero. *)
Lemma sqrt_product_nonzero sn cn :
nonneg (Prim2SF sn) -> nonneg (Prim2SF cn) ->
(sn =? 0)%float = false -> (cn =? 0)%float = false ->
(sqrt sn * sqrt cn =? 0)%float = false.
Proof.
intros Hs Hc Hs0 Hc0. apply eqb_zero_nonzero.
apply eqb_zero_nonzero in Hs0, Hc0.
rewrite mul_spec, !sqrt_spec.
apply SFmul_big; apply SFsqrt_big; auto using Prim2SF_valid.
Qed.

Lemma square_nonneg x : nonneg (Prim2SF (x * x)).
Proof. rewrite mul_spec. apply SFmul_square_nonneg. Qed.

Lemma add_nonneg x y : nonneg (Prim2SF x) -> nonneg (Prim2SF y) -> nonneg (Prim2SF (x + y)).
Proof. rewrite add_spec. apply SFadd_nonneg. Qed.

Lemma Z_compare_trans a b c c1 c2 :
(a ?= b) = c1 -> (b ?= c) = c2 -> c1 <> Gt -> c2 <> Gt -> (a ?= c) = comb c1 c2.
Proof.
intros H1 H2 N1 N2. subst.
destruct (Z.compare_spec a b), (Z.compare_spec b c); simpl; try congruence;
  try (apply Z.compare_eq_iff; lia); try (apply Z.compare_lt_iff; lia).
Qed.

Lemma Pos_compare_trans a b c c1 c2 :
(a ?= b)%positive = c1 -> (b ?= c)%positive = c2 -> c1 <> Gt -> c2 <> Gt ->
(a ?= c)%positive = comb c1 c2.
Proof.
intros H1 H2 N1 N2. subst.
destruct (Pos.compare_spec a b), (Pos.compare_spec b c); simpl; try congruence;
  try (apply Pos.compare_eq_iff; lia); try (apply Pos.compare_lt_iff; lia).
Qed.

Lemma lex_compare_trans e1 m1 e2 m2 e3 m3 c1 c2 :
lex_compare e1 m1 e2 m2 = c1 -> lex_compare e2 m2 e3 m3 = c2 ->
c1 <> Gt -> c2 <> Gt -> lex_compare e1 m1 e3 m3 = comb c1 c2.
Proof.
unfold lex_compare. change (Pos.compare_cont Eq) with Pos.compare.
intros H1 H2 N1 N2.
destruct (e1 ?= e2) eqn:E12; [| |congruence];
  destruct (e2 ?= e3) eqn:E23; try congruence;
  rewrite (Z_compare_trans _ _ _ _ _ E12 E23) by congruence; simpl.
- apply (Pos_compare_trans m1 m2 m3); assumption.
- subst. destruct (m1 ?= m2)%positive; simpl; congruence.
- subst. reflexivity.
- subst. reflexivity.
Qed.

Lemma lex_compare_antisym e1 m1 e2 m2 :
lex_compare e2 m2 e1 m1 = CompOpp (lex_compare e1 m1 e2 m2).
Proof.
unfold lex_compare. change (Pos.compare_cont Eq) with Pos.compare.
rewrite (Z.compare_antisym e1 e2). destruct (e1 ?= e2); simpl; auto.
apply Pos.compare_antisym.
Qed.

Lemma SFcompare_finite s1 m1 e1 s2 m2 e2 :
SFcompare (S754_finite s1 m1 e1) (S754_finite s2 m2 e2) =
Some (match s1, s2 with
      | true, false => Lt
      | false, true => Gt
      | false, false => lex_compare e1 m1 e2 m2
      | true, true => lex_compare e2 m2 e1 m1
      end).
Proof.
destruct s1, s2; simpl; try reflexivity.
rewrite lex_compare_antisym. unfold lex_compare.
destruct (e1 ?= e2); reflexivity.
Qed.

Lemma SFcompare_trans x y z c1 c2 :
SFcompare x y = Some c1 -> SFcompare y z = Some c2 -> c1 <> Gt -> c2 <> Gt ->
SFcompare x z = Some (comb c1 c2).
Proof.
assert (Hlex : forall e1 m1 e2 m2 e3 m3,
           lex_compare e1 m1 e2 m2 <> Gt -> lex_compare e2 m2 e3 m3 <> Gt ->
           lex_compare e1 m1 e3 m3 = comb (lex_compare e1 m1 e2 m2) (lex_compare e2 m2 e3 m3)).
{ intros. eapply lex_compare_trans; eauto. }
destruct x as [sx|sx| |sx mx ex], y as [sy|sy| |sy my ey], z as [sz|sz| |sz mz ez];
  rewrite ?SFcompare_finite; intros H1 H2 N1 N2; try discriminate;
  try destruct sx; try destruct sy; try destruct sz; simpl in H1, H2; simpl;
  injection H1 as <-; injection H2 as <-; simpl in *; try congruence;
  f_equal;
  try (match goal with |- Lt = comb ?c Lt => destruct c; simpl in *; congruence end).
- rewrite (Hlex ez mz ey my ex mx) by assumption.
  destruct (lex_compare ez mz ey my), (lex_compare ey my ex mx); simpl in *; congruence.
- apply Hlex; assumption.
Qed.

Lemma SFcompare_antisym x y :
SFcompare y x = option_map CompOpp (SFcompare x y).
Proof.
destruct x as [sx|sx| |sx mx ex], y as [sy|sy| |sy my ey];
  rewrite ?SFcompare_finite; try destruct sx; try destruct sy; simpl; try reflexivity;
  rewrite (lex_compare_antisym ex mx ey my); destruct (lex_compare ex mx ey my); reflexivity.
Qed.


Lemma ltb_fcompare x y : (x <? y)%float = true <-> fcompare x y = Some Lt.
Proof.
rewrite ltb_spec. unfold SFltb, fcompare.
destruct (SFcompare (Prim2SF x) (Prim2SF y)) as [[| |]|]; split; congruence.
Qed.

Lemma eqb_fcompare x y : (x =? y)%float = true <-> fcompare x y = Some Eq.
Proof.
rewrite FloatAxioms.eqb_spec. unfold SFeqb, fcompare.
destruct (SFcompare (Prim2SF x) (Prim2SF y)) as [[| |]|]; split; congruence.
Qed.

Lemma fcompare_trans x y z c1 c2 :
fcompare x y = Some c1 -> fcompare y z = Some c2 -> c1 <> Gt -> c2 <> Gt ->
fcompare x z = Some (comb c1 c2).
Proof. apply SFcompare_trans. Qed.

Lemma fcompare_antisym x y : fcompare y x = option_map CompOpp (fcompare x y).
Proof. apply SFcompare_antisym. Qed.

Lemma fcompare_total x y :
(x =? x)%float = true -> (y =? y)%float = true -> exists c, fcompare x y = Some c.
Proof.
rewrite !eqb_fcompare. unfold fcompare.
destruct (Prim2SF x) as [sx|sx| |sx mx ex], (Prim2SF y) as [sy|sy| |sy my ey];
  rewrite ?SFcompare_finite; simpl; intros; try discriminate; eauto.
Qed.

Lemma ltb_trans x y z :
(x <? y)%float = true -> (y <? z)%float = true -> (x <? z)%float = true.
Proof.
rewrite !ltb_fcompare. intros H1 H2.
apply (fcompare_trans _ _ _ _ _ H1 H2); discriminate.
Qed.

Lemma ltb_eqb_false x y : (x <? y)%float = true -> (y =? x)%float = false.
Proof.
rewrite ltb_fcompare. intros H.
destruct (y =? x)%float eqn:E; [|reflexivity].
apply eqb_fcompare in E. rewrite fcompare_antisym, H in E. discriminate.
Qed.








(** *** Upper bounds on magnitudes *)

Lemma Zdigits2_le m k : 0 <= m -> 0 <= k -> m < 2 ^ k -> Zdigits2 m <= k.
Proof.
intros Hm Hk H. destruct (Z.eq_dec m 0) as [->|Hz]; [simpl; lia|].
rewrite Zdigits2_log2 by lia.
assert (Z.log2 m < k) by (apply Z.log2_lt_pow2; lia). lia.
Qed.

Lemma Zdigits2_gt m : 0 <= m -> m < 2 ^ Zdigits2 m.
Proof.
intros Hm. destruct (Z.eq_dec m 0) as [->|Hz]; [simpl; lia|].
rewrite Zdigits2_log2 by lia. replace (Z.log2 m + 1) with (Z.succ (Z.log2 m)) by lia.
apply Z.log2_spec. lia.
Qed.

Lemma Zdigits2_low m : 0 < m -> 2 ^ (Zdigits2 m - 1) <= m.
Proof.
intros. rewrite Zdigits2_log2 by lia.
replace (Z.log2 m + 1 - 1) with (Z.log2 m) by lia. apply Z.log2_spec. lia.
Qed.

Lemma shr_fexp_below m e l G :
0 <= m -> e <= G -> m < 2 ^ (G - e) -> emin <= G ->
0 <= shr_m (fst (shr_fexp prec emax m e l)) /\
snd (shr_fexp prec emax m e l) <= G /\
shr_m (fst (shr_fexp prec emax m e l)) < 2 ^ (G - snd (shr_fexp prec emax m e l)) /\
snd (shr_fexp prec emax m e l) <= Z.max e (Z.max (G - prec) emin).
Proof.
intros Hm He Hlt HG. unfold shr_fexp, shr.
assert (Hd : Zdigits2 m <= G - e) by (apply Zdigits2_le; lia).
set (n := fexp prec emax (Zdigits2 m + e) - e).
assert (Hn : e + n <= Z.max (G - prec) emin) by (subst n; unfold fexp; lia).
destruct n as [|p|p] eqn:En; simpl fst; simpl snd; rewrite ?shr_record_of_loc_m;
  try (split_and!; lia).
rewrite iter_pos_shr_m by (rewrite shr_record_of_loc_m; lia).
rewrite shr_record_of_loc_m.
assert (Hp : 0 < 2 ^ Z.pos p) by (apply Z.pow_pos_nonneg; lia).
assert (HeG : e + Z.pos p <= G) by (unfold prec, emax, SpecFloat.emin in *; lia).
split_and!; try lia.
- apply Z.div_pos; lia.
- apply Z.div_lt_upper_bound; [lia|].
  rewrite <- Z.pow_add_r by lia.
  replace (Z.pos p + (G - (e + Z.pos p))) with (G - e) by lia. exact Hlt.
Qed.

Lemma binary_round_aux_below s m e l G :
0 <= m -> e <= G -> m < 2 ^ (G - e) -> emin <= G -> G <= emax - 1 -> e <= emax - prec ->
below (G + 1) (binary_round_aux prec emax s m e l).
Proof.
intros Hm He Hlt HG HG' He'. unfold binary_round_aux.
pose proof (shr_fexp_below m e l G Hm He Hlt HG) as H1.
destruct (shr_fexp prec emax m e l) as [mrs' e1]. simpl fst in H1; simpl snd in H1.
destruct H1 as (H1a & H1b & H1c & H1d).
set (m2 := round_nearest_even (shr_m mrs') (loc_of_shr_record mrs')).
assert (Hm2 : shr_m mrs' <= m2 <= shr_m mrs' + 1).
{ subst m2. destruct (loc_of_shr_record mrs') as [|[]]; simpl; try lia.
  destruct (Z.even _); lia. }
assert (Hm2lt : m2 < 2 ^ (G + 1 - e1)).
{ replace (G + 1 - e1) with (Z.succ (G - e1)) by lia. rewrite Z.pow_succ_r by lia.
  pose proof (Z.pow_pos_nonneg 2 (G - e1) ltac:(lia) ltac:(lia)). lia. }
pose proof (shr_fexp_below m2 e1 loc_Exact (G + 1) ltac:(lia) ltac:(lia) Hm2lt ltac:(lia)) as H2.
destruct (shr_fexp prec emax m2 e1 loc_Exact) as [mrs'' e2].
simpl fst in H2; simpl snd in H2.
destruct H2 as (H2a & H2b & H2c & H2d).
destruct (shr_m mrs'') as [|p|p] eqn:E; [exact I| |lia].
assert (He2 : e2 <= emax - prec) by (unfold prec, emax, SpecFloat.emin in *; lia).
rewrite (proj2 (Z.leb_le _ _) He2). simpl. unfold magnitude.
pose proof (Zdigits2_le (Z.pos p) (G + 1 - e2) ltac:(lia) ltac:(lia) H2c). lia.
Qed.

Lemma valid_finite_cases s m e :
valid_binary (S754_finite s m e) = true ->
e <= emax - prec /\ emin <= e /\ Zdigits2 (Z.pos m) <= prec /\
(e = emin \/ Zdigits2 (Z.pos m) = prec).
Proof.
unfold SpecFloat.valid_binary, bounded, canonical_mantissa, Zdigits2.
intros Hv. apply andb_prop in Hv. destruct Hv as [Hc Hb].
apply Z.eqb_eq in Hc. apply Z.leb_le in Hb. unfold fexp in Hc. lia.
Qed.

Lemma magnitude_pos m e : e < magnitude m e.
Proof.
unfold magnitude. rewrite Zdigits2_log2 by lia.
pose proof (Z.log2_nonneg (Z.pos m)). lia.
Qed.

Lemma SFmul_below x y gx gy :
valid_binary x = true -> valid_binary y = true -> below gx x -> below gy y ->
emin <= gx + gy -> gx + gy <= emax - 1 ->
below (gx + gy + 1) (SFmul prec emax x y).
Proof.
destruct x as [sx|sx| |sx mx ex], y as [sy|sy| |sy my ey]; simpl; try tauto.
intros Hvx Hvy Hx Hy HG HG'.
pose proof (magnitude_pos mx ex). pose proof (magnitude_pos my ey).
apply (valid_finite_cases sx) in Hvx. apply (valid_finite_cases sy) in Hvy.
unfold magnitude in *.
apply binary_round_aux_below; try lia.
- rewrite Pos2Z.inj_mul.
  pose proof (Zdigits2_gt (Z.pos mx) ltac:(lia)) as H1.
  pose proof (Zdigits2_gt (Z.pos my) ltac:(lia)) as H2.
  apply Z.lt_le_trans with (2 ^ (Zdigits2 (Z.pos mx) + Zdigits2 (Z.pos my))).
  + rewrite Z.pow_add_r by (rewrite Zdigits2_log2 by lia;
                             pose proof (Z.log2_nonneg (Z.pos mx));
                             pose proof (Z.log2_nonneg (Z.pos my)); lia).
    apply Z.mul_lt_mono_nonneg; lia.
  + apply Z.pow_le_mono_r; lia.
- unfold prec, emax, SpecFloat.emin in *. lia.
Qed.

Lemma SFdiv_below x y gx gy :
below gx x -> above gy y -> emin <= gx - gy + 1 -> gx - gy + 1 <= emax - 1 ->
below (gx - gy + 2) (SFdiv prec emax x y).
Proof.
destruct x as [sx|sx| |sx mx ex], y as [sy|sy| |sy my ey]; simpl; try tauto;
  try (destruct sy; tauto).
destruct sy; [tauto|]. intros Hx Hy HG HG'.
unfold SFdiv_core_binary.
set (d1 := Zdigits2 (Z.pos mx)). set (d2 := Zdigits2 (Z.pos my)).
set (e' := Z.min (fexp prec emax (d1 + ex - (d2 + ey))) (ex - ey)).
set (sh := ex - ey - e').
set (m' := match sh with 0 => Z.pos mx | Z.pos _ => Z.shiftl (Z.pos mx) sh | Z.neg _ => 0 end).
unfold magnitude in *. fold d1 in Hx. fold d2 in Hy.
assert (Hsh : 0 <= sh) by (subst sh e'; lia).
assert (Hm' : m' = Z.pos mx * 2 ^ sh).
{ subst m'. destruct sh as [|p|p] eqn:E; try lia.
  rewrite Z.shiftl_mul_pow2 by lia. reflexivity. }
assert (Hd1 : 1 <= d1) by (subst d1; rewrite Zdigits2_log2 by lia;
                           pose proof (Z.log2_nonneg (Z.pos mx)); lia).
assert (Hd2 : 1 <= d2) by (subst d2; rewrite Zdigits2_log2 by lia;
                           pose proof (Z.log2_nonneg (Z.pos my)); lia).
assert (He'G : e' <= gx - gy + 1)
  by (subst e'; unfold fexp, prec, emax, SpecFloat.emin in *; lia).
assert (Hq : fst (Z.div_eucl m' (Z.pos my)) = m' / Z.pos my) by reflexivity.
destruct (Z.div_eucl m' (Z.pos my)) as [q r]. simpl in Hq. subst q.
assert (Hps : 0 < 2 ^ sh) by (apply Z.pow_pos_nonneg; lia).
replace (gx - gy + 2) with (gx - gy + 1 + 1) by lia.
apply binary_round_aux_below; try lia.
- apply Z.div_pos; lia.
- apply Z.div_lt_upper_bound; [lia|].
  pose proof (Zdigits2_gt (Z.pos mx) ltac:(lia)) as H1. fold d1 in H1.
  pose proof (Zdigits2_low (Z.pos my) ltac:(lia)) as H2. fold d2 in H2.
  apply Z.lt_le_trans with (2 ^ (d1 + sh)).
  + rewrite Hm', Z.pow_add_r by lia. apply Z.mul_lt_mono_pos_r; lia.
  + apply Z.le_trans with (2 ^ (d2 - 1) * 2 ^ (gx - gy + 1 - e')).
    * rewrite <- Z.pow_add_r by lia. apply Z.pow_le_mono_r; lia.
    * apply Z.mul_le_mono_nonneg_r; [apply Z.pow_nonneg; lia|exact H2].
- subst e'. unfold fexp, prec, emax, SpecFloat.emin in *. lia.
Qed.

Lemma SFopp_below g x : below g x -> below g (SFopp x).
Proof. destruct x; simpl; auto. Qed.


Lemma one_finite : Prim2SF 1 = S754_finite false one_m (-52).
Proof. reflexivity. Qed.

Lemma one_m_value : Z.pos one_m = 2 ^ 52.
Proof. reflexivity. Qed.

Lemma le_one_below x :
valid_binary x = true -> SFleb (S754_zero false) x = true -> SFltb (Prim2SF 1) x = false ->
below 1 x.
Proof.
rewrite one_finite. generalize one_m_value. generalize one_m. intros om Hom.
destruct x as [s|s| |s m e]; intros Hv H0 H1; try exact I; try discriminate.
- destruct s; discriminate.
- destruct s; [discriminate|].
  apply (valid_finite_cases false) in Hv. unfold SFltb in H1.
  rewrite SFcompare_finite in H1. unfold lex_compare in H1.
  change (Pos.compare_cont Eq) with Pos.compare in H1.
  unfold below, magnitude. unfold prec, emax, SpecFloat.emin in Hv.
  destruct (Z.compare_spec (-52) e) as [He|He|He]; try discriminate; [|lia].
  destruct (Pos.compare_spec om m) as [Hm|Hm|Hm]; try discriminate;
    (assert (Zdigits2 (Z.pos m) <= 53); [|lia]); apply Zdigits2_le; lia.
Qed.

Lemma ge_one_above x :
valid_binary x = true -> SFleb (Prim2SF 1) x = true -> above 1 x.
Proof.
rewrite one_finite. generalize one_m_value. generalize one_m. intros om Hom.
destruct x as [s|s| |s m e]; intros Hv H1; try discriminate.
- destruct s; [discriminate|exact I].
- destruct s; [discriminate|].
  apply (valid_finite_cases false) in Hv. unfold SFleb in H1.
  rewrite SFcompare_finite in H1. unfold lex_compare in H1.
  change (Pos.compare_cont Eq) with Pos.compare in H1.
  unfold above, magnitude. unfold prec, emax, SpecFloat.emin in Hv.
  destruct (Z.compare_spec (-52) e) as [He|He|He]; try discriminate; [|lia].
  assert (52 < Zdigits2 (Z.pos m)); [|lia].
  pose proof (Zdigits2_gt (Z.pos m) ltac:(lia)) as Hd.
  assert (Hle : 2 ^ 52 <= Z.pos m).
  { destruct (Pos.compare_spec om m) as [Hm|Hm|Hm]; try discriminate; lia. }
  apply (Z.pow_lt_mono_r_iff 2); [lia| |lia].
  rewrite Zdigits2_log2 by lia. pose proof (Z.log2_nonneg (Z.pos m)). lia.
Qed.

Lemma belowb_below g x : belowb g x = true -> below g x.
Proof. destruct x; simpl; try discriminate; auto. apply Z.leb_le. Qed.

Lemma below_mono g g' x : g <= g' -> below g x -> below g' x.
Proof. destruct x; simpl; auto. lia. Qed.

Lemma below_to_int x : below (emax) (Prim2SF x) -> exists n, PyFloat.to_int x = Ok n.
Proof. unfold PyFloat.to_int. destruct (Prim2SF x); simpl; try tauto; eauto. Qed.

Lemma above_nonzero x : above 1 (Prim2SF x) -> (x =? 0)%float = false.
Proof.
intros H. apply eqb_zero_nonzero. destruct (Prim2SF x); simpl in *; auto.
Qed.

Lemma score_below s :
(0 <=? s)%float = true -> (1 <? s)%float = false -> below 1 (Prim2SF s).
Proof.
rewrite FloatAxioms.leb_spec, FloatAxioms.ltb_spec. change (Prim2SF 0) with (S754_zero false).
apply le_one_below, Prim2SF_valid.
Qed.

Lemma mul_below x y gx gy :
below gx (Prim2SF x) -> below gy (Prim2SF y) ->
emin <= gx + gy -> gx + gy <= emax - 1 -> below (gx + gy + 1) (Prim2SF (x * y)).
Proof. rewrite mul_spec. apply SFmul_below; apply Prim2SF_valid. Qed.

Lemma div_below x y gx gy :
below gx (Prim2SF x) -> above gy (Prim2SF y) ->
emin <= gx - gy + 1 -> gx - gy + 1 <= emax - 1 -> below (gx - gy + 2) (Prim2SF (x / y)).
Proof. rewrite div_spec. apply SFdiv_below. Qed.

Lemma opp_below x g : below g (Prim2SF x) -> below g (Prim2SF (- x)).
Proof. rewrite opp_spec. apply SFopp_below. Qed.

(** The fan-out is computed for a score of [0, 1] and a logarithm of at
    least 1. *)
Lemma fan_out_ok self base least result score :
below 5 (Prim2SF base) ->
(1 <=? math_log2 self (len result + 1))%float = true ->
(0 <=? score)%float = true -> (1 <? score)%float = false ->
exists n, fan_out self base least result (- score * -1)%float = Ok n.
Proof.
intros Hb Hl H0 H1. unfold fan_out, PyFloat.truediv.
assert (Ha : above 1 (Prim2SF (math_log2 self (len result + 1)))).
{ apply ge_one_above; [apply Prim2SF_valid|]. rewrite <- FloatAxioms.leb_spec. exact Hl. }
rewrite (above_nonzero _ Ha). simpl.
pose proof (div_below _ _ 5 1 Hb Ha ltac:(unfold SpecFloat.emin, prec, emax; lia)
              ltac:(unfold emax; lia)) as Hq.
pose proof (opp_below _ _ (score_below _ H0 H1)) as Hs.
assert (Hm1 : below 1 (Prim2SF (-1))) by (apply belowb_below; vm_compute; reflexivity).
pose proof (mul_below _ _ 1 1 Hs Hm1 ltac:(unfold SpecFloat.emin, prec, emax; lia)
              ltac:(unfold emax; lia)) as Hs'.
pose proof (mul_below _ _ (5 - 1 + 2) (1 + 1 + 1) Hq Hs' ltac:(unfold SpecFloat.emin, prec, emax; lia)
              ltac:(unfold emax; lia)) as Hp.
destruct (below_to_int _ (below_mono (5 - 1 + 2 + (1 + 1 + 1) + 1) emax _
                             ltac:(unfold emax; lia) Hp)) as [n ->].
simpl. eauto.
Qed.

(** The fan-out never stops for lack of fuel, and divides by zero only when the logarithm is 0. *)
Lemma fan_out_cases self base least result score :
match fan_out self base least result score with
| Ok n => least <= n
| Raise ZeroDivisionError => (math_log2 self (len result + 1) =? 0)%float = true
| Raise _ => True
| OutOfFuel => False
end.
Proof.
unfold fan_out, PyFloat.truediv, PyFloat.to_int.
destruct (math_log2 self (len result + 1) =? 0)%float; simpl; [reflexivity|].
destruct (Prim2SF _); simpl; auto; lia.
Qed.

Lemma pow2_cases x :
PyFloat.pow2 x = Ok (x * x)%float \/ PyFloat.pow2 x = Raise OverflowError.
Proof.
unfold PyFloat.pow2. destruct (Prim2SF x); auto. destruct (Prim2SF (x * x)); auto.
Qed.

Lemma pow2_ok x : below 511 (Prim2SF x) -> PyFloat.pow2 x = Ok (x * x)%float.
Proof.
intros H. unfold PyFloat.pow2.
pose proof (mul_below x x 511 511 H H ltac:(unfold SpecFloat.emin, prec, emax; lia)
              ltac:(unfold emax; lia)) as Hsq.
destruct (Prim2SF x); auto. destruct (Prim2SF (x * x)); simpl in *; tauto.
Qed.

Lemma shl_align_value mx ex ex' :
let '(mz, ez) := shl_align mx ex ex' in
ez <= ex /\ Z.pos mz = Z.pos mx * 2 ^ (ex - ez).
Proof.
unfold shl_align. destruct (ex' - ex) as [|d|d] eqn:E.
- rewrite Z.sub_diag, Z.pow_0_r. lia.
- rewrite Z.sub_diag, Z.pow_0_r. lia.
- change (Pos.iter xO mx d) with (shift_pos d mx). rewrite shift_pos_correct.
  replace (ex - ex') with (Z.pos d) by lia.
  change (Z.pow_pos 2 d) with (2 ^ Z.pos d). lia.
Qed.

Lemma binary_round_below s p g :
Z.pos p < 2 ^ g -> 0 <= g -> g <= emax - 1 ->
below (g + 1) (binary_round prec emax s p 0).
Proof.
intros Hp Hg Hg'. unfold binary_round.
pose proof (shl_align_value p 0 (fexp prec emax (Z.pos (digits2_pos p) + 0))) as H.
destruct (shl_align p 0 _) as [mz ez]. destruct H as [Hez Hmz].
apply binary_round_aux_below; try lia.
- rewrite Hmz. replace (0 - ez) with (- ez) by lia. replace (g - ez) with (g + - ez) by lia.
  rewrite Z.pow_add_r by lia. apply Z.mul_lt_mono_pos_r; [apply Z.pow_pos_nonneg; lia|exact Hp].
- unfold SpecFloat.emin, prec, emax. lia.
- unfold prec, emax. lia.
Qed.

Lemma binary_round_aux_opp s m e l :
binary_round_aux prec emax (negb s) m e l = SFopp (binary_round_aux prec emax s m e l).
Proof.
unfold binary_round_aux.
destruct (shr_fexp prec emax m e l) as [mrs' e'].
destruct (shr_fexp prec emax _ e' loc_Exact) as [mrs'' e''].
destruct (shr_m mrs''); try reflexivity. destruct (e'' <=? emax - prec); reflexivity.
Qed.

Lemma binary_round_opp p e :
binary_round prec emax true p e = SFopp (binary_round prec emax false p e).
Proof.
unfold binary_round. destruct (shl_align p e _) as [mz ez].
apply (binary_round_aux_opp false).
Qed.

Lemma of_int_prim n c g :
binary_normalize prec emax n 0 false = Prim2SF c -> below g (Prim2SF c) ->
PyFloat.of_int n = Ok c.
Proof.
intros He Hb. unfold PyFloat.of_int. rewrite He.
pose proof (SF2Prim_Prim2SF c) as Hc.
destruct (Prim2SF c); simpl in Hb; try tauto; rewrite Hc; reflexivity.
Qed.

(** The conversion of an integer of 63 bits. *)
Lemma of_int_ok n :
- 2 ^ 63 < n < 2 ^ 63 ->
exists x, PyFloat.of_int n = Ok x /\ below 64 (Prim2SF x).
Proof.
intros Hn.
assert (Hpos : forall p, Z.pos p < 2 ^ 63 ->
          binary_round prec emax false p 0 = Prim2SF (of_uint63 (Uint63.of_Z (Z.pos p))) /\
          below 64 (binary_round prec emax false p 0)).
{ intros p Hp. split.
  - rewrite of_uint63_spec, Uint63.of_Z_spec. rewrite Z.mod_small; [reflexivity|].
    change Uint63.wB with (2 ^ 63). lia.
  - apply (binary_round_below false p 63); [exact Hp|lia|unfold emax; lia]. }
destruct n as [|p|p].
- exists 0%float. split; reflexivity.
- destruct (Hpos p ltac:(lia)) as [He Hb]. rewrite He in Hb.
  exists (of_uint63 (Uint63.of_Z (Z.pos p))). split; [|exact Hb].
  apply (of_int_prim _ _ 64); [exact He|exact Hb].
- destruct (Hpos p ltac:(lia)) as [He Hb]. rewrite He in Hb.
  pose proof (opp_below _ _ Hb) as Hb'.
  exists (- of_uint63 (Uint63.of_Z (Z.pos p)))%float. split; [|exact Hb'].
  apply (of_int_prim _ _ 64); [|exact Hb'].
  simpl binary_normalize. rewrite binary_round_opp, He, opp_spec. reflexivity.
Qed.

Lemma working_capacity_ok capacity :
- 2 ^ 63 < capacity < 2 ^ 63 -> exists n, working_capacity capacity = Ok n /\ 100 <= n.
Proof.
intros Hc. unfold working_capacity.
destruct (of_int_ok capacity Hc) as [x [-> Hx]]. simpl.
assert (H12 : below 1 (Prim2SF 1.2)) by (apply belowb_below; vm_compute; reflexivity).
pose proof (mul_below _ _ 64 1 Hx H12 ltac:(unfold SpecFloat.emin, prec, emax; lia)
              ltac:(unfold emax; lia)) as Hp.
destruct (below_to_int _ (below_mono (64 + 1 + 1) emax _
                             ltac:(unfold emax; lia) Hp)) as [n ->].
simpl. eexists. split; [reflexivity|lia].
Qed.

End FloatFacts.

(** ** Feature extraction and similarity never divide by zero *)

Section FeatureFacts.
Variable self : UnionSearcher.
Import FloatFacts.

Lemma max_positive a b :
  (0 <? a)%float = true -> (0 <? PyFloat.max a b)%float = true.
Proof.
  intros Ha. unfold PyFloat.max. destruct (a <? b)%float eqn:E; [|exact Ha].
  exact (ltb_trans _ _ _ Ha E).
Qed.

Lemma pos_loop_max_positive items : forall pos_features pos_score pos_score_max,
  (0 <? pos_score_max)%float = true ->
  (0 <? snd (pos_loop items pos_features pos_score pos_score_max))%float = true.
Proof.
  induction items as [|item rest IH]; intros pf ps psm H; simpl; [exact H|].
  apply IH. apply max_positive. exact H.
Qed.

(** After one sense item the running maximum is at least the first score,
    1.0. *)
Lemma pos_loop_positive item rest :
  (0 <? snd (pos_loop (item :: rest) [] 1 0))%float = true.
Proof. simpl. apply pos_loop_max_positive. reflexivity. Qed.

Lemma pos_normalize_total pos_items pos_score_max : forall features,
  (pos_score_max =? 0)%float = false ->
  exists features', pos_normalize pos_items pos_score_max features = Ok features'.
Proof.
  induction pos_items as [|[pos s] rest IH]; intros features H; simpl; [eauto|].
  unfold PyFloat.truediv. rewrite H. simpl. apply IH. exact H.
Qed.

Lemma GetFeatures_pos_total entry :
  let '(pos_features, pos_score_max) := pos_loop (e_item entry) [] 1%float 0%float in
  forall features,
  exists features', pos_normalize pos_features pos_score_max features = Ok features'.
Proof.
  destruct (e_item entry) as [|item rest] eqn:E.
  - simpl. intros. eauto.
  - pose proof (pos_loop_positive item rest) as H.
    destruct (pos_loop (item :: rest) [] 1 0) as [pf psm]. simpl in H.
    intros. apply pos_normalize_total. apply ltb_eqb_false. exact H.
Qed.

Lemma GetFeatures_total entry :
  exists features, GetFeatures self entry = Ok features.
Proof.
  unfold GetFeatures. pose proof (GetFeatures_pos_total entry) as H.
  destruct (pos_loop (e_item entry) [] 1 0) as [pf psm].
  destruct (H [(NormalizeWord self (e_word entry), 1%float)]) as [f0 ->]. simpl.
  destruct (token_pass _ _ f0 1) as [f1 s1].
  destruct (token_pass _ _ f1 s1) as [f2 s2].
  destruct (token_pass _ _ f2 s2) as [f3 s3]. eauto.
Qed.

Lemma similarity_loop_cases seed_items cand : forall product seed_norm cand_norm,
  SF.nonneg (Prim2SF seed_norm) -> SF.nonneg (Prim2SF cand_norm) ->
  match similarity_loop seed_items cand product seed_norm cand_norm with
  | Ok (_, sn, cn) => SF.nonneg (Prim2SF sn) /\ SF.nonneg (Prim2SF cn)
  | Raise e => e = OverflowError
  | OutOfFuel => False
  end.
Proof.
  induction seed_items as [|[w s] rest IH]; intros p sn cn Hs Hc; simpl; [auto|].
  destruct (pow2_cases s) as [-> | ->]; simpl; [|reflexivity].
  destruct (pow2_cases (PyFloat.or_zero (dict_get cand w))) as [-> | ->]; simpl;
    [|reflexivity].
  apply IH; apply add_nonneg; auto; apply square_nonneg.
Qed.

(** The result, read off the three accumulators. *)
Lemma GetSimilarity_unfold seed_features cand_features product seed_norm cand_norm :
  similarity_loop seed_features cand_features 0%float 0%float 0%float
    = Ok (product, seed_norm, cand_norm) ->
  SF.nonneg (Prim2SF seed_norm) /\ SF.nonneg (Prim2SF cand_norm) /\
  GetSimilarity seed_features cand_features =
    if (cand_norm =? 0)%float || (seed_norm =? 0)%float then Ok 0%float
    else
      let q := (product / (sqrt seed_norm * sqrt cand_norm))%float in
      let score := PyFloat.min q 1%float in
      Ok (if (0.99999 <=? score)%float then 1%float else score).
Proof.
  intros Hloop. unfold GetSimilarity.
  pose proof (similarity_loop_cases seed_features cand_features 0 0 0 I I) as H.
  rewrite Hloop in *. simpl. destruct H as [Hs Hc]. split; [exact Hs|]. split; [exact Hc|].
  destruct (cand_norm =? 0)%float eqn:Ec; simpl; [reflexivity|].
  destruct (seed_norm =? 0)%float eqn:Es; simpl; [reflexivity|].
  unfold PyFloat.truediv, PyFloat.pow_half.
  rewrite (sqrt_product_nonzero seed_norm cand_norm Hs Hc Es Ec). reflexivity.
Qed.

(** [GetSimilarity] returns, or raises for a square that overflows. *)
Lemma GetSimilarity_cases seed_features cand_features :
  match GetSimilarity seed_features cand_features with
  | Ok _ => True
  | Raise e => e = OverflowError
  | OutOfFuel => False
  end.
Proof.
  pose proof (similarity_loop_cases seed_features cand_features 0 0 0 I I) as H.
  destruct (similarity_loop seed_features cand_features 0 0 0) as [[[p sn] cn]|e|] eqn:E.
  - destruct (GetSimilarity_unfold _ _ _ _ _ E) as [_ [_ ->]].
    destruct (_ || _); exact I.
  - unfold GetSimilarity. rewrite E. exact H.
  - contradiction.
Qed.
Lemma GetSimilarity_at_most_one seed_features cand_features score :
  GetSimilarity seed_features cand_features = Ok score -> (1 <? score)%float = false.
Proof.
  intros Hs.
  pose proof (similarity_loop_cases seed_features cand_features 0 0 0 I I) as H.
  destruct (similarity_loop seed_features cand_features 0 0 0) as [[[p sn] cn]|e|] eqn:E.
  - destruct (GetSimilarity_unfold _ _ _ _ _ E) as [_ [_ Hg]]. rewrite Hg in Hs.
    destruct ((cn =? 0)%float || (sn =? 0)%float); [injection Hs as <-; reflexivity|].
    cbv zeta in Hs. unfold PyFloat.min in Hs.
    destruct (1 <? p / (sqrt sn * sqrt cn))%float eqn:E1.
    + injection Hs as <-. reflexivity.
    + destruct (0.99999 <=? p / (sqrt sn * sqrt cn))%float; injection Hs as <-;
        [reflexivity|exact E1].
  - unfold GetSimilarity in Hs. rewrite E in Hs. discriminate.
  - contradiction.
Qed.

(** The score of an entry is computed, or a square overflows. *)
Lemma similarity_cases seed_features entry :
  match similarity self seed_features entry with
  | Ok score => (1 <? score)%float = false
  | Raise e => e = OverflowError
  | OutOfFuel => False
  end.
Proof.
  unfold similarity. destruct (GetFeatures_total entry) as [f ->]. simpl.
  pose proof (GetSimilarity_cases seed_features f) as H.
  destruct (GetSimilarity seed_features f) eqn:E; auto.
  apply (GetSimilarity_at_most_one _ _ _ E).
Qed.
End FeatureFacts.

(** ** Dictionaries *)

Section DictFacts.
Context {V : Type}.
Implicit Types (d : list (string * V)) (k : string) (v : V).

Lemma dict_get_set_eq d k v : dict_get (dict_set d k v) k = Some v.
Proof.
  induction d as [|[k' v'] d IH]; simpl.
  - rewrite String.eqb_refl. reflexivity.
  - destruct (String.eqb k' k) eqn:E; simpl; rewrite E; auto.
Qed.

Lemma dict_get_set_ne d k k' v : k <> k' -> dict_get (dict_set d k v) k' = dict_get d k'.
Proof.
  intros Hne. induction d as [|[k0 v0] d IH]; simpl.
  - apply String.eqb_neq in Hne. rewrite Hne. reflexivity.
  - destruct (String.eqb k0 k) eqn:E; simpl.
    + apply String.eqb_eq in E. subst k0.
      apply String.eqb_neq in Hne. rewrite Hne. reflexivity.
    + destruct (String.eqb k0 k'); auto.
Qed.

Lemma dict_get_keys d k : is_Some (dict_get d k) <-> k ∈ dict_keys d.
Proof.
  induction d as [|[k' v'] d IH]; simpl.
  - split; [intros [? ?]; discriminate|]. intros H. inversion H.
  - destruct (String.eqb k' k) eqn:E.
    + apply String.eqb_eq in E. subst. split; [intros; left|eauto].
    + apply String.eqb_neq in E. rewrite IH. split; [intros; right; auto|].
      intros H. inversion H; subst; [congruence|assumption].
Qed.

Lemma dict_mem_keys d k : dict_mem d k = true <-> k ∈ dict_keys d.
Proof.
  rewrite <- dict_get_keys. unfold dict_mem.
  destruct (dict_get d k); split; eauto; try discriminate. intros [? ?]; discriminate.
Qed.

Lemma dict_keys_set d k v x : x ∈ dict_keys (dict_set d k v) <-> x = k \/ x ∈ dict_keys d.
Proof.
  rewrite <- !dict_get_keys. destruct (decide (k = x)) as [->|Hne].
  - rewrite dict_get_set_eq. split; eauto.
  - rewrite dict_get_set_ne by assumption. split; [auto|]. intros [->|H]; [congruence|auto].
Qed.

End DictFacts.

(** ** The weights of the features *)

Section FeatureWeights.
Variable self : UnionSearcher.

Lemma token_pass_map norm words : forall features score,
  token_pass norm words features score = token_pass (fun w => w) (map norm words) features score.
Proof.
  induction words as [|w rest IH]; intros f s; simpl; [reflexivity|].
  destruct (dict_mem f (norm w)); apply IH.
Qed.

Lemma token_pass_app a b : forall features score,
  token_pass (fun w => w) (a ++ b) features score =
  let '(features', score') := token_pass (fun w => w) a features score in
  token_pass (fun w => w) b features' score'.
Proof.
  induction a as [|w rest IH]; intros f s; simpl; [reflexivity|].
  destruct (dict_mem f w); apply IH.
Qed.

Lemma token_pass_preserves tokens : forall features score t v,
  dict_get features t = Some v ->
  dict_get (fst (token_pass (fun w => w) tokens features score)) t = Some v.
Proof.
  induction tokens as [|w rest IH]; intros f s t v H; simpl; [exact H|].
  destruct (dict_mem f w) eqn:E; [apply IH; exact H|].
  apply IH. rewrite dict_get_set_ne; [exact H|].
  intros ->. unfold dict_mem in E. rewrite H in E. discriminate.
Qed.

(** The [k]-th new token of a pass gets [k] more decay steps than the
    score the pass started with. *)
Lemma token_pass_fresh tokens : forall features score seen,
  (forall x, x ∈ seen <-> x ∈ dict_keys features) ->
  forall k t, fresh_tokens seen tokens !! k = Some t ->
  dict_get (fst (token_pass (fun w => w) tokens features score)) t =
    Some (Nat.iter (S k) (fun s => (s * SCORE_DECAY)%float) score).
Proof.
  induction tokens as [|w rest IH]; intros f s seen Hseen k t Hk; simpl in *; [discriminate|].
  destruct (decide (w ∈ seen)) as [Hin|Hnin].
  - apply Hseen, dict_mem_keys in Hin. rewrite Hin. eapply IH; eauto.
  - assert (E : dict_mem f w = false).
    { destruct (dict_mem f w) eqn:E; [|reflexivity].
      apply dict_mem_keys, Hseen in E. contradiction. }
    rewrite E. destruct k as [|k]; simpl in Hk.
    + injection Hk as <-. apply token_pass_preserves. apply dict_get_set_eq.
    + rewrite Nat.iter_succ_r. eapply IH; [|exact Hk].
      intros x. rewrite dict_keys_set, elem_of_cons, Hseen. reflexivity.
Qed.

Lemma pos_loop_keys items : forall pos_features pos_score pos_score_max x,
  x ∈ dict_keys (fst (pos_loop items pos_features pos_score pos_score_max)) <->
  x ∈ dict_keys pos_features \/
  x ∈ map (fun item => String.append "__" (i_pos item)) items.
Proof.
  induction items as [|item rest IH]; intros pf ps psm x; simpl.
  - split; [auto|]. intros [H|H]; [exact H|inversion H].
  - rewrite IH, dict_keys_set, elem_of_cons. tauto.
Qed.

Lemma pos_normalize_keys pos_items pos_score_max : forall features features' x,
  pos_normalize pos_items pos_score_max features = Ok features' ->
  (x ∈ dict_keys features' <-> x ∈ dict_keys features \/ x ∈ dict_keys pos_items).
Proof.
  induction pos_items as [|[pos s] rest IH]; intros f f' x H; simpl in *.
  - injection H as <-. split; [auto|]. intros [H|H]; [exact H|inversion H].
  - destruct (PyFloat.truediv s pos_score_max) as [q| |]; simpl in H; try discriminate.
    rewrite (IH _ _ _ H), dict_keys_set, elem_of_cons. tauto.
Qed.

Lemma pos_normalize_preserves pos_items pos_score_max : forall features features' k v,
  pos_normalize pos_items pos_score_max features = Ok features' ->
  k ∉ dict_keys pos_items -> dict_get features k = Some v ->
  dict_get features' k = Some v.
Proof.
  induction pos_items as [|[pos s] rest IH]; intros f f' k v H Hk Hget; simpl in *.
  - injection H as <-. exact Hget.
  - destruct (PyFloat.truediv s pos_score_max) as [q| |]; simpl in H; try discriminate.
    apply not_elem_of_cons in Hk. destruct Hk as [Hne Hk].
    eapply IH; eauto. rewrite dict_get_set_ne by congruence. exact Hget.
Qed.

Lemma GetFeatures_weights_of entry :
  exists features,
    GetFeatures self entry = Ok features /\
    (NormalizeWord self (e_word entry) ∉ pos_tokens entry ->
     dict_get features (NormalizeWord self (e_word entry)) = Some 1%float) /\
    (forall k t,
       new_tokens self entry !! k = Some t ->
       dict_get features t = Some (decay_pow (S k))).
Proof.
  unfold GetFeatures.
  pose proof (GetFeatures_pos_total entry) as Htot.
  pose proof (pos_loop_keys (e_item entry) [] 1%float 0%float) as Hkeys.
  destruct (pos_loop (e_item entry) [] 1 0) as [pf psm]. simpl in Hkeys.
  destruct (Htot [(NormalizeWord self (e_word entry), 1%float)]) as [f0 Hf0]. rewrite Hf0. simpl.
  set (t1 := map (NormalizeWord self) (take 20 (py_list (e_related entry)))).
  set (t2 := map (fun tran => StripFeatureSuffix self (NormalizeWord self tran))
                 (take 20 (py_list (e_translation entry)))).
  set (t3 := map (NormalizeWord self) (take 20 (py_list (e_cooccurrence entry)))).
  rewrite (token_pass_map (NormalizeWord self)). fold t1.
  destruct (token_pass (fun w => w) t1 f0 1) as [f1 s1] eqn:E1.
  rewrite (token_pass_map (fun tran => StripFeatureSuffix self (NormalizeWord self tran))). fold t2.
  destruct (token_pass (fun w => w) t2 f1 s1) as [f2 s2] eqn:E2.
  rewrite (token_pass_map (NormalizeWord self)). fold t3.
  destruct (token_pass (fun w => w) t3 f2 s2) as [f3 s3] eqn:E3.
  exists f3. split; [reflexivity|].
  assert (Hf3 : f3 = fst (token_pass (fun w => w) (t1 ++ t2 ++ t3) f0 1%float)).
  { rewrite token_pass_app, E1, token_pass_app, E2, E3. reflexivity. }
  assert (Hpf : forall x, x ∈ dict_keys pf <-> x ∈ pos_tokens entry).
  { intros x. rewrite Hkeys. unfold pos_tokens. split; [|auto].
    intros [H|H]; [inversion H|exact H]. }
  split.
  - intros Hw. rewrite Hf3. apply token_pass_preserves.
    eapply pos_normalize_preserves; [exact Hf0| |].
    + rewrite Hpf. exact Hw.
    + simpl. rewrite String.eqb_refl. reflexivity.
  - intros k t Hk. rewrite Hf3. unfold decay_pow.
    eapply token_pass_fresh; [|exact Hk].
    intros x. rewrite (pos_normalize_keys _ _ _ _ x Hf0), Hpf. simpl.
    rewrite elem_of_cons, list_elem_of_singleton. tauto.
Qed.
End FeatureWeights.

(** ** The priority queue *)

Section HeapFacts.

Lemma heap_min_In rest : forall best, heap_min best rest ∈ best :: rest.
Proof.
  induction rest as [|c rest IH]; intros best; simpl; [left|].
  specialize (IH (if cand_lt c best then c else best)).
  apply elem_of_cons in IH. destruct IH as [->|IH].
  - destruct (cand_lt c best); [right; left|left].
  - right; right; exact IH.
Qed.

Lemma steps_inj (h : list Candidate) a b :
  NoDup (map c_steps h) -> a ∈ h -> b ∈ h -> c_steps a = c_steps b -> a = b.
Proof.
  induction h as [|x h IH]; simpl; intros Hnd Ha Hb Heq; [inversion Ha|].
  apply NoDup_cons in Hnd. destruct Hnd as [Hx Hnd].
  apply elem_of_cons in Ha, Hb.
  destruct Ha as [->|Ha], Hb as [->|Hb]; auto.
  - exfalso. apply Hx. rewrite Heq. apply list_elem_of_fmap. eauto.
  - exfalso. apply Hx. rewrite <- Heq. apply list_elem_of_fmap. eauto.
Qed.

Lemma heap_remove_perm (h : list Candidate) m :
  NoDup (map c_steps h) -> m ∈ h -> h ≡ₚ m :: heap_remove (c_steps m) h.
Proof.
  induction h as [|x h IH]; simpl; intros Hnd Hm; [inversion Hm|].
  destruct (c_steps x =? c_steps m) eqn:E.
  - apply Z.eqb_eq in E.
    assert (x = m) as ->; [|reflexivity].
    eapply (steps_inj (x :: h)); eauto. left.
  - apply Z.eqb_neq in E. apply NoDup_cons in Hnd. destruct Hnd as [Hx Hnd].
    apply elem_of_cons in Hm. destruct Hm as [->|Hm]; [congruence|].
    rewrite (IH Hnd Hm) at 1. apply Permutation_swap.
Qed.

(** [heappop] takes one candidate out of the heap. *)
Lemma heappop_perm h c rest :
  NoDup (map c_steps h) -> heappop h = Some (c, rest) -> h ≡ₚ c :: rest.
Proof.
  destruct h as [|x h]; simpl; [discriminate|]. intros Hnd Hpop.
  injection Hpop as <- <-.
  apply (heap_remove_perm (x :: h)); [exact Hnd|]. apply heap_min_In.
Qed.

Lemma heappop_nonempty h : h <> [] -> exists c rest, heappop h = Some (c, rest).
Proof. destruct h; [congruence|]. simpl. eauto. Qed.

Lemma heap_wf_perm h h' n : h ≡ₚ h' -> heap_wf h n -> heap_wf h' n.
Proof.
  intros Hp [Hnd Hb]. split.
  - rewrite <- Hp. exact Hnd.
  - rewrite <- Hp. exact Hb.
Qed.

Lemma heap_wf_tail c h n : heap_wf (c :: h) n -> heap_wf h n.
Proof.
  intros [Hnd Hb]. simpl in Hnd. apply NoDup_cons in Hnd.
  apply Forall_cons in Hb. split; tauto.
Qed.
End HeapFacts.

(** ** Outcomes *)

Section OutcomeFacts.
Context {A B : Type}.
Variable excuse : exn -> Prop.

Lemma bind_Ok (f : A -> res B) (a : A) : (Ok a ≫= f) = f a.
Proof. reflexivity. Qed.

Lemma outcome_bind (P : A -> Prop) (Q : B -> Prop) (r : res A) (f : A -> res B) :
  outcome excuse P r -> (forall a, P a -> outcome excuse Q (f a)) ->
  outcome excuse Q (r ≫= f).
Proof. destruct r; simpl; auto. Qed.

Lemma outcome_impl (P Q : A -> Prop) (r : res A) :
  (forall a, P a -> Q a) -> outcome excuse P r -> outcome excuse Q r.
Proof. destruct r; simpl; auto. Qed.

Lemma outcome_Ok (P : A -> Prop) (r : res A) (a : A) :
  outcome excuse P r -> r = Ok a -> P a.
Proof. intros H ->. exact H. Qed.

Lemma outcome_fuel (P : A -> Prop) (r : res A) : outcome excuse P r -> r <> OutOfFuel.
Proof. intros H ->. exact H. Qed.

Lemma outcome_raise (P : A -> Prop) (r : res A) (e : exn) :
  outcome excuse P r -> r = Raise e -> excuse e.
Proof. intros H ->. exact H. Qed.

Lemma outcome_returns (P : A -> Prop) (r : res A) :
  (forall e, ~ excuse e) -> outcome excuse P r -> exists a, r = Ok a /\ P a.
Proof.
  intros Hn. destruct r as [a|e|]; simpl; intros H; [eauto|destruct (Hn _ H)|contradiction].
Qed.
End OutcomeFacts.

Lemma log2_sane_nonzero self : log2_sane self -> log2_nonzero self.
Proof.
  intros Hl n Hn. apply FloatFacts.above_nonzero.
  apply FloatFacts.ge_one_above; [apply Prim2SF_valid|].
  rewrite <- FloatAxioms.leb_spec. apply Hl, Hn.
Qed.

Lemma tame_no_excuse self seed_features seed_entries :
  tame self seed_features seed_entries ->
  forall e, ~ excuse self seed_features seed_entries e.
Proof.
  intros [Hl Hs] e. pose proof (log2_sane_nonzero self Hl).
  destruct e; unfold excuse, tame; tauto.
Qed.

Lemma related_tame_no_excuse self seeds capacity :
  related_tame self seeds capacity -> forall e, ~ related_excuse self seeds capacity e.
Proof.
  intros Ht e. assert (Hl : log2_nonzero self).
  { destruct Ht as [_ [sf [_ [Hl _]]]]. apply log2_sane_nonzero, Hl. }
  destruct e; unfold related_excuse; tauto.
Qed.

Lemma outcome_excuse {A} (excuse1 excuse2 : exn -> Prop) (P : A -> Prop) (r : res A) :
  (forall e, excuse1 e -> excuse2 e) -> outcome excuse1 P r -> outcome excuse2 P r.
Proof. destruct r; simpl; auto. Qed.

(** ** The lookups return entries of the body database *)

Section StoreFacts.
Variable self : UnionSearcher.

Lemma body_stored key entries :
  body_dbm self key = Some entries -> Forall (stored self) entries.
Proof. intros H. apply Forall_forall. intros e He. exists key, entries. auto. Qed.

Lemma exact_entries_stored entries capacity : forall result uniq_words,
  Forall (stored self) entries -> Forall (stored self) result ->
  Forall (stored self) (fst (exact_entries entries capacity result uniq_words)).
Proof.
  induction entries as [|entry rest IH]; intros result uniq He Hr; simpl; [exact Hr|].
  apply Forall_cons in He. destruct He as [He Hrest].
  destruct (capacity <=? len result); [exact Hr|].
  destruct (bool_decide _); apply IH; auto.
  apply Forall_app. split; [exact Hr|]. apply Forall_singleton. exact He.
Qed.

Lemma exact_words_stored words capacity : forall result uniq_words calls,
  Forall (stored self) result ->
  Forall (stored self) (fst (exact_words self words capacity result uniq_words calls)).
Proof.
  induction words as [|word rest IH]; intros result uniq calls Hr; simpl; [exact Hr|].
  destruct (capacity <=? len result); [exact Hr|].
  destruct (str_empty _); [apply IH, Hr|].
  destruct (body_dbm self (NormalizeWord self word)) as [[|e es]|] eqn:E;
    try (apply IH, Hr).
  pose proof (exact_entries_stored (e :: es) capacity result uniq (body_stored _ _ E) Hr)
    as H.
  destruct (exact_entries (e :: es) capacity result uniq) as [result' uniq'].
  apply IH. exact H.
Qed.

Lemma SearchExact_stored text capacity :
  Forall (stored self) (fst (SearchExact self text capacity)).
Proof. apply exact_words_stored. constructor. Qed.

Lemma reverse_entries_stored ja_words entries : forall capacity result uniq_words,
  Forall (stored self) entries -> Forall (stored self) result ->
  Forall (stored self)
    (fst (fst (reverse_entries self ja_words entries capacity result uniq_words))).
Proof.
  induction entries as [|entry rest IH]; intros capacity result uniq He Hr; simpl;
    [exact Hr|].
  apply Forall_cons in He. destruct He as [He Hrest].
  destruct (capacity <? 1); [exact Hr|].
  destruct (bool_decide _); [apply IH; auto|].
  destruct (reverse_match self ja_words entry); apply IH; auto.
  apply Forall_app. split; [exact Hr|]. apply Forall_singleton. exact He.
Qed.

Lemma reverse_results_stored ja_words en_words : forall capacity result uniq_words calls,
  Forall (stored self) result ->
  Forall (stored self)
    (fst (reverse_results self ja_words en_words capacity result uniq_words calls)).
Proof.
  induction en_words as [|en_word rest IH]; intros capacity result uniq calls Hr; simpl;
    [exact Hr|].
  destruct (capacity <? 1); [exact Hr|].
  destruct (body_dbm self en_word) as [[|e es]|] eqn:E; try (apply IH, Hr).
  pose proof (reverse_entries_stored ja_words (e :: es) capacity result uniq
                (body_stored _ _ E) Hr) as H.
  destruct (reverse_entries self ja_words (e :: es) capacity result uniq)
    as [[result' uniq'] capacity'].
  apply IH. exact H.
Qed.

Lemma SearchExactReverse_stored text capacity :
  Forall (stored self) (fst (SearchExactReverse self text capacity)).
Proof.
  unfold SearchExactReverse.
  destruct (reverse_en_words self _ [] ∅ []) as [en_words calls].
  apply reverse_results_stored. constructor.
Qed.

Lemma resolve_seeds_stored lookup words capacity : forall seeds calls,
  (forall word, Forall (stored self) (fst (lookup word capacity))) ->
  Forall (stored self) seeds ->
  Forall (stored self) (fst (resolve_seeds lookup words capacity seeds calls)).
Proof.
  induction words as [|word rest IH]; intros seeds calls Hl Hs; simpl; [exact Hs|].
  destruct (str_empty word); [apply IH; assumption|].
  pose proof (Hl word) as Hw. destruct (lookup word capacity) as [found c].
  apply IH; [exact Hl|]. apply Forall_app. split; assumption.
Qed.
End StoreFacts.

(** ** The expansion keeps its invariant *)

Section ExpandFacts.
Variable self : UnionSearcher.
Variable seed_features : Features.
Variable capacity : Z.
Variable seed_entries : list Entry.
Import FloatFacts.

Local Abbreviation unless := (excuse self seed_features seed_entries).
Local Abbreviation invariant := (expansion_ok self seed_features seed_entries).
Local Abbreviation known_entry := (known self seed_entries).
Local Abbreviation pending := (candidate_ok self seed_features seed_entries).

Lemma AddSeed_similarity st entry :
  AddSeed self seed_features st entry =
  (score ← similarity self seed_features entry; Ok (pushed st score entry)).
Proof.
  unfold AddSeed, similarity. destruct (GetFeatures self entry) as [f|e|]; reflexivity.
Qed.

(** The invariant reads four fields of the state only. *)
Lemma expansion_inv_ext st st' :
  st_result st' = st_result st -> st_seeds st' = st_seeds st ->
  st_num_steps st' = st_num_steps st -> st_checked_words st' = st_checked_words st ->
  expansion_inv st -> expansion_inv st'.
Proof.
  intros Hr Hs Hn Hc [I1 I2 I3 I4 I5].
  constructor; unfold num_checked, discovered in *; rewrite ?Hr, ?Hs, ?Hn, ?Hc; assumption.
Qed.

Lemma grows_refl st : grows capacity st st.
Proof. split; [reflexivity|lia]. Qed.

Lemma grows_trans st1 st2 st3 :
  grows capacity st1 st2 -> grows capacity st2 st3 -> grows capacity st1 st3.
Proof. intros [H1 H2] [H3 H4]. split; [congruence|lia]. Qed.

Lemma grows_ext st st1 st' :
  st_result st1 = st_result st -> st_checked_words st1 = st_checked_words st ->
  grows capacity st1 st' -> grows capacity st st'.
Proof.
  intros Hr Hc [H1 H2]. unfold grows, num_checked in *. rewrite <- Hr, <- Hc. auto.
Qed.

(** Pushing an entry whose headword has just been added to the visited
    set keeps the invariant. *)
Lemma pushed_inv st score entry :
  expansion_inv st -> e_word entry ∉ st_checked_words st ->
  expansion_inv (pushed (check_word st (e_word entry)) score entry).
Proof.
  intros [I1 I2 I3 I4 [I5 I6]] Hw.
  assert (Hfresh : e_word entry ∉ discovered st) by (intros H; apply Hw, I4, H).
  constructor; unfold num_checked, discovered, pushed, check_word, heappush, len in *; simpl.
  - rewrite size_union by set_solver. rewrite size_singleton. lia.
  - rewrite length_app. simpl. lia.
  - rewrite map_app, app_assoc. simpl. apply NoDup_app. split; [exact I3|].
    split; [|apply NoDup_singleton].
    intros x Hx Hx'. apply list_elem_of_singleton in Hx'. subst. contradiction.
  - intros w. rewrite map_app, app_assoc. simpl. rewrite elem_of_app.
    intros [H|H]; [apply I4 in H; set_solver|].
    apply list_elem_of_singleton in H. set_solver.
  - split.
    + rewrite map_app. simpl. apply NoDup_app. split; [exact I5|].
      split; [|apply NoDup_singleton].
      intros x Hx Hx'. apply list_elem_of_singleton in Hx'. subst.
      apply list_elem_of_fmap in Hx. destruct Hx as [c [Hc Hin]].
      rewrite Forall_forall in I6. apply I6 in Hin. lia.
    + apply Forall_app. split.
      * eapply Forall_impl; [exact I6|]. simpl. intros c Hc. lia.
      * apply Forall_singleton. simpl.
        rewrite Forall_forall in I6. pose proof (Zle_0_nat (length (st_seeds st))).
        pose proof (Zle_0_nat (length (st_result st))). lia.
Qed.

Lemma pushed_grows st score entry :
  num_checked st < capacity -> e_word entry ∉ st_checked_words st ->
  grows capacity st (pushed (check_word st (e_word entry)) score entry).
Proof.
  intros Hc Hw. split; [reflexivity|].
  unfold num_checked, pushed, check_word in *. simpl.
  rewrite size_union by set_solver. rewrite size_singleton. lia.
Qed.

Lemma expansion_ok_ext st st' :
  st_result st' = st_result st -> st_seeds st' = st_seeds st ->
  st_num_steps st' = st_num_steps st -> st_checked_words st' = st_checked_words st ->
  invariant st -> invariant st'.
Proof.
  intros Hr Hs Hn Hc [Hinv Hp].
  split; [eapply expansion_inv_ext; eauto|rewrite Hs; exact Hp].
Qed.

(** The state after a guarded [checked_words.add(word); AddSeed(entry)]. *)
Lemma adopt_one st entry :
  invariant st -> known_entry entry -> e_word entry ∉ st_checked_words st ->
  outcome unless
    (fun st' => invariant st' /\
                (num_checked st < capacity -> grows capacity st st') /\
                st_result st' = st_result st /\
                st_checked_words st' = {[e_word entry]} ∪ st_checked_words st)
    (AddSeed self seed_features (check_word st (e_word entry)) entry).
Proof.
  intros [Hinv Hp] Hk Hw. rewrite AddSeed_similarity.
  pose proof (similarity_cases self seed_features entry) as Hcase.
  destruct (similarity self seed_features entry) as [score|e|] eqn:E; simpl.
  - split_and!.
    + split; [apply pushed_inv; assumption|].
      unfold pushed, heappush; simpl. apply Forall_app. split; [exact Hp|].
      apply Forall_singleton. split; [exact Hk|]. exists score. split; [exact E|reflexivity].
    + intros; apply pushed_grows; assumption.
    + reflexivity.
    + reflexivity.
  - subst e. intros [_ Hs]. destruct (Hs entry Hk) as [s [Hs' _]]. congruence.
  - exact Hcase.
Qed.

Lemma adopt_children_spec children : forall st,
  invariant st -> Forall known_entry children ->
  outcome unless (fun st' => invariant st' /\ grows capacity st st')
    (adopt_children self seed_features capacity children st).
Proof.
  induction children as [|child rest IH]; intros st Hinv Hk; simpl.
  - split; [exact Hinv|apply grows_refl].
  - apply Forall_cons in Hk. destruct Hk as [Hk Hrest].
    destruct (capacity <=? num_checked st) eqn:Ecap;
      [simpl; split; [exact Hinv|apply grows_refl]|].
    apply Z.leb_gt in Ecap.
    destruct (bool_decide (e_word child ∈ st_checked_words st)) eqn:Ein.
    + apply IH; assumption.
    + apply bool_decide_eq_false in Ein.
      eapply outcome_bind; [apply (adopt_one st child Hinv Hk Ein)|].
      intros st1 (Hinv1 & Hg1 & _ & _).
      eapply outcome_impl;
        [|apply (IH (count_append st1));
          [eapply expansion_ok_ext; [..|exact Hinv1]; reflexivity|exact Hrest]].
      intros st2 [Hinv2 Hg2]. split; [exact Hinv2|].
      eapply grows_trans; [exact (Hg1 Ecap)|].
      eapply grows_ext; [..|exact Hg2]; reflexivity.
Qed.

Lemma adopt_tran_children_spec children : forall num_tran_adopts st,
  invariant st -> Forall known_entry children ->
  outcome unless (fun st' => invariant st' /\ grows capacity st st')
    (adopt_tran_children self seed_features capacity children num_tran_adopts st).
Proof.
  induction children as [|child rest IH]; intros n st Hinv Hk; simpl.
  - split; [exact Hinv|apply grows_refl].
  - apply Forall_cons in Hk. destruct Hk as [Hk Hrest].
    destruct (capacity <=? num_checked st) eqn:Ecap;
      [simpl; split; [exact Hinv|apply grows_refl]|].
    apply Z.leb_gt in Ecap.
    destruct (5 <=? n); [simpl; split; [exact Hinv|apply grows_refl]|].
    destruct (bool_decide (e_word child ∈ st_checked_words st)) eqn:Ein.
    + apply IH; assumption.
    + apply bool_decide_eq_false in Ein.
      eapply outcome_bind; [apply (adopt_one st child Hinv Hk Ein)|].
      intros st1 (Hinv1 & Hg1 & _ & _).
      eapply outcome_impl;
        [|apply (IH (n + 1) (count_append st1));
          [eapply expansion_ok_ext; [..|exact Hinv1]; reflexivity|exact Hrest]].
      intros st2 [Hinv2 Hg2]. split; [exact Hinv2|].
      eapply grows_trans; [exact (Hg1 Ecap)|].
      eapply grows_ext; [..|exact Hg2]; reflexivity.
Qed.

Lemma stored_known children :
  Forall (stored self) children -> Forall known_entry children.
Proof. intros H. eapply Forall_impl; [exact H|]. intros e He. right. exact He. Qed.

Lemma expand_rel_words_spec rel_words : forall st,
  invariant st ->
  outcome unless (fun st' => invariant st' /\ grows capacity st st')
    (expand_rel_words self seed_features capacity rel_words st).
Proof.
  induction rel_words as [|rel_word rest IH]; intros st Hinv; simpl.
  - split; [exact Hinv|apply grows_refl].
  - destruct (capacity <=? num_checked st); [simpl; split; [exact Hinv|apply grows_refl]|].
    destruct (bool_decide (rel_word ∈ st_checked_words st)); [apply IH, Hinv|].
    pose proof (SearchExact_stored self rel_word (capacity - num_checked st)) as Hst.
    destruct (SearchExact self rel_word (capacity - num_checked st)) as [children c].
    simpl in Hst.
    eapply outcome_bind.
    + apply (adopt_children_spec children (log_calls st c)).
      * eapply expansion_ok_ext; [..|exact Hinv]; reflexivity.
      * apply stored_known, Hst.
    + intros st1 [Hinv1 Hg1]. eapply outcome_impl; [|apply (IH st1 Hinv1)].
      intros st2 [Hinv2 Hg2]. split; [exact Hinv2|].
      eapply grows_trans; [|exact Hg2].
      eapply grows_ext; [..|exact Hg1]; reflexivity.
Qed.

Lemma expand_trans_spec trans : forall st,
  invariant st ->
  outcome unless (fun st' => invariant st' /\ grows capacity st st')
    (expand_trans self seed_features capacity trans st).
Proof.
  induction trans as [|tran rest IH]; intros st Hinv; simpl.
  - split; [exact Hinv|apply grows_refl].
  - destruct (capacity <=? num_checked st); [simpl; split; [exact Hinv|apply grows_refl]|].
    destruct (bool_decide (StripTranSuffix self tran ∈ st_checked_trans st));
      [apply IH, Hinv|].
    match goal with |- context [SearchExactReverse self ?t ?n] =>
      pose proof (SearchExactReverse_stored self t n) as Hst;
      destruct (SearchExactReverse self t n) as [children c] end.
    simpl in Hst.
    eapply outcome_bind.
    + apply (adopt_tran_children_spec children 0
               (log_calls (check_tran st (StripTranSuffix self tran)) c)).
      * eapply expansion_ok_ext; [..|exact Hinv]; reflexivity.
      * apply stored_known, Hst.
    + intros st1 [Hinv1 Hg1]. eapply outcome_impl; [|apply (IH st1 Hinv1)].
      intros st2 [Hinv2 Hg2]. split; [exact Hinv2|].
      eapply grows_trans; [|exact Hg2].
      eapply grows_ext; [..|exact Hg1]; reflexivity.
Qed.

Lemma expand_coocs_spec coocs : forall st,
  invariant st ->
  outcome unless (fun st' => invariant st' /\ grows capacity st st')
    (expand_coocs self seed_features capacity coocs st).
Proof.
  induction coocs as [|cooc rest IH]; intros st Hinv; simpl.
  - split; [exact Hinv|apply grows_refl].
  - destruct (8 <=? st_num_appends st); [simpl; split; [exact Hinv|apply grows_refl]|].
    destruct (capacity <=? num_checked st); [simpl; split; [exact Hinv|apply grows_refl]|].
    destruct (bool_decide (cooc ∈ st_checked_words st)); [apply IH, Hinv|].
    pose proof (SearchExact_stored self cooc (capacity - num_checked st)) as Hst.
    destruct (SearchExact self cooc (capacity - num_checked st)) as [children c].
    simpl in Hst.
    eapply outcome_bind.
    + apply (adopt_children_spec children (log_calls st c)).
      * eapply expansion_ok_ext; [..|exact Hinv]; reflexivity.
      * apply stored_known, Hst.
    + intros st1 [Hinv1 Hg1]. eapply outcome_impl; [|apply (IH st1 Hinv1)].
      intros st2 [Hinv2 Hg2]. split; [exact Hinv2|].
      eapply grows_trans; [|exact Hg2].
      eapply grows_ext; [..|exact Hg1]; reflexivity.
Qed.

Lemma start_pop_inv st c rest :
  expansion_inv st -> heappop (st_seeds st) = Some (c, rest) ->
  expansion_inv (start_pop st (c_entry c) rest).
Proof.
  intros [I1 I2 I3 I4 I5] Hpop.
  pose proof (heappop_perm _ _ _ (proj1 I5) Hpop) as Hperm.
  assert (Hd : discovered (start_pop st (c_entry c) rest) ≡ₚ discovered st).
  { unfold discovered, start_pop. simpl. rewrite Hperm, map_app. simpl.
    rewrite <- app_assoc. simpl. reflexivity. }
  constructor.
  - exact I1.
  - unfold start_pop, len in *. simpl. rewrite length_app. simpl.
    rewrite Hperm in I2. simpl in I2. lia.
  - rewrite Hd. exact I3.
  - intros w. rewrite Hd. apply I4.
  - unfold start_pop. simpl. eapply heap_wf_tail, heap_wf_perm; [exact Hperm|exact I5].
Qed.

Lemma heappop_pending st c rest :
  invariant st -> heappop (st_seeds st) = Some (c, rest) ->
  pending c /\ Forall pending rest.
Proof.
  intros [[_ _ _ _ I5] Hp] Hpop.
  pose proof (heappop_perm _ _ _ (proj1 I5) Hpop) as Hperm.
  rewrite Hperm in Hp. apply Forall_cons in Hp. exact Hp.
Qed.

(** The fan-out of a pending candidate raises only with an excuse. *)
Lemma fan_out_outcome base least result c :
  SF.below 5 (Prim2SF base) -> pending c -> 1 <= len result ->
  outcome unless (fun n => least <= n)
    (fan_out self base least result (c_neg_score c * -1)%float).
Proof.
  intros Hb [Hk [score [Hs Hneg]]] Hlen.
  pose proof (fan_out_cases self base least result (c_neg_score c * -1)%float) as Hcase.
  pose proof (similarity_cases self seed_features (c_entry c)) as Hone.
  rewrite Hs in Hone.
  destruct (fan_out self base least result (c_neg_score c * -1)%float) as [n|e|] eqn:E;
    simpl; [exact Hcase| |exact Hcase].
  assert (Hno : tame self seed_features seed_entries -> False).
  { intros [Hl Hsc]. destruct (Hsc _ Hk) as [score' [Hs' H0]].
    rewrite Hs in Hs'. injection Hs' as <-.
    destruct (fan_out_ok self base least result score Hb
                (Hl (len result + 1) ltac:(lia)) H0 Hone)
      as [n Hn].
    rewrite <- Hneg in Hn. congruence. }
  destruct e; simpl; try exact Hno.
  intros Hl. rewrite (Hl (len result + 1) ltac:(lia)) in Hcase. discriminate.
Qed.

(** One pass of the loop: the popped entry goes to the output, and the
    fan-out keeps the invariant. *)
Lemma expand_body_spec st c rest :
  invariant st -> heappop (st_seeds st) = Some (c, rest) ->
  outcome unless
    (fun st' => invariant st' /\
                st_result st' = st_result st ++ [c_entry c] /\
                num_checked st' <= Z.max (num_checked st) capacity)
    (expand_body self seed_features capacity st c rest).
Proof.
  intros Hinv Hpop. unfold expand_body. cbv zeta.
  destruct (heappop_pending st c rest Hinv Hpop) as [Hc Hrest].
  assert (Hinv0 : invariant (start_pop st (c_entry c) rest)).
  { split; [apply start_pop_inv; [apply Hinv|exact Hpop]|exact Hrest]. }
  set (st0 := start_pop st (c_entry c) rest) in *.
  assert (Hlen : 1 <= len (st_result st0)).
  { unfold st0, start_pop, len. simpl. rewrite length_app. simpl. lia. }
  eapply outcome_bind.
  { apply (fan_out_outcome 16 4 (st_result st0) c); [|exact Hc|exact Hlen].
    apply belowb_below. vm_compute. reflexivity. }
  intros max_rel_words _.
  eapply outcome_bind.
  { apply (fan_out_outcome 8 2 (st_result st0) c); [|exact Hc|exact Hlen].
    apply belowb_below. vm_compute. reflexivity. }
  intros max_trans _.
  eapply outcome_bind; [apply expand_rel_words_spec, Hinv0|]. intros st1 [Hinv1 Hg1].
  eapply outcome_bind; [apply expand_trans_spec, Hinv1|]. intros st2 [Hinv2 Hg2].
  eapply outcome_impl; [|apply expand_coocs_spec, Hinv2]. intros st3 [Hinv3 Hg3].
  destruct (grows_trans _ _ _ (grows_trans _ _ _ Hg1 Hg2) Hg3) as [Hr Hn].
  split_and!; [exact Hinv3|exact Hr|exact Hn].
Qed.

(** The loop ends with an empty queue as soon as the fuel covers the
    candidates that can still be pushed. *)
Lemma expand_loop_spec fuel : forall st,
  invariant st ->
  Z.max (num_checked st) capacity <= len (st_result st) + Z.of_nat fuel ->
  outcome unless
    (fun st' => invariant st' /\ st_seeds st' = [] /\
                num_checked st' <= Z.max (num_checked st) capacity /\
                (exists more, st_result st' = st_result st ++ more) /\
                visits self seed_features capacity st st')
    (expand_loop self seed_features capacity fuel st).
Proof.
  induction fuel as [|fuel IH]; intros st Hinv Hfuel.
  - destruct (st_seeds st) as [|c h] eqn:Eh.
    + simpl. rewrite Eh. simpl. split_and!; auto; try lia.
      * exists []. rewrite app_nil_r. reflexivity.
      * constructor.
    + exfalso. destruct Hinv as [[I1 I2 _ _ _] _]. rewrite Eh in I2.
      unfold len in *. simpl in I2. lia.
  - simpl. destruct (heappop (st_seeds st)) as [[c rest]|] eqn:Hpop.
    + pose proof (expand_body_spec st c rest Hinv Hpop) as Hbody.
      destruct (expand_body self seed_features capacity st c rest) as [st1|e|] eqn:Hb;
        simpl in Hbody |- *; [|exact Hbody|exact Hbody].
      destruct Hbody as (Hinv1 & Hr1 & Hn1).
      eapply outcome_impl; [|apply (IH st1 Hinv1)].
      * intros st2 (Hinv2 & Hs2 & Hn2 & [more Hr2] & Hv2).
        split_and!; auto; try lia.
        -- exists (c_entry c :: more). rewrite Hr2, Hr1, <- app_assoc. reflexivity.
        -- econstructor; eauto.
      * rewrite Hr1. unfold len in *. rewrite length_app. simpl. lia.
    + destruct (st_seeds st) as [|c h] eqn:Eh; [|discriminate].
      simpl. split_and!; auto; try lia.
      * exists []. rewrite app_nil_r. reflexivity.
      * constructor.
Qed.

Lemma seed_loop_spec seeds : forall st,
  invariant st -> Forall known_entry seeds ->
  outcome unless
    (fun st' => invariant st' /\ st_result st' = st_result st /\
                st_checked_words st' =
                  list_to_set (map e_word seeds) ∪ st_checked_words st)
    (seed_loop self seed_features seeds st).
Proof.
  induction seeds as [|entry rest IH]; intros st Hinv Hk; simpl.
  - split_and!; auto. set_solver.
  - apply Forall_cons in Hk. destruct Hk as [Hk Hrest].
    destruct (bool_decide (e_word entry ∈ st_checked_words st)) eqn:Ein.
    + apply bool_decide_eq_true in Ein.
      eapply outcome_impl; [|apply (IH st Hinv Hrest)].
      intros st' (Hinv' & Hr & Hc). split_and!; auto. rewrite Hc. set_solver.
    + apply bool_decide_eq_false in Ein.
      eapply outcome_bind; [apply (adopt_one st entry Hinv Hk Ein)|].
      intros st1 (Hinv1 & _ & Hr1 & Hc1).
      eapply outcome_impl; [|apply (IH st1 Hinv1 Hrest)].
      intros st' (Hinv' & Hr & Hc). split_and!; auto; [congruence|].
      rewrite Hc, Hc1. set_solver.
Qed.

Lemma initial_state_inv : expansion_inv initial_state.
Proof.
  constructor; unfold initial_state, num_checked, discovered, len; simpl.
  - reflexivity.
  - reflexivity.
  - apply NoDup_nil_2.
  - intros w H. inversion H.
  - split; [apply NoDup_nil_2|apply Forall_nil_2].
Qed.

Lemma size_list_to_set_le (l : list string) :
  (size (list_to_set l : gset string) <= length l)%nat.
Proof.
  induction l as [|x l IH].
  - rewrite list_to_set_nil, size_empty. simpl. lia.
  - rewrite list_to_set_cons, size_union_alt, size_singleton. simpl length.
    pose proof (subseteq_size (list_to_set l ∖ {[x]}) (list_to_set l : gset string)
                  ltac:(set_solver)). lia.
Qed.

Lemma initial_state_ok : invariant initial_state.
Proof. split; [apply initial_state_inv|constructor]. Qed.

Lemma seeds_known : Forall known_entry seed_entries.
Proof. apply Forall_forall. intros e He. left. exact He. Qed.

(** [ExpandEntries] ends: the loop stops with an empty queue within the
    fuel of [expand_fuel], unless the arithmetic raises. *)
Lemma ExpandEntries_state_spec :
  outcome unless
    (fun st => exists st0,
       seed_loop self seed_features seed_entries initial_state = Ok st0 /\
       visits self seed_features capacity st0 st /\
       invariant st0 /\ st_result st0 = [] /\
       st_checked_words st0 = list_to_set (map e_word seed_entries) /\
       invariant st /\ st_seeds st = [] /\
       num_checked st <= Z.max (distinct_seeds seed_entries) capacity)
    (ExpandEntries_state self seed_features capacity seed_entries).
Proof.
  unfold ExpandEntries_state.
  pose proof (seed_loop_spec seed_entries initial_state initial_state_ok seeds_known)
    as Hseed.
  destruct (seed_loop self seed_features seed_entries initial_state) as [st0|e|] eqn:Hs;
    simpl in Hseed |- *; [|exact Hseed|exact Hseed].
  destruct Hseed as (Hinv0 & Hr0 & Hc0).
  assert (Hc0' : st_checked_words st0 = list_to_set (map e_word seed_entries)).
  { rewrite Hc0. unfold initial_state. simpl. set_solver. }
  assert (Hn0 : num_checked st0 = distinct_seeds seed_entries).
  { unfold num_checked, distinct_seeds. rewrite Hc0'. reflexivity. }
  eapply outcome_impl; [|apply (expand_loop_spec (expand_fuel capacity seed_entries) st0 Hinv0)].
  - intros st (Hinv & Hh & Hn & _ & Hv). exists st0. rewrite <- Hn0. split_and!; auto.
  - rewrite Hr0, Hn0. unfold expand_fuel, distinct_seeds, len. simpl.
    pose proof (size_list_to_set_le (map e_word seed_entries)) as Hle.
    rewrite length_map in Hle. lia.
Qed.
End ExpandFacts.

(** ** The order of the pops *)

Section PopOrder.
Import FloatFacts SF.

Lemma cand_lt_spec a b :
  cand_lt a b = true <->
  (fcompare (c_neg_score a) (c_neg_score b) = Some Eq /\ c_steps a < c_steps b) \/
  fcompare (c_neg_score a) (c_neg_score b) = Some Lt.
Proof.
  unfold cand_lt. destruct (c_neg_score a =? c_neg_score b)%float eqn:E.
  - apply eqb_fcompare in E. rewrite E, Z.ltb_lt. split; [auto|].
    intros [[_ H]|H]; [exact H|discriminate].
  - rewrite ltb_fcompare. split; [auto|]. intros [[H _]|H]; [|exact H].
    apply eqb_fcompare in H. congruence.
Qed.

Lemma cand_lt_trans a b c :
  cand_lt a b = true -> cand_lt b c = true -> cand_lt a c = true.
Proof.
  rewrite !cand_lt_spec. intros [[H1 S1]|H1] [[H2 S2]|H2];
    pose proof (fcompare_trans _ _ _ _ _ H1 H2 ltac:(discriminate) ltac:(discriminate)) as H;
    simpl in H; [left; split; [exact H|lia]|right; exact H..].
Qed.

Lemma cand_lt_asym a b : cand_lt a b = true -> cand_lt b a = false.
Proof.
  intros H. destruct (cand_lt b a) eqn:E; [|reflexivity]. exfalso.
  apply cand_lt_spec in H, E.
  rewrite (fcompare_antisym (c_neg_score a) (c_neg_score b)) in E.
  destruct H as [[H S]|H]; rewrite H in E; simpl in E;
    destruct E as [[E S']|E]; try discriminate. lia.
Qed.

(** Nothing met by the scan of [heap_min] is less than what it returns. *)
Lemma heap_min_least rest : forall best seen,
  (forall y, y ∈ seen -> cand_lt y best = false) ->
  forall y, y ∈ seen ++ best :: rest -> cand_lt y (heap_min best rest) = false.
Proof.
  induction rest as [|c rest IH]; intros best seen Hseen y Hy; simpl.
  - apply elem_of_app in Hy. destruct Hy as [Hy|Hy]; [auto|].
    apply list_elem_of_singleton in Hy. subst.
    destruct (cand_lt best best) eqn:E; [|reflexivity].
    rewrite (cand_lt_asym _ _ E) in E. discriminate.
  - destruct (cand_lt c best) eqn:E.
    + apply (IH c (seen ++ [best])).
      * intros z Hz. apply elem_of_app in Hz. destruct Hz as [Hz|Hz].
        -- destruct (cand_lt z c) eqn:Ez; [|reflexivity].
           specialize (Hseen z Hz).
           rewrite (cand_lt_trans _ _ _ Ez E) in Hseen. discriminate.
        -- apply list_elem_of_singleton in Hz. subst. apply cand_lt_asym, E.
      * set_solver.
    + apply (IH best (seen ++ [c])).
      * intros z Hz. apply elem_of_app in Hz. destruct Hz as [Hz|Hz]; [auto|].
        apply list_elem_of_singleton in Hz. subst. exact E.
      * set_solver.
Qed.

Lemma heappop_least h c rest :
  heappop h = Some (c, rest) -> forall y, y ∈ h -> cand_lt y c = false.
Proof.
  destruct h as [|x h]; simpl; [discriminate|]. intros Hpop y Hy.
  injection Hpop as <- _. apply (heap_min_least h x []); [|exact Hy].
  intros z Hz. inversion Hz.
Qed.

(** Two candidates with comparable scores of which neither is less than
    the other have the same discovery number. *)
Lemma cand_lt_total a b :
  comparable a -> comparable b ->
  cand_lt a b = false -> cand_lt b a = false -> c_steps a = c_steps b.
Proof.
  unfold comparable. intros Ha Hb Hab Hba.
  destruct (fcompare_total _ _ Ha Hb) as [cmp Hc].
  pose proof (fcompare_antisym (c_neg_score a) (c_neg_score b)) as Hanti.
  rewrite Hc in Hanti. simpl in Hanti.
  destruct (Z.lt_trichotomy (c_steps a) (c_steps b)) as [Hlt|[Heq|Hgt]]; [|exact Heq|];
    exfalso; destruct cmp; simpl in Hanti.
  - assert (cand_lt a b = true) by (apply cand_lt_spec; auto). congruence.
  - assert (cand_lt a b = true) by (apply cand_lt_spec; auto). congruence.
  - assert (cand_lt b a = true) by (apply cand_lt_spec; auto). congruence.
  - assert (cand_lt b a = true) by (apply cand_lt_spec; left; split; [auto|lia]). congruence.
  - assert (cand_lt a b = true) by (apply cand_lt_spec; auto). congruence.
  - assert (cand_lt b a = true) by (apply cand_lt_spec; auto). congruence.
Qed.

(** The candidate popped does not depend on how the heap is laid out. *)
Lemma heappop_layout h h' c rest :
  NoDup (map c_steps h) -> h' ≡ₚ h -> Forall comparable h' ->
  heappop h = Some (c, rest) ->
  exists rest', heappop h' = Some (c, rest') /\ rest' ≡ₚ rest.
Proof.
  intros Hnd Hperm Hcmp Hpop.
  assert (Hnd' : NoDup (map c_steps h')) by (rewrite Hperm; exact Hnd).
  pose proof (heappop_perm _ _ _ Hnd Hpop) as Hp.
  destruct (heappop_nonempty h') as [c' [rest' Hpop']].
  { intros ->. apply Permutation_nil_l in Hperm. subst. discriminate. }
  pose proof (heappop_perm _ _ _ Hnd' Hpop') as Hp'.
  assert (Hc : c ∈ h) by (rewrite Hp; left).
  assert (Hc' : c' ∈ h') by (rewrite Hp'; left).
  assert (Hcin : c ∈ h') by (rewrite Hperm; exact Hc).
  assert (c' = c) as ->.
  { apply (steps_inj h'); auto.
    rewrite Forall_forall in Hcmp.
    apply cand_lt_total; auto.
    - apply (heappop_least _ _ _ Hpop). rewrite <- Hperm. exact Hc'.
    - apply (heappop_least _ _ _ Hpop'). exact Hcin. }
  exists rest'. split; [exact Hpop'|].
  apply (Permutation_cons_inv (a := c)). rewrite <- Hp', <- Hp. exact Hperm.
Qed.
End PopOrder.

(** ** The expansion: termination, pushes, output *)

Section ExpansionResults.
Variable self : UnionSearcher.
Import FloatFacts.

Lemma visits_inv seed_features capacity seed_entries st st' :
  visits self seed_features capacity st st' ->
  expansion_ok self seed_features seed_entries st ->
  expansion_ok self seed_features seed_entries st' /\
  exists more, st_result st' = st_result st ++ more.
Proof.
  induction 1 as [st|st c rest st1 st2 Hpop Hbody Hv IH]; intros Hinv.
  - split; [exact Hinv|]. exists []. rewrite app_nil_r. reflexivity.
  - pose proof (expand_body_spec self seed_features capacity seed_entries st c rest
                  Hinv Hpop) as Hb.
    rewrite Hbody in Hb. simpl in Hb. destruct Hb as (Hinv1 & Hr1 & _).
    destruct (IH Hinv1) as [Hinv2 [more Hr2]]. split; [exact Hinv2|].
    exists (c_entry c :: more). rewrite Hr2, Hr1, <- app_assoc. reflexivity.
Qed.

Lemma ExpandEntries_spec seed_entries seed_features capacity :
  outcome (excuse self seed_features seed_entries)
    (fun r => exists st,
       ExpandEntries_state self seed_features capacity seed_entries = Ok st /\
       r = (st_result st, st_calls st) /\
       expansion_inv st /\ st_seeds st = [] /\
       num_checked st <= Z.max (distinct_seeds seed_entries) capacity /\
       NoDup (map e_word (st_result st)))
    (ExpandEntries self seed_entries seed_features capacity).
Proof.
  unfold ExpandEntries.
  pose proof (ExpandEntries_state_spec self seed_features capacity seed_entries) as H.
  destruct (ExpandEntries_state self seed_features capacity seed_entries) as [st|e|];
    simpl in H |- *; [|exact H|exact H].
  destruct H as (st0 & _ & _ & _ & _ & _ & [Hinv _] & Hh & Hn).
  exists st. split_and!; auto.
  destruct Hinv as [_ _ Hnd _ _]. unfold discovered in Hnd. rewrite Hh in Hnd.
  simpl in Hnd. rewrite app_nil_r in Hnd. exact Hnd.
Qed.

Lemma aggregate_seeds_total seeds : forall seed_features base_weight uniq_words,
  exists features,
    aggregate_seeds self seeds seed_features base_weight uniq_words = Ok features.
Proof.
  induction seeds as [|seed rest IH]; intros sf bw uniq; simpl; [eauto|].
  destruct (GetFeatures_total self seed) as [f ->]. simpl. apply IH.
Qed.

(** The working capacity is computed for a capacity of 63 bits, and its
    computation never divides. *)
Lemma working_capacity_cases capacity :
  match working_capacity capacity with
  | Ok n => 100 <= n
  | Raise e => e <> ZeroDivisionError /\ ~ (- 2 ^ 63 < capacity < 2 ^ 63)
  | OutOfFuel => False
  end.
Proof.
  destruct (working_capacity capacity) as [n|e|] eqn:E.
  - unfold working_capacity in E.
    destruct (PyFloat.of_int capacity); simpl in E; try discriminate.
    destruct (PyFloat.to_int _); simpl in E; try discriminate.
    injection E as <-. lia.
  - split.
    + intros ->. unfold working_capacity, PyFloat.of_int, PyFloat.to_int in E.
      destruct (binary_normalize prec emax capacity 0 false); simpl in E;
        try discriminate;
        match type of E with context [Prim2SF ?x] => destruct (Prim2SF x) end;
        discriminate.
    + intros Hc. destruct (working_capacity_ok capacity Hc) as [n [Hn _]]. congruence.
  - unfold working_capacity in E.
    destruct (PyFloat.of_int capacity) eqn:E1; simpl in E; try discriminate.
    + destruct (PyFloat.to_int _) eqn:E2; simpl in E; try discriminate.
      unfold PyFloat.to_int in E2. destruct (Prim2SF _); discriminate.
    + unfold PyFloat.of_int in E1. destruct (binary_normalize _ _ _ _ _); discriminate.
Qed.

Lemma SearchRelatedWithSeeds_spec seeds capacity :
  outcome (related_excuse self seeds capacity)
    (fun r => exists seed_features expand_capacity result,
       aggregate_seeds self seeds [] 1%float ∅ = Ok seed_features /\
       working_capacity capacity = Ok expand_capacity /\
       ExpandEntries self seeds seed_features expand_capacity = Ok (result, snd r) /\
       fst r = slice_to result capacity /\
       NoDup (map e_word result))
    (SearchRelatedWithSeeds self seeds capacity).
Proof.
  unfold SearchRelatedWithSeeds.
  destruct (aggregate_seeds_total seeds [] 1%float ∅) as [sf Hsf]. rewrite Hsf. simpl.
  pose proof (working_capacity_cases capacity) as Hwc.
  destruct (working_capacity capacity) as [wc|e|]; simpl; [| |exact Hwc].
  - assert (Hspec : outcome (related_excuse self seeds capacity)
                      (fun r => NoDup (map e_word (fst r)))
                      (ExpandEntries self seeds sf wc)).
    { eapply outcome_excuse, outcome_impl; [| |apply (ExpandEntries_spec seeds sf wc)].
      - intros e He. destruct e; simpl in *; [exact He| |];
          intros [_ [sf' [Hsf' Ht]]]; rewrite Hsf in Hsf'; injection Hsf' as <-; tauto.
      - intros r (st & _ & -> & _ & _ & _ & Hnd). exact Hnd. }
    destruct (ExpandEntries self seeds sf wc) as [[result calls]|e|] eqn:E;
      simpl in Hspec |- *; [|exact Hspec|exact Hspec].
    exists sf, wc, result. split_and!; auto.
  - destruct Hwc as [Hz Hc]. destruct e; simpl; try congruence; intros [Hc' _]; tauto.
Qed.
Lemma slice_to_length {A} (xs : list A) n : 0 <= n -> len (slice_to xs n) <= n.
Proof.
  intros Hn. unfold slice_to, len. destruct (0 <=? n) eqn:E; [|lia].
  rewrite length_take. lia.
Qed.

Lemma slice_to_NoDup (xs : list Entry) n :
  NoDup (map e_word xs) -> NoDup (map e_word (slice_to xs n)).
Proof.
  intros H. unfold slice_to.
  destruct (0 <=? n); rewrite <- firstn_map;
    (eapply sublist_NoDup; [exact H|apply sublist_take]).
Qed.
End ExpansionResults.

(** ** The runs of the examples *)

(** Membership in an explicit list. *)
Ltac among :=
  let e := fresh "e" in
  let He := fresh "He" in
  intros e He; repeat (apply elem_of_cons in He as [->|He]);
  [repeat (first [apply list_elem_of_here|apply list_elem_of_further])..|inversion He].

Section ExampleFacts.
Import FloatFacts.

Lemma example_log2_sane : log2_sane Example.searcher.
Proof.
  intros n Hn. simpl. unfold Example.log2.
  destruct (n <=? 2); [reflexivity|]. destruct (n =? 3); [reflexivity|].
  destruct (n =? 4); reflexivity.
Qed.

Lemma example_stored e :
  stored Example.searcher e -> e ∈ [Example.apple; Example.Apple; Example.pear].
Proof.
  intros (key & entries & Hb & He). simpl in Hb. unfold Example.body in Hb.
  destruct (String.eqb key "apple"); [injection Hb as <-; set_solver|].
  destruct (String.eqb key "pear"); [injection Hb as <-; set_solver|discriminate].
Qed.

Lemma score_ok_defined self seed_features entry :
  score_ok self seed_features entry = true ->
  exists score, similarity self seed_features entry = Ok score /\
                (0 <=? score)%float = true.
Proof.
  unfold score_ok. destruct (similarity self seed_features entry); try discriminate.
  eauto.
Qed.

(** The conditions hold for the example dictionary as soon as the scores
    of its three entries are in range. *)
Lemma example_tame seed_features seeds :
  forallb (score_ok Example.searcher seed_features)
    [Example.apple; Example.Apple; Example.pear] = true ->
  (forall e, e ∈ seeds -> e ∈ [Example.apple; Example.Apple; Example.pear]) ->
  tame Example.searcher seed_features seeds.
Proof.
  intros Hok Hseeds. split; [exact example_log2_sane|].
  intros e Hk. apply score_ok_defined.
  assert (He : e ∈ [Example.apple; Example.Apple; Example.pear]).
  { destruct Hk as [Hk|Hk]; [apply Hseeds, Hk|apply example_stored, Hk]. }
  rewrite forallb_forall in Hok. apply Hok. apply list_elem_of_In. exact He.
Qed.
End ExampleFacts.

(** C7 (amended): every push follows the addition of a previously unvisited
    headword to the visited set, so the pushes are counted by the size of
    that set.  The seed entries are pushed whatever the capacity; during the
    loop a candidate is pushed only while the visited set is smaller than
    the capacity.  So, when [ExpandEntries] returns, the pushes did not
    exceed the greater of the capacity and the number of distinct seed
    headwords, and every pushed candidate was popped into the output.  The
    loop terminates within the passes [expand_fuel] allows: the run returns
    with an empty queue or raises, and it raises only if a logarithm is 0
    or out of range or a score is; it returns when they are not. *)
Theorem pushes_bounded_and_terminating :
  forall self seed_features capacity seed_entries,
  ExpandEntries_state self seed_features capacity seed_entries <> OutOfFuel /\
  (forall st,
     ExpandEntries_state self seed_features capacity seed_entries = Ok st ->
     st_seeds st = [] /\
     st_num_steps st = num_checked st /\
     len (st_result st) = st_num_steps st /\
     st_num_steps st <= Z.max capacity (distinct_seeds seed_entries)) /\
  (forall e,
     ExpandEntries_state self seed_features capacity seed_entries = Raise e ->
     excuse self seed_features seed_entries e) /\
  (tame self seed_features seed_entries ->
   exists st, ExpandEntries_state self seed_features capacity seed_entries = Ok st).
Proof.
  intros self sf capacity seeds.
  pose proof (ExpandEntries_state_spec self sf capacity seeds) as H.
  split_and!.
  - eapply outcome_fuel, H.
  - intros st Hst. rewrite Hst in H. simpl in H.
    destruct H as (st0 & _ & _ & _ & _ & _ & [[I1 I2 _ _ _] _] & Hh & Hn).
    rewrite Hh in I2. unfold len in *. simpl in I2. split_and!; auto; lia.
  - intros e He. rewrite He in H. exact H.
  - intros Ht. destruct (outcome_returns _ _ _ (tame_no_excuse _ _ _ Ht) H) as [st [Hst _]].
    eauto.
Qed.

(** C7, as stated, fails: with two distinct seed entries and capacity 1
    there are two pushes. *)
Lemma pushes_exceed_capacity :
  match ExpandEntries_state Example.searcher [("apple", 1%float)] 1
          [Example.apple; Example.pear] with
  | Ok st => st_num_steps st = 2 /\ len (st_result st) = 2
  | _ => False
  end.
Proof. vm_compute. split; reflexivity. Qed.

(** C2 (amended): the output holds no headword twice; the headwords are
    compared as stored, not in normalized form.  The same holds for the
    output of [SearchRelatedWithSeeds].  Both return when the logarithms
    and the scores are in range. *)
Theorem result_headwords_distinct :
  forall self seed_entries seed_features capacity,
  (forall result calls,
     ExpandEntries self seed_entries seed_features capacity = Ok (result, calls) ->
     NoDup (map e_word result)) /\
  (forall result calls,
     SearchRelatedWithSeeds self seed_entries capacity = Ok (result, calls) ->
     NoDup (map e_word result)) /\
  (tame self seed_features seed_entries ->
   exists result calls,
     ExpandEntries self seed_entries seed_features capacity = Ok (result, calls)) /\
  (related_tame self seed_entries capacity ->
   exists result calls,
     SearchRelatedWithSeeds self seed_entries capacity = Ok (result, calls)).
Proof.
  intros self seeds sf capacity.
  pose proof (ExpandEntries_spec self seeds sf capacity) as He.
  pose proof (SearchRelatedWithSeeds_spec self seeds capacity) as Hs.
  split_and!.
  - intros result calls Hr. rewrite Hr in He. simpl in He.
    destruct He as (st & _ & Heq & _ & _ & _ & Hnd). injection Heq as -> ->. exact Hnd.
  - intros result calls Hr. rewrite Hr in Hs. simpl in Hs.
    destruct Hs as (sf' & wc & result' & _ & _ & _ & -> & Hnd).
    apply slice_to_NoDup, Hnd.
  - intros Ht.
    destruct (outcome_returns _ _ _ (tame_no_excuse _ _ _ Ht) He) as [[result calls] [Hr _]].
    eauto.
  - intros Ht.
    destruct (outcome_returns _ _ _ (related_tame_no_excuse _ _ _ Ht) Hs)
      as [[result calls] [Hr _]].
    eauto.
Qed.

(** C2, as stated, fails: two seed entries whose headwords differ in case
    are both in the output, with the same normalized headword. *)
Lemma normalized_headword_twice :
  match ExpandEntries Example.searcher [Example.apple; Example.Apple]
          [("apple", 1%float)] 10 with
  | Ok (result, _) =>
      map (fun e => NormalizeWord Example.searcher (e_word e)) result
        = ["apple"; "apple"; "pear"]
  | _ => False
  end.
Proof. vm_compute. reflexivity. Qed.

(** The seeds that [SearchRelated] resolves for a query. *)
Lemma SearchRelated_unfold self text capacity :
  SearchRelated self text capacity =
  (r ← SearchRelatedWithSeeds self
         (fst (resolve_seeds (SearchExact self) (split_on "," text) capacity [] []))
         capacity;
   Ok (fst r, snd (resolve_seeds (SearchExact self) (split_on "," text) capacity [] [])
                ++ snd r)).
Proof.
  unfold SearchRelated.
  destruct (resolve_seeds (SearchExact self) (split_on "," text) capacity [] []).
  reflexivity.
Qed.

(** C1: for a capacity that is not negative, the list returned by
    [SearchRelatedWithSeeds] or by [SearchRelated] has at most [capacity]
    entries; both return when the capacity has 63 bits and the logarithms
    and the scores are in range. *)
Theorem related_length_bounded :
  forall self seeds text capacity,
  0 <= capacity ->
  (forall result calls,
     SearchRelatedWithSeeds self seeds capacity = Ok (result, calls) ->
     len result <= capacity) /\
  (forall result calls,
     SearchRelated self text capacity = Ok (result, calls) ->
     len result <= capacity) /\
  (related_tame self seeds capacity ->
   exists result calls,
     SearchRelatedWithSeeds self seeds capacity = Ok (result, calls)) /\
  (related_tame self
     (fst (resolve_seeds (SearchExact self) (split_on "," text) capacity [] []))
     capacity ->
   exists result calls, SearchRelated self text capacity = Ok (result, calls)).
Proof.
  intros self seeds text capacity Hc.
  assert (Hlen : forall seeds result calls,
            SearchRelatedWithSeeds self seeds capacity = Ok (result, calls) ->
            len result <= capacity).
  { intros seeds' result calls Hr.
    pose proof (SearchRelatedWithSeeds_spec self seeds' capacity) as Hs.
    rewrite Hr in Hs. simpl in Hs.
    destruct Hs as (sf' & wc & result' & _ & _ & _ & -> & _).
    apply slice_to_length, Hc. }
  assert (Hret : forall seeds, related_tame self seeds capacity ->
            exists r, SearchRelatedWithSeeds self seeds capacity = Ok r).
  { intros seeds' Ht.
    destruct (outcome_returns _ _ _ (related_tame_no_excuse _ _ _ Ht)
                (SearchRelatedWithSeeds_spec self seeds' capacity)) as [r [Hr _]].
    eauto. }
  split_and!.
  - apply Hlen.
  - intros result calls Hr. rewrite SearchRelated_unfold in Hr.
    destruct (SearchRelatedWithSeeds self _ capacity) as [[result' calls']|e|] eqn:E;
      try discriminate.
    simpl in Hr. injection Hr as <- <-. apply (Hlen _ _ _ E).
  - intros Ht. destruct (Hret _ Ht) as [[result calls] Hr]. eauto.
  - intros Ht. destruct (Hret _ Ht) as [[result calls] Hr].
    rewrite SearchRelated_unfold, Hr. simpl. eauto.
Qed.

Lemma related_length_bounded_witness :
  (exists result calls,
     SearchRelatedWithSeeds Example.searcher [Example.apple; Example.pear] 1
       = Ok (result, calls) /\
     len result <= 1) /\
  (exists result calls,
     SearchRelated Example.searcher "apple,pear" 1 = Ok (result, calls) /\
     len result <= 1).
Proof.
  destruct (related_length_bounded Example.searcher [Example.apple; Example.pear]
              "apple,pear" 1 ltac:(lia)) as (H1 & H2 & H3 & H4).
  split.
  - destruct H3 as (result & calls & Hr).
    + split; [lia|]. eexists. split; [vm_compute; reflexivity|].
      apply example_tame; [vm_compute; reflexivity|among].
    + exists result, calls. split; [exact Hr|apply (H1 _ _ Hr)].
  - destruct H4 as (result & calls & Hr).
    + split; [lia|]. eexists. split; [vm_compute; reflexivity|].
      apply example_tame; [vm_compute; reflexivity|vm_compute; among].
    + exists result, calls. split; [exact Hr|apply (H2 _ _ Hr)].
Defined.

Lemma seed_loop_single self seed_features seed st0 :
  seed_loop self seed_features [seed] initial_state = Ok st0 ->
  exists score, st0 = pushed (check_word initial_state (e_word seed)) score seed.
Proof.
  simpl. rewrite bool_decide_eq_false_2 by (unfold initial_state; simpl; set_solver).
  rewrite AddSeed_similarity.
  destruct (similarity self seed_features seed) as [score|e|]; simpl; try discriminate.
  intros H. injection H as <-. eauto.
Qed.

(** C9: with a single seed entry and a capacity of at least 1, the list
    returned by [SearchRelatedWithSeeds] starts with the seed entry: the
    seed is the only candidate of the queue at the first pop, whatever its
    score.  The call returns when the capacity has 63 bits and the
    logarithms and the scores are in range. *)
Theorem single_seed_comes_first :
  forall self seed capacity,
  1 <= capacity ->
  (forall result calls,
     SearchRelatedWithSeeds self [seed] capacity = Ok (result, calls) ->
     exists rest, result = seed :: rest) /\
  (related_tame self [seed] capacity ->
   exists rest calls,
     SearchRelatedWithSeeds self [seed] capacity = Ok (seed :: rest, calls)).
Proof.
  intros self seed capacity Hc.
  assert (Hfirst : forall result calls,
            SearchRelatedWithSeeds self [seed] capacity = Ok (result, calls) ->
            exists rest, result = seed :: rest).
  { intros result calls Hr.
    pose proof (SearchRelatedWithSeeds_spec self [seed] capacity) as Hs.
    rewrite Hr in Hs. simpl in Hs.
    destruct Hs as (sf & wc & result' & _ & _ & He & -> & _).
    pose proof (ExpandEntries_state_spec self sf wc [seed]) as Hst.
    unfold ExpandEntries in He.
    destruct (ExpandEntries_state self sf wc [seed]) as [st|e|]; try discriminate.
    simpl in He, Hst. injection He as <- _.
    destruct Hst as (st0 & Hseed & Hv & Hinv0 & _ & _ & _ & Hh & _).
    destruct (seed_loop_single self sf seed st0 Hseed) as [score ->].
    set (c0 := {| c_neg_score := (- score)%float; c_steps := 0; c_entry := seed |}).
    assert (Hpop0 : heappop (st_seeds (pushed (check_word initial_state (e_word seed))
                                              score seed)) = Some (c0, [])).
    { reflexivity. }
    inversion Hv as [st' E1 E2|st' c rest st1' st'' Hpop Hbody Hv' E1 E2].
    - rewrite <- E2 in Hh. discriminate.
    - rewrite Hpop0 in Hpop. injection Hpop as <- <-.
      pose proof (expand_body_spec self sf wc [seed] _ _ _ Hinv0 Hpop0) as Hb.
      rewrite Hbody in Hb. simpl in Hb. destruct Hb as (Hinv1 & Hr1 & _).
      destruct (visits_inv self sf wc [seed] _ _ Hv' Hinv1) as [_ [more Hmore]].
      rewrite Hr1 in Hmore. simpl in Hmore.
      rewrite Hmore. unfold slice_to.
      destruct (0 <=? capacity) eqn:E; [|lia].
      destruct (Z.to_nat capacity) as [|n] eqn:En; [lia|].
      simpl. eauto. }
  split; [exact Hfirst|].
  intros Ht.
  destruct (outcome_returns _ _ _ (related_tame_no_excuse _ _ _ Ht)
              (SearchRelatedWithSeeds_spec self [seed] capacity))
    as [[result calls] [Hr _]].
  destruct (Hfirst _ _ Hr) as [rest ->]. eauto.
Qed.

Lemma single_seed_comes_first_witness :
  exists rest calls,
    SearchRelatedWithSeeds Example.searcher [Example.pear] 3
      = Ok (Example.pear :: rest, calls).
Proof.
  apply (single_seed_comes_first Example.searcher Example.pear 3); [lia|].
  split; [lia|]. eexists. split; [vm_compute; reflexivity|].
  apply example_tame; [vm_compute; reflexivity|among].
Defined.

(** C3: the model is a function of the store and of the inputs, so two
    invocations with identical inputs have identical outcomes.  The order of
    the pops is fixed by the tuples alone: whenever the loop pops, every
    pending candidate carries the negated score of its entry, the
    discovery numbers of the pending candidates are pairwise distinct and
    below the counter [num_steps] (which each push takes and increments), no
    pending candidate is less than the popped one, a pending candidate with
    the same score was discovered later, and any other layout of the same
    heap (with comparable scores) pops the same candidate. *)
Theorem pop_order_determined :
  forall self seed_features capacity seed_entries st0 st c rest,
  seed_loop self seed_features seed_entries initial_state = Ok st0 ->
  visits self seed_features capacity st0 st ->
  heappop (st_seeds st) = Some (c, rest) ->
  (forall self' seed_entries' seed_features' capacity',
     self' = self -> seed_entries' = seed_entries ->
     seed_features' = seed_features -> capacity' = capacity ->
     ExpandEntries self' seed_entries' seed_features' capacity'
       = ExpandEntries self seed_entries seed_features capacity) /\
  Forall (candidate_ok self seed_features seed_entries) (st_seeds st) /\
  heap_wf (st_seeds st) (st_num_steps st) /\
  st_seeds st ≡ₚ c :: rest /\
  (forall y, y ∈ st_seeds st -> cand_lt y c = false) /\
  (forall y, y ∈ rest ->
     (c_neg_score y =? c_neg_score c)%float = true -> c_steps c < c_steps y) /\
  (forall h', h' ≡ₚ st_seeds st -> Forall comparable h' ->
     exists rest', heappop h' = Some (c, rest') /\ rest' ≡ₚ rest).
Proof.
  intros self sf capacity seeds st0 st c rest Hseed Hv Hpop.
  pose proof (seed_loop_spec self sf capacity seeds seeds initial_state
                (initial_state_ok self sf seeds) (seeds_known self seeds)) as Hinv0.
  rewrite Hseed in Hinv0. simpl in Hinv0. destruct Hinv0 as [Hinv0 _].
  destruct (visits_inv self sf capacity seeds st0 st Hv Hinv0) as [[[_ _ _ _ Hwf] Hp] _].
  pose proof (heappop_perm _ _ _ (proj1 Hwf) Hpop) as Hperm.
  split_and!.
  - intros; subst; reflexivity.
  - exact Hp.
  - exact Hwf.
  - exact Hperm.
  - apply (heappop_least _ _ _ Hpop).
  - intros y Hy Heq.
    assert (Hin : y ∈ st_seeds st) by (rewrite Hperm; right; exact Hy).
    pose proof (heappop_least _ _ _ Hpop y Hin) as Hlt.
    unfold cand_lt in Hlt. rewrite Heq in Hlt. apply Z.ltb_ge in Hlt.
    destruct (Z.eq_dec (c_steps c) (c_steps y)) as [E|E]; [|lia].
    exfalso. destruct Hwf as [Hnd _]. rewrite Hperm in Hnd. simpl in Hnd.
    apply NoDup_cons in Hnd. destruct Hnd as [Hc _]. apply Hc.
    rewrite E. apply list_elem_of_fmap. eauto.
  - intros h' Hp' Hcmp. apply (heappop_layout (st_seeds st)); auto. apply Hwf.
Qed.

Lemma pop_order_determined_witness :
  exists st0 c rest,
    seed_loop Example.searcher [("apple", 1%float)] [Example.apple; Example.pear]
      initial_state = Ok st0 /\
    heappop (st_seeds st0) = Some (c, rest) /\
    c_entry c = Example.apple /\
    forall y, y ∈ st_seeds st0 -> cand_lt y c = false.
Proof.
  eexists _, _, _. split; [vm_compute; reflexivity|].
  split; [vm_compute; reflexivity|]. split; [reflexivity|].
  eapply (pop_order_determined Example.searcher [("apple", 1%float)] 10
            [Example.apple; Example.pear]).
  - vm_compute. reflexivity.
  - apply visits_here.
  - vm_compute. reflexivity.
Defined.

(** ** The facade with a capacity of 0 or less *)

Section NoCapacity.
Variable self : UnionSearcher.
Variable capacity : Z.
Hypothesis capacity_nonpos : capacity <= 0.

Lemma exact_words_nonpos words uniq_words calls :
  exact_words self words capacity [] uniq_words calls = ([], calls).
Proof using capacity_nonpos.
  destruct words as [|word rest]; simpl; [reflexivity|].
  destruct (capacity <=? len []) eqn:E; [reflexivity|].
  apply Z.leb_gt in E. unfold len in E. simpl in E. lia.
Qed.

Lemma SearchExact_nonpos text : SearchExact self text capacity = ([], []).
Proof using capacity_nonpos. apply exact_words_nonpos. Qed.

Lemma reverse_en_words_calls ja_words : forall en_words en_uniq_words calls,
  Forall is_index_call calls ->
  Forall is_index_call (snd (reverse_en_words self ja_words en_words en_uniq_words calls)).
Proof.
  induction ja_words as [|ja_word rest IH]; intros en uniq calls H; simpl; [exact H|].
  destruct (reverse_en_hits _ en uniq) as [en' uniq'].
  apply IH. apply Forall_app. split; [exact H|]. apply Forall_singleton. exact I.
Qed.









End NoCapacity.




(** C6 (amended): [GetFeatures] returns for every entry.  The normalized
    headword has weight exactly 1.0 unless it is itself one of the entry's
    part-of-speech pseudo-tokens (["__" + pos]), whose normalized score then
    replaces it.  The [k]-th newly introduced token of the related,
    translation and co-occurrence passes (in that order, at most 20 items
    read per pass, tokens already present skipped without a decay step) has
    weight [0.95^k], computed by [k] multiplications of one counter that is
    never reset between the passes. *)
Theorem GetFeatures_weights :
  forall self entry,
  exists features,
    GetFeatures self entry = Ok features /\
    (NormalizeWord self (e_word entry) ∉ pos_tokens entry ->
     dict_get features (NormalizeWord self (e_word entry)) = Some 1%float) /\
    (forall k t,
       new_tokens self entry !! k = Some t ->
       dict_get features t = Some (decay_pow (S k))).
Proof. intros self entry. apply GetFeatures_weights_of. Qed.

(** C6, as stated, fails: the headword "__verb" of an entry whose second
    sense is a verb gets the weight of that part of speech, 0.95. *)
Lemma headword_weight_overwritten :
  match GetFeatures Example.searcher Example.tagged with
  | Ok features =>
      dict_get features (NormalizeWord Example.searcher (e_word Example.tagged))
        = Some 0.95%float
  | _ => False
  end.
Proof. vm_compute. reflexivity. Qed.

(** ** The aggregation of the seed features *)

Section SeedWeights.
Variable self : UnionSearcher.

Lemma seed_weight_at_middle done seed rest :
  seed_weight_at self (done ++ seed :: rest) (length done) =
  seed_weight (base_weight_at (length done))
              (list_to_set (map (fun s => NormalizeWord self (e_word s)) done))
              (NormalizeWord self (e_word seed)).
Proof.
  unfold seed_weight_at, seed_weight. rewrite map_app. simpl.
  set (nd := map (fun s => NormalizeWord self (e_word s)) done).
  replace (length done) with (length nd) by apply length_map.
  rewrite list_lookup_middle by reflexivity.
  rewrite take_app_length.
  destruct (decide (NormalizeWord self (e_word seed) ∈ nd)) as [H|H].
  - rewrite bool_decide_eq_true_2 by (apply elem_of_list_to_set; exact H). reflexivity.
  - rewrite bool_decide_eq_false_2 by (rewrite elem_of_list_to_set; exact H). reflexivity.
Qed.

Lemma aggregate_seeds_weights rest : forall done seed_features,
  exists fs,
    Forall2 (fun seed f => GetFeatures self seed = Ok f) rest fs /\
    aggregate_seeds self rest seed_features (base_weight_at (length done))
      (list_to_set (map (fun s => NormalizeWord self (e_word s)) done))
    = Ok (weighted_union fs
            (map (seed_weight_at self (done ++ rest)) (seq (length done) (length rest)))
            seed_features).
Proof.
  induction rest as [|seed rest IH]; intros done sf; simpl.
  - exists []. split; [constructor|reflexivity].
  - destruct (GetFeatures_total self seed) as [f Hf]. rewrite Hf. simpl.
    destruct (IH (done ++ [seed])
                 (add_features f
                    (seed_weight (base_weight_at (length done))
                       (list_to_set (map (fun s => NormalizeWord self (e_word s)) done))
                       (NormalizeWord self (e_word seed))) sf)) as [fs [Hfs Hagg]].
    exists (f :: fs). split; [constructor; assumption|].
    rewrite length_app, Nat.add_1_r in Hagg. simpl in Hagg.
    rewrite map_app, list_to_set_app_L in Hagg. simpl in Hagg.
    rewrite <- app_assoc in Hagg. simpl in Hagg.
    rewrite seed_weight_at_middle. cbn [weighted_union].
    rewrite <- Hagg. f_equal. set_solver.
Qed.
End SeedWeights.

(** C5 (amended): the seed features are the weighted sum of the feature
    vectors of the seeds, the [i]-th seed entering with its base weight,
    times 0.1 when its normalized headword is that of an earlier seed.  The
    base weight starts at 1.0 and is multiplied by 0.8 after every seed,
    repeated or not.  So of two seeds with the same normalized headword the
    second enters with weight [(1.0 * 0.8) * 0.1], the first with 1.0. *)
Theorem seed_weights_aggregated :
  forall self seeds,
  (exists fs,
     Forall2 (fun seed f => GetFeatures self seed = Ok f) seeds fs /\
     aggregate_seeds self seeds [] 1%float ∅
       = Ok (weighted_union fs
               (map (seed_weight_at self seeds) (seq 0 (length seeds))) [])) /\
  base_weight_at 0 = 1%float /\
  (forall i, base_weight_at (S i) = (base_weight_at i * 0.8)%float) /\
  (forall s1 s2,
     NormalizeWord self (e_word s1) = NormalizeWord self (e_word s2) ->
     seed_weight_at self [s1; s2] 0 = 1%float /\
     seed_weight_at self [s1; s2] 1 = (1 * 0.8 * 0.1)%float).
Proof.
  intros self seeds. split_and!.
  - exact (aggregate_seeds_weights self seeds [] []).
  - reflexivity.
  - reflexivity.
  - intros s1 s2 Heq. unfold seed_weight_at. simpl. rewrite Heq. split.
    + reflexivity.
    + case_decide as H; [reflexivity|]. exfalso. apply H. left.
Qed.

(** C5, as stated, fails: the second of two seeds with the same normalized
    headword enters with 0.08 (more exactly, the double next above it), not
    with 0.1 times the weight of the first, and the headword feature
    aggregates to 1.08, not to 1.1. *)
Lemma duplicate_seed_weight :
  seed_weight_at Example.searcher [Example.apple; Example.Apple] 0 = 1%float /\
  seed_weight_at Example.searcher [Example.apple; Example.Apple] 1
    = 0.080000000000000016%float /\
  (0.1 * 1)%float = 0.1%float /\
  match aggregate_seeds Example.searcher [Example.apple; Example.Apple] [] 1%float ∅ with
  | Ok seed_features => dict_get seed_features "apple" = Some 1.0800000000000001%float
  | _ => False
  end.
Proof. vm_compute. split_and!; reflexivity. Qed.

(** ** The similarity score *)

Section SimilarityFacts.
Import FloatFacts.










End SimilarityFacts.



(** C10: no division by zero is reachable.  [GetFeatures] returns for every
    entry: its only division is by [pos_score_max], which is positive as soon
    as one sense item was processed and is not used when there is none.
    [GetSimilarity] never raises [ZeroDivisionError]: it divides only when
    both norms are not zero, and then the divisor, the product of their
    square roots, is not zero either.  The remaining division of the file,
    by [math.log2(len(result) + 1)] in [ExpandEntries], has an argument of
    at least 2: it raises only if the logarithm is 0 there, and with it
    [ExpandEntries] and [SearchRelatedWithSeeds]. *)
Theorem no_division_by_zero :
  (forall self entry,
     exists features, GetFeatures self entry = Ok features) /\
  (forall item rest, (0 <? snd (pos_loop (item :: rest) [] 1 0))%float = true) /\
  (forall seed_features cand_features,
     GetSimilarity seed_features cand_features <> Raise ZeroDivisionError) /\
  (forall product seed_norm cand_norm,
     SF.nonneg (Prim2SF seed_norm) -> SF.nonneg (Prim2SF cand_norm) ->
     (seed_norm =? 0)%float = false -> (cand_norm =? 0)%float = false ->
     exists q,
       PyFloat.truediv product
         (PyFloat.pow_half seed_norm * PyFloat.pow_half cand_norm)%float = Ok q) /\
  (forall self st entry rest base least score,
     log2_nonzero self ->
     fan_out self base least (st_result (start_pop st entry rest)) score
       <> Raise ZeroDivisionError) /\
  (forall self seed_entries seed_features capacity,
     log2_nonzero self ->
     ExpandEntries self seed_entries seed_features capacity <> Raise ZeroDivisionError /\
     SearchRelatedWithSeeds self seed_entries capacity <> Raise ZeroDivisionError).
Proof.
  split_and!.
  - intros. apply GetFeatures_total.
  - intros. apply pos_loop_positive.
  - intros sf cf H. pose proof (GetSimilarity_cases sf cf) as Hc.
    rewrite H in Hc. discriminate.
  - intros p sn cn Hs Hc Es Ec. unfold PyFloat.truediv, PyFloat.pow_half.
    rewrite (FloatFacts.sqrt_product_nonzero sn cn Hs Hc Es Ec). eauto.
  - intros self st entry rest base least score Hl H.
    pose proof (FloatFacts.fan_out_cases self base least
                  (st_result (start_pop st entry rest)) score) as Hc.
    rewrite H in Hc. rewrite Hl in Hc; [discriminate|].
    unfold start_pop, len. simpl. rewrite length_app. simpl. lia.
  - intros self seeds sf capacity Hl. split; intros H.
    + apply (outcome_raise _ _ _ _ (ExpandEntries_spec self seeds sf capacity) H), Hl.
    + apply (outcome_raise _ _ _ _ (SearchRelatedWithSeeds_spec self seeds capacity) H), Hl.
Qed.

(** * The lookups and the bookkeeping of the expansion *)

(** ** SearchExact *)

Section ExactFacts.
Variable self : UnionSearcher.

(** The inner loop appends entries of the list it reads, never beyond the
    capacity and never a headword already met. *)
Lemma exact_entries_spec entries capacity : forall result uniq_words,
  exists more,
    exact_entries entries capacity result uniq_words
      = (result ++ more, list_to_set (map e_word more) ∪ uniq_words) /\
    (len result <= capacity -> len (result ++ more) <= capacity) /\
    Forall (fun e => e ∈ entries) more /\
    NoDup (map e_word more) /\
    (forall e, e ∈ more -> e_word e ∉ uniq_words).
Proof.
  induction entries as [|entry rest IH]; intros result uniq; simpl.
  - exists []. rewrite app_nil_r. split_and!; auto; try constructor.
    + f_equal. set_solver.
    + intros e He. inversion He.
  - destruct (capacity <=? len result) eqn:Ecap.
    { exists []. rewrite app_nil_r. split_and!; auto; try constructor.
      + f_equal. set_solver.
      + intros e He. inversion He. }
    apply Z.leb_gt in Ecap.
    destruct (bool_decide (e_word entry ∈ uniq)) eqn:Ein.
    + destruct (IH result uniq) as (more & -> & Hlen & Hin & Hnd & Hfresh).
      exists more. split_and!; auto.
      eapply Forall_impl; [exact Hin|]. intros e He. right. exact He.
    + apply bool_decide_eq_false in Ein.
      destruct (IH (result ++ [entry]) ({[e_word entry]} ∪ uniq))
        as (more & -> & Hlen & Hin & Hnd & Hfresh).
      exists (entry :: more). rewrite <- app_assoc. simpl. split_and!.
      * f_equal. set_solver.
      * intros _. rewrite <- app_assoc in Hlen. simpl in Hlen. apply Hlen.
        unfold len in *. rewrite length_app. simpl. lia.
      * constructor; [left|].
        eapply Forall_impl; [exact Hin|]. intros e He. right. exact He.
      * constructor; [|exact Hnd]. intros Hw. apply list_elem_of_fmap in Hw.
        destruct Hw as (e & He & Hein). apply (Hfresh e Hein). set_solver.
      * intros e He. apply elem_of_cons in He. destruct He as [->|He]; [exact Ein|].
        specialize (Hfresh e He). set_solver.
Qed.

Lemma str_empty_false s : str_empty s = false -> s <> "".
Proof. destruct s; simpl; congruence. Qed.

Lemma str_empty_true s : str_empty s = true -> s = "".
Proof. destruct s; simpl; congruence. Qed.

Lemma exact_words_spec words capacity : forall result uniq_words calls,
  exists more lookups,
    exact_words self words capacity result uniq_words calls
      = (result ++ more, calls ++ lookups) /\
    (len result <= capacity -> len (result ++ more) <= capacity) /\
    Forall (found_for self words) more /\
    NoDup (map e_word more) /\
    (forall e, e ∈ more -> e_word e ∉ uniq_words) /\
    Forall (lookup_of self words) lookups /\
    (length lookups <= length words)%nat.
Proof.
  induction words as [|word rest IH]; intros result uniq calls; simpl.
  - exists [], []. rewrite !app_nil_r. split_and!; auto; try constructor.
    intros e He. inversion He.
  - assert (Hweak : forall e, found_for self rest e -> found_for self (word :: rest) e).
    { intros e (w & es & Hw & H). exists w, es. split; [right; exact Hw|exact H]. }
    assert (Hweak' : forall c, lookup_of self rest c -> lookup_of self (word :: rest) c).
    { intros c (w & Hw & H). exists w. split; [right; exact Hw|exact H]. }
    destruct (capacity <=? len result) eqn:Ecap.
    { exists [], []. rewrite !app_nil_r. split_and!; auto; try constructor.
      - intros e He. inversion He.
      - simpl. lia. }
    destruct (str_empty (NormalizeWord self word)) eqn:Eempty.
    { destruct (IH result uniq calls) as (more & lookups & -> & H1 & H2 & H3 & H4 & H5 & H6).
      exists more, lookups. split_and!; auto.
      - eapply Forall_impl; [exact H2|exact Hweak].
      - eapply Forall_impl; [exact H5|exact Hweak']. }
    apply str_empty_false in Eempty.
    assert (Hcall : lookup_of self (word :: rest) (BodyGet (NormalizeWord self word))).
    { exists word. split; [left|]. auto. }
    destruct (body_dbm self (NormalizeWord self word)) as [[|e es]|] eqn:Ebody.
    + destruct (IH result uniq (calls ++ [BodyGet (NormalizeWord self word)]))
        as (more & lookups & -> & H1 & H2 & H3 & H4 & H5 & H6).
      exists more, (BodyGet (NormalizeWord self word) :: lookups).
      rewrite <- app_assoc. simpl. split_and!; auto; try lia.
      * eapply Forall_impl; [exact H2|exact Hweak].
      * constructor; [exact Hcall|]. eapply Forall_impl; [exact H5|exact Hweak'].
    + destruct (exact_entries_spec (e :: es) capacity result uniq)
        as (m1 & -> & L1 & I1 & N1 & F1).
      destruct (IH (result ++ m1) (list_to_set (map e_word m1) ∪ uniq)
                   (calls ++ [BodyGet (NormalizeWord self word)]))
        as (more & lookups & -> & H1 & H2 & H3 & H4 & H5 & H6).
      exists (m1 ++ more), (BodyGet (NormalizeWord self word) :: lookups).
      rewrite <- !app_assoc. simpl. split_and!; auto; try lia.
      * intros Hlen. rewrite app_assoc. apply H1, L1, Hlen.
      * apply Forall_app. split.
        -- eapply Forall_impl; [exact I1|]. intros x Hx.
           exists word, (e :: es). split_and!; auto. left.
        -- eapply Forall_impl; [exact H2|exact Hweak].
      * rewrite map_app. apply NoDup_app. split_and!; auto.
        intros w Hw1 Hw2. apply list_elem_of_fmap in Hw2. destruct Hw2 as (x & -> & Hx).
        apply (H4 x Hx). set_solver.
      * intros x Hx. apply elem_of_app in Hx. destruct Hx as [Hx|Hx]; [apply F1, Hx|].
        specialize (H4 x Hx). set_solver.
      * constructor; [exact Hcall|]. eapply Forall_impl; [exact H5|exact Hweak'].
    + destruct (IH result uniq (calls ++ [BodyGet (NormalizeWord self word)]))
        as (more & lookups & -> & H1 & H2 & H3 & H4 & H5 & H6).
      exists more, (BodyGet (NormalizeWord self word) :: lookups).
      rewrite <- app_assoc. simpl. split_and!; auto; try lia.
      * eapply Forall_impl; [exact H2|exact Hweak].
      * constructor; [exact Hcall|]. eapply Forall_impl; [exact H5|exact Hweak'].
Qed.
End ExactFacts.

Section ExactPrefix.
Variable self : UnionSearcher.

Lemma take_full {A} (l more : list A) n :
  Z.of_nat (length l) = n -> take (Z.to_nat n) (l ++ more) = l.
Proof.
  intros <-. rewrite Nat2Z.id. rewrite take_app_length. reflexivity.
Qed.

(** With a smaller capacity the inner loop stops earlier on the same list. *)
Lemma exact_entries_prefix entries c c' : forall result uniq_words,
  c <= c' -> len result <= c ->
  fst (exact_entries entries c result uniq_words)
    = take (Z.to_nat c) (fst (exact_entries entries c' result uniq_words)) /\
  (len (fst (exact_entries entries c result uniq_words)) < c ->
   exact_entries entries c result uniq_words = exact_entries entries c' result uniq_words).
Proof.
  induction entries as [|entry rest IH]; intros result uniq Hc Hlen; simpl.
  - split; [|reflexivity]. unfold len in Hlen. rewrite take_ge; [reflexivity|lia].
  - destruct (c <=? len result) eqn:E1.
    + apply Z.leb_le in E1. simpl. split; [|lia].
      assert (Heq : len result = c) by lia.
      destruct (c' <=? len result).
      * simpl. unfold len in *. rewrite take_ge; [reflexivity|lia].
      * destruct (bool_decide _);
          match goal with |- context [exact_entries rest c' ?r ?u] =>
            destruct (exact_entries_spec rest c' r u) as (more & -> & _) end;
          simpl; rewrite <- ?app_assoc; symmetry; apply take_full; exact Heq.
    + apply Z.leb_gt in E1.
      destruct (c' <=? len result) eqn:E2; [apply Z.leb_le in E2; lia|].
      destruct (bool_decide _); apply IH; auto.
      unfold len in *. rewrite length_app. simpl. lia.
Qed.

Lemma exact_words_full words c result uniq_words calls :
  c <= len result -> fst (exact_words self words c result uniq_words calls) = result.
Proof.
  intros H. destruct words; simpl; [reflexivity|].
  rewrite (proj2 (Z.leb_le _ _) H). reflexivity.
Qed.

Lemma exact_words_extends words c result uniq_words calls :
  exists more, fst (exact_words self words c result uniq_words calls) = result ++ more.
Proof.
  destruct (exact_words_spec self words c result uniq_words calls)
    as (more & lookups & -> & _). eauto.
Qed.

Lemma exact_words_prefix words c c' : forall result uniq_words calls,
  c <= c' -> len result <= c ->
  fst (exact_words self words c result uniq_words calls)
    = take (Z.to_nat c) (fst (exact_words self words c' result uniq_words calls)).
Proof.
  induction words as [|word rest IH]; intros result uniq calls Hc Hlen.
  - simpl. unfold len in Hlen. rewrite take_ge; [reflexivity|lia].
  - destruct (Z.eq_dec (len result) c) as [Hfull|Hless].
    + rewrite exact_words_full by lia.
      destruct (exact_words_extends (word :: rest) c' result uniq calls) as [more ->].
      symmetry. apply take_full. exact Hfull.
    + simpl. rewrite (proj2 (Z.leb_gt c (len result))) by lia.
      rewrite (proj2 (Z.leb_gt c' (len result))) by lia.
      destruct (str_empty _); [apply IH; auto|].
      destruct (body_dbm self _) as [entries|]; [|apply IH; auto].
      destruct entries as [|e es]; [apply IH; auto|].
      destruct (exact_entries_prefix (e :: es) c c' result uniq Hc Hlen) as [Hp Hsame].
      destruct (exact_entries_spec (e :: es) c result uniq) as (m1 & E1 & L1 & _).
      specialize (L1 Hlen).
      cbv beta iota.
      destruct (exact_entries (e :: es) c result uniq) as [r1 u1].
      destruct (exact_entries (e :: es) c' result uniq) as [r2 u2].
      injection E1 as -> _. simpl in Hp, Hsame.
      destruct (Z.eq_dec (len (result ++ m1)) c) as [Hf|Hl].
      * rewrite exact_words_full by lia.
        match goal with |- context [exact_words self rest c' r2 u2 ?k] =>
          destruct (exact_words_extends rest c' r2 u2 k) as [more ->] end.
        rewrite take_app_le.
        -- exact Hp.
        -- assert (Hn : length (result ++ m1) = Z.to_nat c) by (unfold len in Hf; lia).
           rewrite Hp, length_take in Hn. lia.
      * injection (Hsame ltac:(lia)) as <- <-. apply IH; [exact Hc|lia].
Qed.
End ExactPrefix.

Section ReverseFacts.
Variable self : UnionSearcher.

Lemma reverse_ja_words_in words : forall ja_words ja_uniq_words j,
  j ∈ reverse_ja_words self words ja_words ja_uniq_words ->
  j ∈ ja_words \/ exists w, w ∈ words /\ j = NormalizeWord self w /\ j <> "".
Proof.
  induction words as [|word rest IH]; intros acc uniq j Hj; simpl in Hj; [auto|].
  assert (Hweak : (exists w, w ∈ rest /\ j = NormalizeWord self w /\ j <> "") ->
                  exists w, w ∈ word :: rest /\ j = NormalizeWord self w /\ j <> "").
  { intros (w & Hw & H). exists w. split; [right; exact Hw|exact H]. }
  destruct (str_empty (NormalizeWord self word)) eqn:E.
  - destruct (IH _ _ _ Hj) as [H|H]; auto.
  - apply str_empty_false in E.
    destruct (bool_decide _).
    + destruct (IH _ _ _ Hj) as [H|H]; auto.
    + destruct (IH _ _ _ Hj) as [H|H]; auto.
      apply elem_of_app in H. destruct H as [H|H]; [auto|].
      apply list_elem_of_singleton in H. subst j. right. exists word.
      split; [left|]. auto.
Qed.

Lemma reverse_ja_words_blank words : forall ja_words ja_uniq_words,
  Forall (fun w => NormalizeWord self w = "") words ->
  reverse_ja_words self words ja_words ja_uniq_words = ja_words.
Proof.
  induction words as [|word rest IH]; intros acc uniq H; simpl; [reflexivity|].
  apply Forall_cons in H. destruct H as [-> H]. simpl. apply IH, H.
Qed.

Lemma reverse_match_confirmed words ja_words e :
  (forall j, j ∈ ja_words -> exists w, w ∈ words /\ j = NormalizeWord self w /\ j <> "") ->
  reverse_match self ja_words e = true -> confirmed_by self words e.
Proof.
  intros Hja Hm. unfold reverse_match in Hm.
  apply existsb_exists in Hm. destruct Hm as (tran & Ht & Hm).
  apply existsb_exists in Hm. destruct Hm as (j & Hj & Hc).
  apply list_elem_of_In in Ht, Hj.
  destruct (Hja j Hj) as (w & Hw & -> & Hne).
  exists tran, w. auto.
Qed.

Lemma reverse_entries_spec ja_words entries : forall capacity result uniq_words,
  exists more uniq_words',
    reverse_entries self ja_words entries capacity result uniq_words
      = (result ++ more, uniq_words', capacity - len more) /\
    (0 <= capacity -> len more <= capacity) /\
    (capacity <= 0 -> more = []) /\
    Forall (fun e => e ∈ entries /\ reverse_match self ja_words e = true) more /\
    NoDup (map e_word more) /\
    (forall e, e ∈ more -> e_word e ∉ uniq_words) /\
    uniq_words ⊆ uniq_words' /\
    (forall e, e ∈ more -> e_word e ∈ uniq_words').
Proof.
  induction entries as [|entry rest IH]; intros capacity result uniq; simpl.
  - exists [], uniq. rewrite app_nil_r. unfold len. simpl. rewrite Z.sub_0_r.
    split_and!; auto; try constructor; try lia; intros e He; inversion He.
  - destruct (capacity <? 1) eqn:Ecap.
    { exists [], uniq. rewrite app_nil_r. unfold len. simpl. rewrite Z.sub_0_r.
      split_and!; auto; try constructor; try lia; intros e He; inversion He. }
    apply Z.ltb_ge in Ecap.
    assert (Hweak : forall more,
              Forall (fun e => e ∈ rest /\ reverse_match self ja_words e = true) more ->
              Forall (fun e => e ∈ entry :: rest /\ reverse_match self ja_words e = true)
                     more).
    { intros more Hm. eapply Forall_impl; [exact Hm|].
      intros e [He He']. split; [right; exact He|exact He']. }
    destruct (bool_decide (e_word entry ∈ uniq)) eqn:Ein.
    + destruct (IH capacity result uniq) as (more & u' & -> & H1 & H0 & H2 & H3 & H4 & H5 & H6).
      exists more, u'. split_and!; auto.
    + apply bool_decide_eq_false in Ein.
      destruct (reverse_match self ja_words entry) eqn:Em.
      * destruct (IH (capacity - 1) (result ++ [entry]) ({[e_word entry]} ∪ uniq))
          as (more & u' & -> & H1 & H0 & H2 & H3 & H4 & H5 & H6).
        exists (entry :: more), u'. rewrite <- app_assoc. simpl.
        split_and!.
        -- f_equal. unfold len. simpl length. lia.
        -- intros Hc. specialize (H1 ltac:(lia)). unfold len in *. simpl length. lia.
        -- intros Hc. lia.
        -- constructor; [split; [left|exact Em]|]. apply Hweak, H2.
        -- constructor; [|exact H3]. intros Hw. apply list_elem_of_fmap in Hw.
           destruct Hw as (e & He & Hein). apply (H4 e Hein). set_solver.
        -- intros e He. apply elem_of_cons in He. destruct He as [->|He]; [exact Ein|].
           specialize (H4 e He). set_solver.
        -- set_solver.
        -- intros e He. apply elem_of_cons in He. destruct He as [->|He]; [set_solver|].
           apply H6, He.
      * destruct (IH capacity result ({[e_word entry]} ∪ uniq))
          as (more & u' & -> & H1 & H0 & H2 & H3 & H4 & H5 & H6).
        exists more, u'. split_and!; auto.
        -- intros e He. specialize (H4 e He). set_solver.
        -- set_solver.
Qed.

Lemma reverse_results_spec ja_words en_words : forall capacity result uniq_words calls,
  exists more lookups,
    reverse_results self ja_words en_words capacity result uniq_words calls
      = (result ++ more, calls ++ lookups) /\
    (0 <= capacity -> len more <= capacity) /\
    (capacity <= 0 -> more = [] /\ lookups = []) /\
    Forall (fun e => stored self e /\ reverse_match self ja_words e = true) more /\
    NoDup (map e_word more) /\
    (forall e, e ∈ more -> e_word e ∉ uniq_words) /\
    Forall is_body_call lookups /\
    (length lookups <= length en_words)%nat.
Proof.
  induction en_words as [|en_word rest IH]; intros capacity result uniq calls; simpl.
  - exists [], []. rewrite !app_nil_r. unfold len. simpl.
    split_and!; auto; try constructor; try lia; intros e He; inversion He.
  - destruct (capacity <? 1) eqn:Ecap.
    { exists [], []. rewrite !app_nil_r. unfold len. simpl.
      split_and!; auto; try constructor; try lia; intros e He; inversion He. }
    apply Z.ltb_ge in Ecap.
    destruct (body_dbm self en_word) as [entries|] eqn:Ebody.
    + destruct entries as [|e es].
      * destruct (IH capacity result uniq (calls ++ [BodyGet en_word]))
          as (more & lookups & -> & H1 & H0 & H2 & H3 & H4 & H5 & H6).
        exists more, (BodyGet en_word :: lookups). rewrite <- app_assoc. simpl.
        split_and!; auto; try lia. constructor; [exact I|exact H5].
      * destruct (reverse_entries_spec ja_words (e :: es) capacity result uniq)
          as (m1 & u1 & E1 & L1 & Z1 & I1 & N1 & F1 & S1 & W1).
        cbv beta iota. rewrite E1.
        destruct (IH (capacity - len m1) (result ++ m1) u1 (calls ++ [BodyGet en_word]))
          as (more & lookups & -> & H1 & H0 & H2 & H3 & H4 & H5 & H6).
        exists (m1 ++ more), (BodyGet en_word :: lookups). rewrite <- !app_assoc. simpl.
        split_and!; auto; try lia.
        -- intros Hc. specialize (L1 Hc). specialize (H1 ltac:(lia)).
           unfold len in *. rewrite length_app. lia.
        -- apply Forall_app. split; [|exact H2].
           eapply Forall_impl; [exact I1|]. intros x [Hx Hm]. split; [|exact Hm].
           exists en_word, (e :: es). auto.
        -- rewrite map_app. apply NoDup_app. split_and!; auto.
           intros w Hw1 Hw2. apply list_elem_of_fmap in Hw1, Hw2.
           destruct Hw1 as (x & -> & Hx). destruct Hw2 as (y & Hxy & Hy).
           apply (H4 y Hy). rewrite <- Hxy. apply W1, Hx.
        -- intros x Hx. apply elem_of_app in Hx. destruct Hx as [Hx|Hx]; [apply F1, Hx|].
           specialize (H4 x Hx). set_solver.
        -- constructor; [exact I|exact H5].
    + destruct (IH capacity result uniq (calls ++ [BodyGet en_word]))
        as (more & lookups & -> & H1 & H0 & H2 & H3 & H4 & H5 & H6).
      exists more, (BodyGet en_word :: lookups). rewrite <- app_assoc. simpl.
      split_and!; auto; try lia. constructor; [exact I|exact H5].
Qed.

Lemma reverse_en_words_length ja_words : forall en_words en_uniq_words calls,
  length (snd (reverse_en_words self ja_words en_words en_uniq_words calls))
    = (length calls + length ja_words)%nat.
Proof.
  induction ja_words as [|ja_word rest IH]; intros en uniq calls; simpl; [lia|].
  destruct (reverse_en_hits _ en uniq) as [en' uniq'].
  rewrite IH, length_app. simpl. lia.
Qed.
End ReverseFacts.

Section LookupFacts.
Variable self : UnionSearcher.

Lemma exact_words_blank words capacity : forall result uniq_words calls,
  Forall (fun w => NormalizeWord self w = "") words ->
  exact_words self words capacity result uniq_words calls = (result, calls).
Proof.
  induction words as [|word rest IH]; intros result uniq calls H; simpl; [reflexivity|].
  apply Forall_cons in H. destruct H as [-> H]. simpl.
  destruct (capacity <=? len result); [reflexivity|]. apply IH, H.
Qed.

Lemma reverse_ja_words_length words : forall ja_words ja_uniq_words,
  (length (reverse_ja_words self words ja_words ja_uniq_words)
     <= length ja_words + length words)%nat.
Proof.
  induction words as [|word rest IH]; intros acc uniq; simpl; [lia|].
  destruct (str_empty _); [specialize (IH acc uniq); lia|].
  destruct (bool_decide _); [specialize (IH acc uniq); lia|].
  specialize (IH (acc ++ [NormalizeWord self word]) ({[NormalizeWord self word]} ∪ uniq)).
  rewrite length_app in IH. simpl in IH. lia.
Qed.
End LookupFacts.

(** X1: [SearchExact] returns at most [capacity] entries (for a capacity
    that is not negative), and no headword twice. *)
Theorem SearchExact_length_distinct :
  forall self text capacity,
  (0 <= capacity -> len (fst (SearchExact self text capacity)) <= capacity) /\
  NoDup (map e_word (fst (SearchExact self text capacity))).
Proof.
  intros self text capacity. unfold SearchExact.
  destruct (exact_words_spec self (split_on "," text) capacity [] ∅ [])
    as (more & lookups & -> & Hlen & _ & Hnd & _).
  simpl. split; [|exact Hnd].
  intros Hc. apply Hlen. unfold len. simpl. exact Hc.
Qed.

(** X2: every entry that [SearchExact] returns was read from the body
    database under the normalized form of one of the comma-separated words
    of the query; its storage calls are body lookups of such words, at most
    one per word, and words that normalize to the empty string are not
    looked up. *)
Theorem SearchExact_entries_and_calls :
  forall self text capacity,
  Forall (found_for self (split_on "," text)) (fst (SearchExact self text capacity)) /\
  Forall (lookup_of self (split_on "," text)) (snd (SearchExact self text capacity)) /\
  (length (snd (SearchExact self text capacity)) <= length (split_on "," text))%nat.
Proof.
  intros self text capacity. unfold SearchExact.
  destruct (exact_words_spec self (split_on "," text) capacity [] ∅ [])
    as (more & lookups & -> & _ & Hfound & _ & _ & Hcalls & Hn).
  simpl. auto.
Qed.

(** X3: the result for a smaller capacity is the beginning of the result
    for a larger one. *)
Theorem SearchExact_capacity_prefix :
  forall self text c c',
  c <= c' ->
  fst (SearchExact self text c) = take (Z.to_nat c) (fst (SearchExact self text c')).
Proof.
  intros self text c c' Hc. destruct (Z_le_gt_dec 0 c) as [H0|H0].
  - apply exact_words_prefix; [exact Hc|]. unfold len. simpl. exact H0.
  - rewrite (SearchExact_nonpos self c ltac:(lia)).
    replace (Z.to_nat c) with 0%nat by lia. reflexivity.
Qed.

Lemma SearchExact_capacity_prefix_witness :
  fst (SearchExact Example.searcher "apple" 1)
    = take (Z.to_nat 1) (fst (SearchExact Example.searcher "apple" 2)) /\
  fst (SearchExact Example.searcher "apple" 1) = [Example.apple] /\
  fst (SearchExact Example.searcher "apple" 2) = [Example.apple; Example.Apple].
Proof.
  split; [apply (SearchExact_capacity_prefix Example.searcher "apple" 1 2); lia|].
  split; vm_compute; reflexivity.
Defined.

(** X4: [SearchExactReverse] returns at most [capacity] entries (for a
    capacity that is not negative) and no headword twice; every entry it
    returns is an entry of the body database one of whose translations
    contains, after normalization, the normalized form of one of the
    comma-separated terms of the query. *)
Theorem SearchExactReverse_confirmed :
  forall self text capacity,
  (0 <= capacity -> len (fst (SearchExactReverse self text capacity)) <= capacity) /\
  NoDup (map e_word (fst (SearchExactReverse self text capacity))) /\
  Forall (fun e => stored self e /\ confirmed_by self (split_on "," text) e)
         (fst (SearchExactReverse self text capacity)).
Proof.
  intros self text capacity. unfold SearchExactReverse.
  set (ja_words := reverse_ja_words self (split_on "," text) [] ∅).
  assert (Hja : forall j, j ∈ ja_words ->
            exists w, w ∈ split_on "," text /\ j = NormalizeWord self w /\ j <> "").
  { intros j Hj. destruct (reverse_ja_words_in self _ _ _ _ Hj) as [H|H]; [inversion H|exact H]. }
  destruct (reverse_en_words self ja_words [] ∅ []) as [en_words calls].
  destruct (reverse_results_spec self ja_words en_words capacity [] ∅ calls)
    as (more & lookups & -> & Hlen & _ & Hin & Hnd & _).
  simpl. split_and!; auto.
  eapply Forall_impl; [exact Hin|]. intros e [Hs Hm]. split; [exact Hs|].
  apply (reverse_match_confirmed self _ ja_words); assumption.
Qed.

(** X5: [SearchExactReverse] reads the translation index first, at most
    once for each comma-separated term of the query, and only then looks
    candidates up in the body database; with a capacity of 0 or less no
    body lookup is made. *)
Theorem SearchExactReverse_calls :
  forall self text capacity,
  exists index_calls body_calls,
    snd (SearchExactReverse self text capacity) = index_calls ++ body_calls /\
    Forall is_index_call index_calls /\
    Forall is_body_call body_calls /\
    (length index_calls <= length (split_on "," text))%nat /\
    (capacity <= 0 -> body_calls = []).
Proof.
  intros self text capacity. unfold SearchExactReverse.
  set (ja_words := reverse_ja_words self (split_on "," text) [] ∅).
  pose proof (reverse_en_words_calls self ja_words [] ∅ [] (Forall_nil_2 _)) as Hidx.
  pose proof (reverse_en_words_length self ja_words [] ∅ []) as Hlen.
  pose proof (reverse_ja_words_length self (split_on "," text) [] ∅) as Hja.
  fold ja_words in Hja.
  destruct (reverse_en_words self ja_words [] ∅ []) as [en_words calls].
  simpl in Hidx, Hlen.
  destruct (reverse_results_spec self ja_words en_words capacity [] ∅ calls)
    as (more & lookups & -> & _ & Hzero & _ & _ & _ & Hbody & _).
  exists calls, lookups. simpl. split_and!; auto; [simpl in Hja; lia|].
  intros Hc. apply Hzero, Hc.
Qed.

(** X6: a query all of whose comma-separated parts normalize to the empty
    string (the empty query among them) returns nothing and issues no
    storage call, whatever the capacity. *)
Theorem blank_query_is_not_looked_up :
  forall self text capacity,
  Forall (fun w => NormalizeWord self w = "") (split_on "," text) ->
  SearchExact self text capacity = ([], []) /\
  SearchExactReverse self text capacity = ([], []).
Proof.
  intros self text capacity H. split.
  - apply exact_words_blank, H.
  - unfold SearchExactReverse. rewrite (reverse_ja_words_blank self _ _ _ H). reflexivity.
Qed.

Lemma blank_query_is_not_looked_up_witness :
  SearchExact Example.searcher "," 5 = ([], []) /\
  SearchExactReverse Example.searcher "," 5 = ([], []).
Proof.
  apply (blank_query_is_not_looked_up Example.searcher "," 5).
  repeat constructor.
Defined.

Section PatternFacts.
Variable self : UnionSearcher.

Lemma lookup_of_body words c : lookup_of self words c -> is_body_call c.
Proof. intros (w & _ & _ & ->). exact I. Qed.

(** What one [SearchExact] call contributes to a result that has room for
    [room] more entries. *)
Lemma SearchExact_room key room :
  0 <= room ->
  len (fst (SearchExact self key room)) <= room /\
  Forall (stored self) (fst (SearchExact self key room)) /\
  Forall is_body_call (snd (SearchExact self key room)).
Proof.
  intros Hroom. unfold SearchExact.
  pose proof (SearchExact_stored self key room) as Hst. unfold SearchExact in Hst.
  destruct (exact_words_spec self (split_on "," key) room [] ∅ [])
    as (more & lookups & E & Hlen & _ & _ & _ & Hcalls & _).
  rewrite E in Hst |- *. simpl in *. split_and!; auto.
  eapply Forall_impl; [exact Hcalls|]. apply lookup_of_body.
Qed.

Lemma pattern_keys_spec keys capacity : forall result calls,
  exists more lookups,
    pattern_keys self keys capacity result calls = (result ++ more, calls ++ lookups) /\
    (len result <= capacity -> len (result ++ more) <= capacity) /\
    Forall (stored self) more /\
    Forall is_body_call lookups.
Proof.
  induction keys as [|key rest IH]; intros result calls; simpl.
  - exists [], []. rewrite !app_nil_r. split_and!; auto; constructor.
  - destruct (capacity <=? len result) eqn:Ecap.
    { exists [], []. rewrite !app_nil_r. split_and!; auto; constructor. }
    apply Z.leb_gt in Ecap.
    destruct (SearchExact_room key (capacity - len result) ltac:(lia)) as (L & S & C).
    destruct (SearchExact self key (capacity - len result)) as [found c]. simpl in L, S, C.
    destruct (IH (result ++ found) (calls ++ c)) as (more & lookups & -> & H1 & H2 & H3).
    exists (found ++ more), (c ++ lookups). rewrite <- !app_assoc. split_and!; auto.
    + intros _. rewrite app_assoc. apply H1. unfold len in *. rewrite length_app. lia.
    + apply Forall_app. auto.
    + apply Forall_app. auto.
Qed.

Lemma pattern_reverse_keys_spec keys capacity : forall result uniq_words calls,
  uniq_words = list_to_set (map e_word result) -> NoDup (map e_word result) ->
  Forall (stored self) result ->
  exists result' lookups,
    pattern_reverse_keys self keys capacity result uniq_words calls
      = (result', calls ++ lookups) /\
    (len result <= capacity -> len result' <= capacity) /\
    NoDup (map e_word result') /\
    Forall (stored self) result'.
Proof.
  induction keys as [|key rest IH]; intros result uniq calls Hu Hnd Hst; simpl.
  - exists result, []. rewrite app_nil_r. auto.
  - destruct (capacity <=? len result) eqn:Ecap.
    { exists result, []. rewrite app_nil_r. auto. }
    pose proof (SearchExactReverse_stored self key (capacity - len result + 10)) as Hfs.
    destruct (SearchExactReverse self key (capacity - len result + 10)) as [found c].
    simpl in Hfs.
    destruct (exact_entries_spec found capacity result uniq)
      as (m1 & -> & L1 & I1 & N1 & F1).
    destruct (IH (result ++ m1) (list_to_set (map e_word m1) ∪ uniq) (calls ++ c))
      as (result' & lookups & -> & H1 & H2 & H3).
    + rewrite Hu, map_app, list_to_set_app_L. set_solver.
    + rewrite map_app. apply NoDup_app. split_and!; auto.
      intros w Hw1 Hw2. apply list_elem_of_fmap in Hw2. destruct Hw2 as (x & -> & Hx).
      apply (F1 x Hx). rewrite Hu. apply elem_of_list_to_set. exact Hw1.
    + apply Forall_app. split; [exact Hst|].
      rewrite Forall_forall in Hfs, I1. apply Forall_forall. intros x Hx.
      apply Hfs, I1, Hx.
    + exists result', (c ++ lookups). rewrite <- app_assoc. split_and!; auto.
Qed.

Lemma grade_keys_spec keys capacity first_only : forall result calls,
  exists more lookups,
    grade_keys self keys capacity first_only result calls
      = (result ++ more, calls ++ lookups) /\
    (len result <= capacity -> len (result ++ more) <= capacity) /\
    (first_only = true -> (length more <= length keys)%nat) /\
    Forall (stored self) more /\
    Forall is_body_call lookups.
Proof.
  induction keys as [|key rest IH]; intros result calls; simpl.
  - exists [], []. rewrite !app_nil_r.
    split_and!; [reflexivity|auto|intros _; simpl; lia|constructor|constructor].
  - destruct (capacity <=? len result) eqn:Ecap.
    { exists [], []. rewrite !app_nil_r.
      split_and!; [reflexivity|auto|intros _; simpl; lia|constructor|constructor]. }
    apply Z.leb_gt in Ecap.
    destruct (SearchExact_room key (capacity - len result) ltac:(lia)) as (L & S & C).
    destruct (SearchExact self key (capacity - len result)) as [found c]. simpl in L, S, C.
    set (found' := if first_only then firstn 1 found else found).
    assert (Hsub : (length found' <= length found)%nat).
    { subst found'. destruct first_only; [rewrite length_take|]; lia. }
    assert (Hst : Forall (stored self) found').
    { subst found'. destruct first_only; [apply Forall_take|]; exact S. }
    destruct (IH (result ++ found') (calls ++ c)) as (more & lookups & -> & H1 & H2 & H3 & H4).
    exists (found' ++ more), (c ++ lookups). rewrite <- !app_assoc. split_and!; auto.
    + intros _. rewrite app_assoc. apply H1. unfold len in *. rewrite length_app. lia.
    + intros ->. specialize (H2 eq_refl). rewrite length_app.
      subst found'. simpl. rewrite length_take. lia.
    + apply Forall_app. auto.
    + apply Forall_app. auto.
Qed.

Lemma slice_from_length {A} (xs : list A) n : (length (slice_from xs n) <= length xs)%nat.
Proof. unfold slice_from. destruct (0 <=? n); rewrite length_drop; lia. Qed.
End PatternFacts.

(** X7: [SearchPatternMatch] returns at most [capacity] entries (for a
    capacity that is not negative), all of them entries of the body
    database; it runs one search of the key file, on the normalized
    pattern, and then only body lookups. *)
Theorem SearchPatternMatch_bounded :
  forall self mode text capacity,
  (0 <= capacity -> len (fst (SearchPatternMatch self mode text capacity)) <= capacity) /\
  Forall (stored self) (fst (SearchPatternMatch self mode text capacity)) /\
  exists lookups,
    snd (SearchPatternMatch self mode text capacity)
      = KeysSearch mode (NormalizeWord self text) capacity true :: lookups /\
    Forall is_body_call lookups.
Proof.
  intros self mode text capacity. unfold SearchPatternMatch.
  match goal with |- context [pattern_keys self ?k capacity [] ?c] =>
    destruct (pattern_keys_spec self k capacity [] c) as (more & lookups & -> & H1 & H2 & H3)
  end.
  simpl. split_and!; auto. eauto.
Qed.

(** X8: [SearchPatternMatchReverse] returns at most [capacity] entries
    (for a capacity that is not negative), all of them entries of the body
    database, and no headword twice. *)
Theorem SearchPatternMatchReverse_bounded :
  forall self mode text capacity,
  (0 <= capacity ->
   len (fst (SearchPatternMatchReverse self mode text capacity)) <= capacity) /\
  NoDup (map e_word (fst (SearchPatternMatchReverse self mode text capacity))) /\
  Forall (stored self) (fst (SearchPatternMatchReverse self mode text capacity)).
Proof.
  intros self mode text capacity. unfold SearchPatternMatchReverse.
  match goal with |- context [pattern_reverse_keys self ?k capacity [] ?u ?c] =>
    destruct (pattern_reverse_keys_spec self k capacity [] u c)
      as (result' & lookups & -> & H1 & H2 & H3)
  end; [reflexivity|constructor|constructor|].
  simpl. split_and!; auto.
Qed.

(** X9: [SearchByGrade] returns at most [capacity] entries (for a capacity
    that is not negative), all of them entries of the body database; with
    [first_only] it returns at most one entry for each key that the key
    file gave. *)
Theorem SearchByGrade_bounded :
  forall self capacity page first_only,
  (0 <= capacity ->
   len (fst (SearchByGrade self capacity page first_only)) <= capacity) /\
  Forall (stored self) (fst (SearchByGrade self capacity page first_only)) /\
  (first_only = true ->
   (length (fst (SearchByGrade self capacity page first_only))
      <= length (keys_file self "begin" "" (capacity * page) false))%nat).
Proof.
  intros self capacity page first_only. unfold SearchByGrade.
  set (all := keys_file self "begin" "" (capacity * page) false).
  set (keys := if 1 <? page then slice_from all (capacity * (page - 1)) else all).
  assert (Hk : (length keys <= length all)%nat).
  { subst keys. destruct (1 <? page); [apply slice_from_length|lia]. }
  match goal with |- context [grade_keys self keys capacity first_only [] ?c] =>
    destruct (grade_keys_spec self keys capacity first_only [] c)
      as (more & lookups & -> & H1 & H2 & H3 & H4)
  end.
  simpl. split_and!; auto.
  intros Hf. specialize (H2 Hf). lia.
Qed.

Section SplitFacts.
Variable sep : ascii.

Lemma split_on_cons s : exists w ws, split_on sep s = w :: ws.
Proof.
  induction s as [|c s IH]; simpl; [eauto|].
  destruct (Ascii.eqb c sep); [eauto|]. destruct IH as (w & ws & ->). eauto.
Qed.

Lemma split_on_plain w : has_char sep w = false -> split_on sep w = [w].
Proof.
  induction w as [|c w IH]; simpl; [reflexivity|].
  intros H. apply orb_false_elim in H. destruct H as [-> H]. rewrite (IH H). reflexivity.
Qed.

Lemma split_on_append w rest :
  has_char sep w = false ->
  split_on sep (String.append w (String sep rest)) = w :: split_on sep rest.
Proof.
  induction w as [|c w IH]; simpl.
  - intros _. rewrite Ascii.eqb_refl. reflexivity.
  - intros H. apply orb_false_elim in H. destruct H as [-> H]. rewrite (IH H). reflexivity.
Qed.

(** Splitting what was joined gives the words back. *)
Lemma split_on_join words :
  words <> [] -> Forall (fun w => has_char sep w = false) words ->
  split_on sep (join_on sep words) = words.
Proof.
  induction words as [|w rest IH]; intros Hne H; [congruence|].
  apply Forall_cons in H. destruct H as [Hw H].
  destruct rest as [|w' rest'].
  - simpl. apply split_on_plain, Hw.
  - change (join_on sep (w :: w' :: rest'))
      with (String.append w (String sep (join_on sep (w' :: rest')))).
    rewrite (split_on_append _ _ Hw). f_equal. apply IH; [discriminate|exact H].
Qed.
End SplitFacts.

(** X10: [SearchTranIndex] looks the normalized text up, once.  When the
    index holds the tab-joined list of words (none with a tab in it, the
    joined value not empty) it returns exactly these words, in order; for a
    missing key or an empty value it returns the empty list. *)
Theorem SearchTranIndex_round_trip :
  forall self text,
  (forall words,
     Forall (fun w => has_char "009" w = false) words ->
     join_on "009" words <> "" ->
     tran_index_dbm self (NormalizeWord self text) = Some (join_on "009" words) ->
     fst (SearchTranIndex self text) = words) /\
  (tran_index_dbm self (NormalizeWord self text) = None \/
   tran_index_dbm self (NormalizeWord self text) = Some "" ->
   fst (SearchTranIndex self text) = []) /\
  snd (SearchTranIndex self text) = [TranIndexGet (NormalizeWord self text)].
Proof.
  intros self text. unfold SearchTranIndex. simpl. split_and!.
  - intros words Hw Hne ->.
    destruct (str_empty (join_on "009" words)) eqn:E;
      [apply str_empty_true in E; contradiction|].
    apply split_on_join; [|exact Hw]. intros ->. apply Hne. reflexivity.
  - intros [-> | ->]; reflexivity.
  - reflexivity.
Qed.

(** X11: [SearchInflections] looks the text up as it is given.  When the
    index holds the tab-joined list of words (none with a tab in it, the
    joined value not empty) it returns exactly these words, in order; for a
    missing key or an empty value it returns the empty list. *)
Theorem SearchInflections_round_trip :
  forall infl_index_dbm text,
  (forall words,
     Forall (fun w => has_char "009" w = false) words ->
     join_on "009" words <> "" ->
     infl_index_dbm text = Some (join_on "009" words) ->
     SearchInflections infl_index_dbm text = words) /\
  (infl_index_dbm text = None \/ infl_index_dbm text = Some "" ->
   SearchInflections infl_index_dbm text = []).
Proof.
  intros dbm text. unfold SearchInflections. split.
  - intros words Hw Hne ->.
    destruct (str_empty (join_on "009" words)) eqn:E;
      [apply str_empty_true in E; contradiction|].
    apply split_on_join; [|exact Hw]. intros ->. apply Hne. reflexivity.
  - intros [-> | ->]; reflexivity.
Qed.

Section ResultKeys.
Variable self : UnionSearcher.

Lemma GetResultKeys_fold entries : forall keys : gset string,
  fold_left (fun (keys : gset string) entry => {[NormalizeWord self (e_word entry)]} ∪ keys)
            entries keys
    = list_to_set (map (fun e => NormalizeWord self (e_word e)) entries) ∪ keys.
Proof.
  induction entries as [|e rest IH]; intros keys; simpl; [set_solver|].
  rewrite IH. set_solver.
Qed.
End ResultKeys.

(** X12: [GetResultKeys] holds exactly the normalized headwords of the
    entries, so it never has more keys than there are entries. *)
Theorem GetResultKeys_normalized_headwords :
  forall self entries,
  (forall key, key ∈ GetResultKeys self entries <->
               exists e, e ∈ entries /\ NormalizeWord self (e_word e) = key) /\
  (size (GetResultKeys self entries) <= length entries)%nat.
Proof.
  intros self entries. unfold GetResultKeys. rewrite GetResultKeys_fold.
  set (l := map (fun e => NormalizeWord self (e_word e)) entries).
  assert (E : list_to_set l ∪ ∅ = (list_to_set l : gset string)) by set_solver.
  rewrite E. split.
  - intros key. rewrite elem_of_list_to_set. unfold l. rewrite list_elem_of_fmap. split.
    + intros (e & -> & He). eauto.
    + intros (e & He & <-). eauto.
  - pose proof (size_list_to_set_le l) as H. unfold l in H at 2.
    rewrite length_map in H. exact H.
Qed.

(** ** The keys of a feature vector *)

Section DictShape.
Context {V : Type}.
Implicit Types (d : list (string * V)) (k : string) (v : V).

(** [d[k] = v] keeps the keys of [d], with [k] added last when it is new. *)
Lemma dict_set_keys d k v :
  dict_keys (dict_set d k v) = if dict_mem d k then dict_keys d else dict_keys d ++ [k].
Proof.
  unfold dict_mem. induction d as [|[k' v'] d IH]; simpl; [reflexivity|].
  destruct (String.eqb k' k) eqn:E; simpl; [reflexivity|].
  rewrite IH. destruct (dict_get d k); reflexivity.
Qed.

Lemma dict_set_NoDup d k v : NoDup (dict_keys d) -> NoDup (dict_keys (dict_set d k v)).
Proof.
  intros H. rewrite dict_set_keys. destruct (dict_mem d k) eqn:E; [exact H|].
  apply NoDup_app. split; [exact H|]. split; [|apply NoDup_singleton].
  intros x Hx Hx'. apply list_elem_of_singleton in Hx'. subst x.
  apply dict_mem_keys in Hx. congruence.
Qed.

Lemma dict_set_length d k v : (length (dict_set d k v) <= S (length d))%nat.
Proof.
  pose proof (dict_set_keys d k v) as H. apply (f_equal (@length string)) in H.
  unfold dict_keys in H. rewrite length_map in H. rewrite H.
  destruct (dict_mem d k); rewrite ?length_app, length_map; simpl; lia.
Qed.

(** Only the items under the listed keys are read by a lookup of one of
    them. *)
Lemma dict_get_filter d (keep : string -> bool) k :
  keep k = true -> dict_get (filter (fun item => keep (fst item)) d) k = dict_get d k.
Proof.
  intros Hk. induction d as [|[k' v'] d IH]; simpl; [reflexivity|].
  destruct (String.eqb k' k) eqn:E.
  - apply String.eqb_eq in E. subst k'.
    rewrite filter_cons_True by (simpl; rewrite Hk; exact I).
    simpl. rewrite String.eqb_refl. reflexivity.
  - destruct (keep k') eqn:Ek.
    + rewrite filter_cons_True by (simpl; rewrite Ek; exact I). simpl. rewrite E. exact IH.
    + rewrite filter_cons_False by (simpl; rewrite Ek; auto). exact IH.
Qed.
End DictShape.

Section FeatureShape.
Variable self : UnionSearcher.

Lemma pos_loop_shape items : forall pos_features pos_score pos_score_max,
  NoDup (dict_keys pos_features) ->
  NoDup (dict_keys (fst (pos_loop items pos_features pos_score pos_score_max))) /\
  (length (fst (pos_loop items pos_features pos_score pos_score_max))
     <= length pos_features + length items)%nat.
Proof.
  induction items as [|item rest IH]; intros pf ps psm Hnd; simpl; [split; [exact Hnd|lia]|].
  match goal with |- context [pos_loop rest ?f ?s ?m] =>
    destruct (IH f s m) as [H1 H2]; [apply dict_set_NoDup, Hnd|];
    pose proof (dict_set_length pf (String.append "__" (i_pos item))
                  (PyFloat.or_zero (dict_get pf (String.append "__" (i_pos item))) + ps)%float)
  end.
  split; [exact H1|lia].
Qed.

Lemma pos_normalize_shape pos_items pos_score_max : forall features features',
  pos_normalize pos_items pos_score_max features = Ok features' ->
  NoDup (dict_keys features) ->
  NoDup (dict_keys features') /\
  (length features' <= length features + length pos_items)%nat.
Proof.
  induction pos_items as [|[pos s] rest IH]; intros f f' H Hnd; simpl in *.
  - injection H as <-. split; [exact Hnd|lia].
  - destruct (PyFloat.truediv s pos_score_max) as [q| |]; simpl in H; try discriminate.
    destruct (IH _ _ H (dict_set_NoDup f pos q Hnd)) as [H1 H2].
    pose proof (dict_set_length f pos q). split; [exact H1|lia].
Qed.

Lemma token_pass_shape tokens : forall features score,
  NoDup (dict_keys features) ->
  NoDup (dict_keys (fst (token_pass (fun w => w) tokens features score))) /\
  (length (fst (token_pass (fun w => w) tokens features score))
     <= length features + length tokens)%nat /\
  (forall x, x ∈ dict_keys (fst (token_pass (fun w => w) tokens features score)) <->
             x ∈ dict_keys features \/ x ∈ tokens).
Proof.
  induction tokens as [|w rest IH]; intros f s Hnd; simpl.
  - split_and!; [exact Hnd|lia|]. intros x. split; [auto|]. intros [H|H]; [exact H|inversion H].
  - destruct (dict_mem f w) eqn:E.
    + destruct (IH f s Hnd) as (H1 & H2 & H3). split_and!; [exact H1|lia|].
      intros x. rewrite H3, elem_of_cons. apply dict_mem_keys in E.
      split; [tauto|]. intros [H|[->|H]]; auto.
    + destruct (IH (dict_set f w (s * SCORE_DECAY)%float) (s * SCORE_DECAY)%float
                  (dict_set_NoDup f w _ Hnd)) as (H1 & H2 & H3).
      pose proof (dict_set_length f w (s * SCORE_DECAY)%float).
      split_and!; [exact H1|lia|].
      intros x. rewrite H3, dict_keys_set, elem_of_cons. tauto.
Qed.
End FeatureShape.

(** X13: the features of an entry are a dictionary without repeated keys;
    its keys are the normalized headword, the part-of-speech pseudo-tokens
    and the tokens of the three passes, so there are at most 61 of them
    beside one for each sense item. *)
Theorem GetFeatures_keys :
  forall self entry,
  exists features,
    GetFeatures self entry = Ok features /\
    NoDup (dict_keys features) /\
    (forall x, x ∈ dict_keys features <->
               x = NormalizeWord self (e_word entry) \/ x ∈ pos_tokens entry \/
               x ∈ feature_tokens self entry) /\
    (length features <= 61 + length (e_item entry))%nat.
Proof.
  intros self entry. unfold GetFeatures.
  pose proof (GetFeatures_pos_total entry) as Htot.
  pose proof (pos_loop_keys (e_item entry) [] 1%float 0%float) as Hkeys.
  destruct (pos_loop_shape (e_item entry) [] 1%float 0%float ltac:(apply NoDup_nil_2)) as [Hpn Hpl].
  destruct (pos_loop (e_item entry) [] 1 0) as [pf psm]. simpl in Hkeys, Hpn, Hpl.
  destruct (Htot [(NormalizeWord self (e_word entry), 1%float)]) as [f0 Hf0]. rewrite Hf0. simpl.
  destruct (pos_normalize_shape _ _ _ _ Hf0) as [Hn0 Hl0];
    [simpl; apply NoDup_singleton|]. simpl in Hl0.
  pose proof (fun x => pos_normalize_keys _ _ _ _ x Hf0) as Hk0.
  set (t1 := map (NormalizeWord self) (take 20 (py_list (e_related entry)))).
  set (t2 := map (fun tran => StripFeatureSuffix self (NormalizeWord self tran))
                 (take 20 (py_list (e_translation entry)))).
  set (t3 := map (NormalizeWord self) (take 20 (py_list (e_cooccurrence entry)))).
  assert (L1 : (length t1 <= 20)%nat) by (unfold t1; rewrite length_map, length_take; lia).
  assert (L2 : (length t2 <= 20)%nat) by (unfold t2; rewrite length_map, length_take; lia).
  assert (L3 : (length t3 <= 20)%nat) by (unfold t3; rewrite length_map, length_take; lia).
  rewrite (token_pass_map (NormalizeWord self)). fold t1.
  destruct (token_pass_shape t1 f0 1%float Hn0) as (Hn1 & Hl1 & Hk1).
  destruct (token_pass (fun w => w) t1 f0 1) as [f1 s1]. simpl in Hn1, Hl1, Hk1.
  rewrite (token_pass_map (fun tran => StripFeatureSuffix self (NormalizeWord self tran))).
  fold t2.
  destruct (token_pass_shape t2 f1 s1 Hn1) as (Hn2 & Hl2 & Hk2).
  destruct (token_pass (fun w => w) t2 f1 s1) as [f2 s2]. simpl in Hn2, Hl2, Hk2.
  rewrite (token_pass_map (NormalizeWord self)). fold t3.
  destruct (token_pass_shape t3 f2 s2 Hn2) as (Hn3 & Hl3 & Hk3).
  destruct (token_pass (fun w => w) t3 f2 s2) as [f3 s3]. simpl in Hn3, Hl3, Hk3.
  exists f3. split_and!; [reflexivity|exact Hn3| |lia].
  intros x. rewrite Hk3, Hk2, Hk1, Hk0, Hkeys. unfold feature_tokens, pos_tokens.
  fold t1 t2 t3. rewrite !elem_of_app. simpl. rewrite list_elem_of_singleton.
  split.
  - intros [[[[H|[H|H]]|H]|H]|H]; auto. inversion H.
  - intros [H|[H|[H|[H|H]]]]; auto 10.
Qed.

(** ** What the similarity reads *)

Section SimilarityReads.

Lemma similarity_loop_ext seed_items cand cand' :
  (forall w, w ∈ dict_keys seed_items ->
             PyFloat.or_zero (dict_get cand w) = PyFloat.or_zero (dict_get cand' w)) ->
  forall product seed_norm cand_norm,
  similarity_loop seed_items cand product seed_norm cand_norm
    = similarity_loop seed_items cand' product seed_norm cand_norm.
Proof.
  induction seed_items as [|[w s] rest IH]; intros H p sn cn; simpl; [reflexivity|].
  rewrite (H w) by (simpl; left).
  destruct (PyFloat.pow2 s); simpl; try reflexivity.
  destruct (PyFloat.pow2 _); simpl; try reflexivity.
  apply IH. intros w' Hw'. apply H. simpl. right. exact Hw'.
Qed.

(** Without a weight of the candidate under a seed key, the norm of the
    candidate stays 0. *)
Lemma similarity_loop_blank seed_items cand :
  (forall w, w ∈ dict_keys seed_items -> PyFloat.or_zero (dict_get cand w) = 0%float) ->
  forall product seed_norm,
  (exists p sn, similarity_loop seed_items cand product seed_norm 0%float
                  = Ok (p, sn, 0%float)) \/
  similarity_loop seed_items cand product seed_norm 0%float = Raise OverflowError.
Proof.
  induction seed_items as [|[w s] rest IH]; intros H p sn; simpl; [eauto|].
  rewrite (H w) by (simpl; left).
  destruct (FloatFacts.pow2_cases s) as [-> | ->]; simpl; [|auto].
  change (PyFloat.pow2 0) with (Ok 0%float). simpl.
  change (0 + 0)%float with 0%float.
  apply IH. intros w' Hw'. apply H. simpl. right. exact Hw'.
Qed.
End SimilarityReads.

(** X14: [GetSimilarity] reads the candidate under the keys of the seed
    features only: the features of the candidate under other keys can be
    dropped without changing the outcome. *)
Theorem GetSimilarity_reads_seed_keys :
  forall seed_features cand_features,
  GetSimilarity seed_features cand_features =
  GetSimilarity seed_features
    (filter (fun item => dict_mem seed_features (fst item)) cand_features).
Proof.
  intros sf cf. unfold GetSimilarity.
  rewrite (similarity_loop_ext sf cf
             (filter (fun item => dict_mem sf (fst item)) cf)); [reflexivity|].
  intros w Hw. f_equal. symmetry. apply (dict_get_filter cf (dict_mem sf) w).
  apply dict_mem_keys, Hw.
Qed.

(** X15: a candidate that has no weight, or the weight 0, under every key
    of the seed features scores 0.0, unless the square of a seed weight
    overflows; with seed weights below [2^511] it scores 0.0. *)
Theorem GetSimilarity_no_common_key :
  forall seed_features cand_features,
  (forall w, w ∈ dict_keys seed_features ->
             PyFloat.or_zero (dict_get cand_features w) = 0%float) ->
  (GetSimilarity seed_features cand_features = Ok 0%float \/
   GetSimilarity seed_features cand_features = Raise OverflowError) /\
  (Forall (fun item => SF.below 511 (Prim2SF (snd item))) seed_features ->
   GetSimilarity seed_features cand_features = Ok 0%float).
Proof.
  intros sf cf H.
  assert (Hc : GetSimilarity sf cf = Ok 0%float \/ GetSimilarity sf cf = Raise OverflowError).
  { unfold GetSimilarity.
    destruct (similarity_loop_blank sf cf H 0%float 0%float) as [(p & sn & ->)| ->];
      [left|right]; reflexivity. }
  split; [exact Hc|]. intros Hb.
  destruct Hc as [Hc|Hc]; [exact Hc|]. exfalso.
  assert (Hloop : forall items p sn cn,
            Forall (fun item => SF.below 511 (Prim2SF (snd item))) items ->
            (forall w, w ∈ dict_keys items -> PyFloat.or_zero (dict_get cf w) = 0%float) ->
            exists r, similarity_loop items cf p sn cn = Ok r).
  { clear. induction items as [|[w s] rest IH]; intros p sn cn Hb H; simpl; [eauto|].
    apply Forall_cons in Hb. destruct Hb as [Hw Hb]. simpl in Hw.
    rewrite (FloatFacts.pow2_ok s Hw). simpl.
    rewrite (H w) by (simpl; left). change (PyFloat.pow2 0) with (Ok 0%float). simpl.
    apply IH; [exact Hb|]. intros w' Hw'. apply H. simpl. right. exact Hw'. }
  destruct (Hloop sf 0%float 0%float 0%float Hb H) as [[[p sn] cn] E].
  destruct (GetSimilarity_unfold _ _ _ _ _ E) as [_ [_ Hg]]. rewrite Hg in Hc.
  destruct (_ || _); discriminate.
Qed.

Lemma GetSimilarity_no_common_key_witness :
  GetSimilarity [("apple", 1%float)] [("pear", 1%float); ("apple", 0%float)] = Ok 0%float.
Proof.
  apply (GetSimilarity_no_common_key [("apple", 1%float)]
           [("pear", 1%float); ("apple", 0%float)]).
  - intros w Hw. simpl in Hw. apply list_elem_of_singleton in Hw. subst w. reflexivity.
  - apply Forall_singleton. simpl. apply FloatFacts.belowb_below. vm_compute. reflexivity.
Defined.

(** ** The bookkeeping of the expansion *)

Section ExtendFacts.
Variable self : UnionSearcher.
Variable seed_features : Features.
Variable capacity : Z.

Lemma extends_refl st : extends st st.
Proof. split; [reflexivity|]. exists []. rewrite app_nil_r. split; [reflexivity|constructor]. Qed.

Lemma extends_trans st1 st2 st3 : extends st1 st2 -> extends st2 st3 -> extends st1 st3.
Proof.
  intros [H1 (m1 & E1 & F1)] [H2 (m2 & E2 & F2)]. split; [set_solver|].
  exists (m1 ++ m2). rewrite E2, E1, app_assoc. split; [reflexivity|].
  apply Forall_app. auto.
Qed.

Lemma extends_same st st' :
  st_checked_words st ⊆ st_checked_words st' -> st_calls st' = st_calls st ->
  extends st st'.
Proof.
  intros H E. split; [exact H|]. exists []. rewrite app_nil_r. split; [exact E|constructor].
Qed.

Lemma body_call_lookup c : is_body_call c -> is_lookup_call c.
Proof. destruct c; simpl; auto. Qed.

Lemma index_call_lookup c : is_index_call c -> is_lookup_call c.
Proof. destruct c; simpl; auto. Qed.

Lemma SearchExact_lookups text room :
  Forall is_lookup_call (snd (SearchExact self text room)).
Proof.
  unfold SearchExact.
  destruct (exact_words_spec self (split_on "," text) room [] ∅ [])
    as (more & lookups & -> & _ & _ & _ & _ & Hcalls & _).
  simpl. eapply Forall_impl; [exact Hcalls|].
  intros c Hc. apply body_call_lookup. eapply lookup_of_body, Hc.
Qed.

Lemma SearchExactReverse_lookups text room :
  Forall is_lookup_call (snd (SearchExactReverse self text room)).
Proof.
  unfold SearchExactReverse.
  pose proof (reverse_en_words_calls self (reverse_ja_words self (split_on "," text) [] ∅)
                [] ∅ [] ltac:(constructor)) as H.
  destruct (reverse_en_words self _ [] ∅ []) as [en_words calls]. simpl in H.
  destruct (reverse_results_spec self (reverse_ja_words self (split_on "," text) [] ∅)
              en_words room [] ∅ calls)
    as (more & lookups & -> & _ & _ & _ & _ & _ & Hb & _).
  simpl. apply Forall_app. split.
  - eapply Forall_impl; [exact H|]. apply index_call_lookup.
  - eapply Forall_impl; [exact Hb|]. apply body_call_lookup.
Qed.

Lemma logged_extends st c : Forall is_lookup_call c -> extends st (log_calls st c).
Proof. intros H. split; [reflexivity|]. exists c. split; [reflexivity|exact H]. Qed.

(** [AddSeed] touches the queue and its counter only. *)
Lemma AddSeed_keeps st entry st' :
  AddSeed self seed_features st entry = Ok st' ->
  st_checked_words st' = st_checked_words st /\ st_calls st' = st_calls st /\
  st_result st' = st_result st /\
  exists c, st_seeds st' = st_seeds st ++ [c] /\ c_entry c = entry.
Proof.
  rewrite AddSeed_similarity.
  destruct (similarity self seed_features entry) as [score|e|]; simpl; try discriminate.
  intros H. injection H as <-. simpl. split_and!; try reflexivity.
  eexists. split; [reflexivity|reflexivity].
Qed.

Lemma adopted_extends st entry st' :
  AddSeed self seed_features (check_word st (e_word entry)) entry = Ok st' ->
  extends st (count_append st').
Proof.
  intros H. apply AddSeed_keeps in H. destruct H as (Hc & Hl & _).
  apply extends_same; simpl; [rewrite Hc; simpl; set_solver|rewrite Hl; reflexivity].
Qed.

Lemma adopt_children_extends children : forall st st',
  adopt_children self seed_features capacity children st = Ok st' -> extends st st'.
Proof.
  induction children as [|child rest IH]; intros st st' H; simpl in H.
  - injection H as <-. apply extends_refl.
  - destruct (capacity <=? num_checked st); [injection H as <-; apply extends_refl|].
    destruct (bool_decide (e_word child ∈ st_checked_words st)); [apply IH, H|].
    destruct (AddSeed self seed_features (check_word st (e_word child)) child)
      as [st1|e|] eqn:E; simpl in H; try discriminate.
    eapply extends_trans; [apply (adopted_extends _ _ _ E)|apply IH, H].
Qed.

Lemma adopt_tran_children_extends children : forall num_tran_adopts st st',
  adopt_tran_children self seed_features capacity children num_tran_adopts st = Ok st' ->
  extends st st'.
Proof.
  induction children as [|child rest IH]; intros n st st' H; simpl in H.
  - injection H as <-. apply extends_refl.
  - destruct (capacity <=? num_checked st); [injection H as <-; apply extends_refl|].
    destruct (5 <=? n); [injection H as <-; apply extends_refl|].
    destruct (bool_decide (e_word child ∈ st_checked_words st)); [eapply IH, H|].
    destruct (AddSeed self seed_features (check_word st (e_word child)) child)
      as [st1|e|] eqn:E; simpl in H; try discriminate.
    eapply extends_trans; [apply (adopted_extends _ _ _ E)|eapply IH, H].
Qed.

Lemma expand_rel_words_extends rel_words : forall st st',
  expand_rel_words self seed_features capacity rel_words st = Ok st' -> extends st st'.
Proof.
  induction rel_words as [|rel_word rest IH]; intros st st' H; simpl in H.
  - injection H as <-. apply extends_refl.
  - destruct (capacity <=? num_checked st); [injection H as <-; apply extends_refl|].
    destruct (bool_decide (rel_word ∈ st_checked_words st)); [apply IH, H|].
    pose proof (SearchExact_lookups rel_word (capacity - num_checked st)) as Hl.
    destruct (SearchExact self rel_word (capacity - num_checked st)) as [children c].
    simpl in Hl.
    destruct (adopt_children self seed_features capacity children (log_calls st c))
      as [st1|e|] eqn:E; simpl in H; try discriminate.
    eapply extends_trans; [apply (logged_extends st c Hl)|].
    eapply extends_trans; [apply (adopt_children_extends _ _ _ E)|apply IH, H].
Qed.

Lemma expand_trans_extends trans : forall st st',
  expand_trans self seed_features capacity trans st = Ok st' -> extends st st'.
Proof.
  induction trans as [|tran rest IH]; intros st st' H; simpl in H.
  - injection H as <-. apply extends_refl.
  - destruct (capacity <=? num_checked st); [injection H as <-; apply extends_refl|].
    destruct (bool_decide (StripTranSuffix self tran ∈ st_checked_trans st));
      [apply IH, H|].
    match type of H with context [SearchExactReverse self ?t ?n] =>
      pose proof (SearchExactReverse_lookups t n) as Hl;
      destruct (SearchExactReverse self t n) as [children c] end.
    simpl in Hl.
    match type of H with context [adopt_tran_children _ _ _ _ _ ?s] =>
      destruct (adopt_tran_children self seed_features capacity children 0 s)
        as [st1|e|] eqn:E; simpl in H; try discriminate;
      apply (extends_trans st s); [|eapply extends_trans;
        [apply (adopt_tran_children_extends _ _ _ _ E)|apply IH, H]]
    end.
    split; [reflexivity|]. exists c. split; [reflexivity|exact Hl].
Qed.

Lemma expand_coocs_extends coocs : forall st st',
  expand_coocs self seed_features capacity coocs st = Ok st' -> extends st st'.
Proof.
  induction coocs as [|cooc rest IH]; intros st st' H; simpl in H.
  - injection H as <-. apply extends_refl.
  - destruct (8 <=? st_num_appends st); [injection H as <-; apply extends_refl|].
    destruct (capacity <=? num_checked st); [injection H as <-; apply extends_refl|].
    destruct (bool_decide (cooc ∈ st_checked_words st)); [apply IH, H|].
    pose proof (SearchExact_lookups cooc (capacity - num_checked st)) as Hl.
    destruct (SearchExact self cooc (capacity - num_checked st)) as [children c].
    simpl in Hl.
    destruct (adopt_children self seed_features capacity children (log_calls st c))
      as [st1|e|] eqn:E; simpl in H; try discriminate.
    eapply extends_trans; [apply (logged_extends st c Hl)|].
    eapply extends_trans; [apply (adopt_children_extends _ _ _ E)|apply IH, H].
Qed.

Lemma expand_body_extends st c rest st' :
  expand_body self seed_features capacity st c rest = Ok st' -> extends st st'.
Proof.
  unfold expand_body. cbv zeta. intros H.
  destruct (fan_out self 16 4 _ _) as [n1|e|]; simpl in H; try discriminate.
  destruct (fan_out self 8 2 _ _) as [n2|e|]; simpl in H; try discriminate.
  destruct (expand_rel_words _ _ _ _ _) as [st1|e|] eqn:E1; simpl in H; try discriminate.
  destruct (expand_trans _ _ _ _ _) as [st2|e|] eqn:E2; simpl in H; try discriminate.
  apply expand_rel_words_extends in E1. apply expand_trans_extends in E2.
  apply expand_coocs_extends in H.
  eapply extends_trans; [|eapply extends_trans; [exact E1|eapply extends_trans; eauto]].
  apply extends_same; reflexivity.
Qed.

Lemma visits_extends st st' :
  visits self seed_features capacity st st' -> extends st st'.
Proof.
  induction 1 as [st|st c rest st1 st2 Hpop Hbody Hv IH]; [apply extends_refl|].
  eapply extends_trans; [apply (expand_body_extends _ _ _ _ Hbody)|exact IH].
Qed.

(** The seed loop issues no storage call, and pushes seed entries only. *)
Lemma seed_loop_keeps seeds : forall st st',
  seed_loop self seed_features seeds st = Ok st' ->
  st_calls st' = st_calls st /\
  exists pushed_seeds,
    st_seeds st' = st_seeds st ++ pushed_seeds /\
    Forall (fun c => c_entry c ∈ seeds) pushed_seeds.
Proof.
  induction seeds as [|entry rest IH]; intros st st' H; simpl in H.
  - injection H as <-. split; [reflexivity|]. exists []. rewrite app_nil_r.
    split; [reflexivity|constructor].
  - destruct (bool_decide (e_word entry ∈ st_checked_words st)).
    + destruct (IH _ _ H) as (Hc & ps & Hs & Hp). split; [exact Hc|]. exists ps.
      split; [exact Hs|]. eapply Forall_impl; [exact Hp|]. intros c Hin. right. exact Hin.
    + destruct (AddSeed self seed_features (check_word st (e_word entry)) entry)
        as [st1|e|] eqn:E; simpl in H; try discriminate.
      apply AddSeed_keeps in E. destruct E as (_ & Hl1 & _ & c & Hs1 & Hc1).
      simpl in Hl1, Hs1.
      destruct (IH _ _ H) as (Hc & ps & Hs & Hp). split; [congruence|].
      exists (c :: ps). rewrite Hs, Hs1, <- app_assoc. split; [reflexivity|].
      constructor; [rewrite Hc1; left|].
      eapply Forall_impl; [exact Hp|]. intros c' Hin. right. exact Hin.
Qed.

(** Every entry of the output was a pending candidate: a seed entry or an
    entry of the body database. *)
Lemma visits_known seed_entries st st' :
  visits self seed_features capacity st st' ->
  expansion_ok self seed_features seed_entries st ->
  Forall (known self seed_entries) (st_result st) ->
  Forall (known self seed_entries) (st_result st').
Proof.
  induction 1 as [st|st c rest st1 st2 Hpop Hbody Hv IH]; intros Hinv Hk; [exact Hk|].
  pose proof (expand_body_spec self seed_features capacity seed_entries st c rest
                Hinv Hpop) as Hb.
  rewrite Hbody in Hb. simpl in Hb. destruct Hb as (Hinv1 & Hr1 & _).
  destruct (heappop_pending _ _ _ _ _ _ Hinv Hpop) as [[Hc _] _].
  apply IH; [exact Hinv1|]. rewrite Hr1. apply Forall_app. split; [exact Hk|].
  apply Forall_singleton, Hc.
Qed.

(** What [ExpandEntries] returns, read off its final state. *)
Lemma ExpandEntries_returns seed_entries result calls :
  ExpandEntries self seed_entries seed_features capacity = Ok (result, calls) ->
  exists st0 st,
    seed_loop self seed_features seed_entries initial_state = Ok st0 /\
    visits self seed_features capacity st0 st /\
    expansion_ok self seed_features seed_entries st0 /\
    st_result st0 = [] /\
    st_checked_words st0 = list_to_set (map e_word seed_entries) /\
    expansion_ok self seed_features seed_entries st /\
    st_seeds st = [] /\ result = st_result st /\ calls = st_calls st.
Proof.
  intros H. unfold ExpandEntries in H.
  pose proof (ExpandEntries_state_spec self seed_features capacity seed_entries) as Hs.
  destruct (ExpandEntries_state self seed_features capacity seed_entries) as [st|e|];
    simpl in H, Hs; try discriminate.
  injection H as <- <-.
  destruct Hs as (st0 & H1 & H2 & H3 & H4 & H5 & H6 & H7 & _).
  exists st0, st. split_and!; auto.
Qed.

Lemma ExpandEntries_known seed_entries result calls :
  ExpandEntries self seed_entries seed_features capacity = Ok (result, calls) ->
  Forall (known self seed_entries) result /\ Forall is_lookup_call calls.
Proof.
  intros H. apply ExpandEntries_returns in H.
  destruct H as (st0 & st & Hseed & Hv & Hinv0 & Hr0 & _ & _ & _ & -> & ->). split.
  - apply (visits_known seed_entries st0 st Hv Hinv0). rewrite Hr0. constructor.
  - destruct (seed_loop_keeps _ _ _ Hseed) as [Hc0 _].
    destruct (visits_extends _ _ Hv) as [_ (more & -> & Hm)].
    rewrite Hc0. simpl. exact Hm.
Qed.
End ExtendFacts.

(** X16: every entry that [ExpandEntries] returns is one of the seed
    entries or an entry of the body database, and the storage is only read
    by lookups of the body database and of the translation index: no key
    file is searched. *)
Theorem ExpandEntries_provenance :
  forall self seed_entries seed_features capacity result calls,
  ExpandEntries self seed_entries seed_features capacity = Ok (result, calls) ->
  Forall (known self seed_entries) result /\ Forall is_lookup_call calls.
Proof. intros self seeds sf capacity result calls. apply ExpandEntries_known. Qed.

Lemma ExpandEntries_provenance_witness :
  exists result calls,
    ExpandEntries Example.searcher [Example.apple] [("apple", 1%float)] 10
      = Ok (result, calls) /\
    Forall (known Example.searcher [Example.apple]) result /\
    Forall is_lookup_call calls.
Proof.
  eexists _, _. split; [vm_compute; reflexivity|].
  apply (ExpandEntries_provenance Example.searcher [Example.apple] [("apple", 1%float)] 10).
  vm_compute. reflexivity.
Defined.

(** X17: when [ExpandEntries] returns, the headwords of the output are
    exactly the visited headwords.  The headword of every seed entry is
    among them, whatever the capacity, so the output has at least as many
    entries as the seeds have distinct headwords. *)
Theorem ExpandEntries_keeps_seeds :
  forall self seed_entries seed_features capacity st,
  ExpandEntries_state self seed_features capacity seed_entries = Ok st ->
  st_checked_words st = list_to_set (map e_word (st_result st)) /\
  (forall seed, seed ∈ seed_entries -> e_word seed ∈ map e_word (st_result st)) /\
  distinct_seeds seed_entries <= len (st_result st).
Proof.
  intros self seeds sf capacity st Hst.
  assert (He : ExpandEntries self seeds sf capacity = Ok (st_result st, st_calls st)).
  { unfold ExpandEntries. rewrite Hst. reflexivity. }
  destruct (ExpandEntries_returns _ _ _ _ _ _ He)
    as (st0 & st' & Hseed & Hv & Hinv0 & Hr0 & Hc0 & Hinv & Hh & Hr & Hc).
  assert (st' = st).
  { pose proof (ExpandEntries_state_spec self sf capacity seeds) as Hs.
    unfold ExpandEntries_state in Hst. rewrite Hseed in Hst. simpl in Hst.
    clear - Hv Hst Hh.
    revert Hst. generalize (expand_fuel capacity seeds).
    induction Hv as [s|s c rest s1 s2 Hpop Hbody Hv IH]; intros fuel Hst.
    - destruct fuel; simpl in Hst; rewrite Hh in Hst; simpl in Hst; congruence.
    - destruct fuel; simpl in Hst; rewrite Hpop in Hst; [discriminate|].
      rewrite Hbody in Hst. simpl in Hst. apply (IH Hh fuel Hst). }
  subst st'.
  destruct Hinv as [[I1 I2 I3 I4 _] _].
  unfold discovered in I3, I4. rewrite Hh in I2, I3, I4. simpl in I3, I4.
  rewrite app_nil_r in I3, I4.
  assert (Hsub : list_to_set (map e_word (st_result st)) ⊆ st_checked_words st).
  { intros w Hw. apply elem_of_list_to_set in Hw. apply I4, Hw. }
  assert (Heq : st_checked_words st = list_to_set (map e_word (st_result st))).
  { symmetry. apply set_subseteq_size_eq; [exact Hsub|].
    rewrite (size_list_to_set _ I3), length_map.
    unfold num_checked, len in *. simpl in I2. lia. }
  assert (Hseeds : forall seed, seed ∈ seeds -> e_word seed ∈ map e_word (st_result st)).
  { intros seed Hin. apply (elem_of_list_to_set (C := gset string)). rewrite <- Heq.
    destruct (visits_extends _ _ _ _ _ Hv) as [Hsubset _]. apply Hsubset.
    rewrite Hc0. apply elem_of_list_to_set, list_elem_of_fmap. eauto. }
  split_and!; [exact Heq|exact Hseeds|].
  unfold distinct_seeds, len. rewrite <- (length_map e_word (st_result st)).
  rewrite <- (size_list_to_set (C := gset string) _ I3).
  apply Nat2Z.inj_le, subseteq_size. intros w Hw. apply elem_of_list_to_set in Hw.
  apply list_elem_of_fmap in Hw. destruct Hw as (seed & -> & Hin).
  apply elem_of_list_to_set, Hseeds, Hin.
Qed.

Lemma ExpandEntries_keeps_seeds_witness :
  exists st,
    ExpandEntries_state Example.searcher [("apple", 1%float)] 0
      [Example.apple; Example.pear] = Ok st /\
    map e_word (st_result st) = ["apple"; "pear"] /\
    forall seed, seed ∈ [Example.apple; Example.pear] ->
                 e_word seed ∈ map e_word (st_result st).
Proof.
  eexists. split; [vm_compute; reflexivity|]. split; [reflexivity|].
  apply (ExpandEntries_keeps_seeds Example.searcher [Example.apple; Example.pear]
           [("apple", 1%float)] 0).
  vm_compute. reflexivity.
Defined.

(** X18: with at least one seed entry, the output of [ExpandEntries]
    starts with a seed entry: the one popped first from the queue of the
    pushed seeds, than which no pushed seed is less in the order of the
    tuples (the negated score, then the discovery number). *)
Theorem first_output_is_best_seed :
  forall self seed_entries seed_features capacity result calls,
  seed_entries <> [] ->
  ExpandEntries self seed_entries seed_features capacity = Ok (result, calls) ->
  exists st0 c rest more,
    seed_loop self seed_features seed_entries initial_state = Ok st0 /\
    heappop (st_seeds st0) = Some (c, rest) /\
    result = c_entry c :: more /\
    c_entry c ∈ seed_entries /\
    Forall (fun y => c_entry y ∈ seed_entries /\ cand_lt y c = false) (st_seeds st0).
Proof.
  intros self seeds sf capacity result calls Hne He.
  destruct (ExpandEntries_returns _ _ _ _ _ _ He)
    as (st0 & st & Hseed & Hv & Hinv0 & Hr0 & Hc0 & Hinv & Hh & -> & ->).
  destruct (seed_loop_keeps _ _ _ _ _ Hseed) as (_ & ps & Hps & Hin).
  simpl in Hps. subst ps.
  assert (Hheap : st_seeds st0 <> []).
  { destruct Hinv0 as [[I1 I2 _ _ _] _]. rewrite Hr0 in I2.
    unfold num_checked, len in *. simpl in I2. rewrite Hc0 in I1.
    destruct seeds as [|seed rest]; [congruence|].
    assert (Hpos : (0 < size (list_to_set (map e_word (seed :: rest)) : gset string))%nat).
    { pose proof (subseteq_size ({[e_word seed]} : gset string)
                    (list_to_set (map e_word (seed :: rest))) ltac:(set_solver)) as Hle.
      rewrite size_singleton in Hle. lia. }
    intros Hnil. rewrite Hnil in I2. simpl in I2. lia. }
  destruct (heappop_nonempty _ Hheap) as (c & rest & Hpop).
  assert (Hc : c ∈ st_seeds st0).
  { destruct Hinv0 as [[_ _ _ _ [Hnd _]] _].
    rewrite (heappop_perm _ _ _ Hnd Hpop). left. }
  inversion Hv as [s E1 E2|s c' rest' s1 s2 Hpop' Hbody Hv' E1 E2]; subst.
  - congruence.
  - rewrite Hpop in Hpop'. injection Hpop' as <- <-.
    pose proof (expand_body_spec self sf capacity seeds _ _ _ Hinv0 Hpop) as Hb.
    rewrite Hbody in Hb. simpl in Hb. destruct Hb as (Hinv1 & Hr1 & _).
    destruct (visits_inv self sf capacity seeds _ _ Hv' Hinv1) as [_ [more Hmore]].
    rewrite Hr1, Hr0 in Hmore. simpl in Hmore.
    exists st0, c, rest, more. split_and!; auto.
    + rewrite Forall_forall in Hin. apply Hin, Hc.
    + apply Forall_forall. intros y Hy. split.
      * rewrite Forall_forall in Hin. apply Hin, Hy.
      * apply (heappop_least _ _ _ Hpop y Hy).
Qed.

Lemma first_output_is_best_seed_witness :
  exists result calls,
    ExpandEntries Example.searcher [Example.pear; Example.apple] [("ringo", 1%float)] 10
      = Ok (result, calls) /\
    head result = Some Example.apple /\
    exists st0 c rest more,
      seed_loop Example.searcher [("ringo", 1%float)] [Example.pear; Example.apple]
        initial_state = Ok st0 /\
      heappop (st_seeds st0) = Some (c, rest) /\
      result = c_entry c :: more /\
      c_entry c ∈ [Example.pear; Example.apple] /\
      Forall (fun y => c_entry y ∈ [Example.pear; Example.apple] /\ cand_lt y c = false)
             (st_seeds st0).
Proof.
  eassert (E : ExpandEntries Example.searcher [Example.pear; Example.apple]
                 [("ringo", 1%float)] 10 = Ok (_, _)) by (vm_compute; reflexivity).
  eexists _, _. split; [exact E|]. split; [reflexivity|].
  eapply (first_output_is_best_seed Example.searcher [Example.pear; Example.apple]
            [("ringo", 1%float)] 10); [discriminate|exact E].
Defined.

(** ** The related-word lookups *)

Section RelatedFacts.
Variable self : UnionSearcher.

Lemma resolve_seeds_lookups lookup words capacity : forall seeds calls,
  (forall word, Forall is_lookup_call (snd (lookup word capacity))) ->
  Forall is_lookup_call calls ->
  Forall is_lookup_call (snd (resolve_seeds lookup words capacity seeds calls)).
Proof.
  induction words as [|word rest IH]; intros seeds calls Hl Hc; simpl; [exact Hc|].
  destruct (str_empty word); [apply IH; assumption|].
  pose proof (Hl word) as Hw. destruct (lookup word capacity) as [found c]. simpl in Hw.
  apply IH; [exact Hl|]. apply Forall_app. auto.
Qed.

Lemma slice_to_Forall {A} (P : A -> Prop) (xs : list A) n :
  Forall P xs -> Forall P (slice_to xs n).
Proof. intros H. unfold slice_to. destruct (0 <=? n); apply Forall_take, H. Qed.

(** The entries and the calls of [SearchRelatedWithSeeds]. *)
Lemma SearchRelatedWithSeeds_known seeds capacity result calls :
  SearchRelatedWithSeeds self seeds capacity = Ok (result, calls) ->
  Forall (known self seeds) result /\ Forall is_lookup_call calls.
Proof.
  intros Hr. pose proof (SearchRelatedWithSeeds_spec self seeds capacity) as Hs.
  rewrite Hr in Hs. simpl in Hs.
  destruct Hs as (sf & wc & result' & _ & _ & He & -> & _).
  destruct (ExpandEntries_known _ _ _ _ _ _ He) as [Hk Hc].
  split; [apply slice_to_Forall, Hk|exact Hc].
Qed.

Lemma related_stored lookup text capacity r :
  (forall word, Forall (stored self) (fst (lookup word capacity))) ->
  (forall word, Forall is_lookup_call (snd (lookup word capacity))) ->
  (let '(seeds, calls) := resolve_seeds lookup (split_on "," text) capacity [] [] in
   r' ← SearchRelatedWithSeeds self seeds capacity; Ok (fst r', calls ++ snd r')) = Ok r ->
  Forall (stored self) (fst r) /\ Forall is_lookup_call (snd r).
Proof.
  intros Hst Hl.
  pose proof (resolve_seeds_stored self lookup (split_on "," text) capacity [] [] Hst
                ltac:(constructor)) as Hseeds.
  pose proof (resolve_seeds_lookups lookup (split_on "," text) capacity [] [] Hl
                ltac:(constructor)) as Hcalls.
  destruct (resolve_seeds lookup (split_on "," text) capacity [] []) as [seeds calls].
  simpl in Hseeds, Hcalls.
  destruct (SearchRelatedWithSeeds self seeds capacity) as [[result calls']|e|] eqn:E;
    simpl; try discriminate.
  intros H. injection H as <-. simpl.
  destruct (SearchRelatedWithSeeds_known _ _ _ _ E) as [Hk Hc]. split.
  - eapply Forall_impl; [exact Hk|]. intros e [Hin|Hs]; [|exact Hs].
    rewrite Forall_forall in Hseeds. apply Hseeds, Hin.
  - apply Forall_app. auto.
Qed.
End RelatedFacts.

(** X19: every entry that [SearchRelated] or [SearchRelatedReverse]
    returns is an entry of the body database, and both read the storage
    only by lookups of the body database and of the translation index.
    [SearchRelatedWithSeeds] returns seed entries and entries of the body
    database. *)
Theorem related_results_are_stored :
  forall self text seeds capacity,
  (forall result calls,
     SearchRelated self text capacity = Ok (result, calls) ->
     Forall (stored self) result /\ Forall is_lookup_call calls) /\
  (forall result calls,
     SearchRelatedReverse self text capacity = Ok (result, calls) ->
     Forall (stored self) result /\ Forall is_lookup_call calls) /\
  (forall result calls,
     SearchRelatedWithSeeds self seeds capacity = Ok (result, calls) ->
     Forall (known self seeds) result /\ Forall is_lookup_call calls).
Proof.
  intros self text seeds capacity. split_and!.
  - intros result calls H.
    apply (related_stored self (SearchExact self) text capacity (result, calls));
      [intros; apply SearchExact_stored|intros; apply SearchExact_lookups|exact H].
  - intros result calls H.
    apply (related_stored self (SearchExactReverse self) text capacity (result, calls));
      [intros; apply SearchExactReverse_stored|intros; apply SearchExactReverse_lookups|
       exact H].
  - apply SearchRelatedWithSeeds_known.
Qed.

(** ** The keys of the seed features *)

Section AggregateFacts.
Variable self : UnionSearcher.

Lemma add_features_keys items weight : forall seed_features,
  NoDup (dict_keys seed_features) ->
  NoDup (dict_keys (add_features items weight seed_features)) /\
  (forall x, x ∈ dict_keys (add_features items weight seed_features) <->
             x ∈ dict_keys seed_features \/ x ∈ dict_keys items).
Proof.
  induction items as [|[word score] rest IH]; intros sf Hnd; simpl.
  - split; [exact Hnd|]. intros x. split; [auto|]. intros [H|H]; [exact H|inversion H].
  - match goal with |- context [add_features rest weight ?d] =>
      destruct (IH d) as [H1 H2]; [apply dict_set_NoDup, Hnd|] end.
    split; [exact H1|]. intros x. rewrite H2, dict_keys_set, elem_of_cons. tauto.
Qed.

Lemma aggregate_seeds_keys seeds : forall seed_features base_weight uniq_words,
  NoDup (dict_keys seed_features) ->
  exists features,
    aggregate_seeds self seeds seed_features base_weight uniq_words = Ok features /\
    NoDup (dict_keys features) /\
    (forall x, x ∈ dict_keys features <->
               x ∈ dict_keys seed_features \/
               exists seed f, seed ∈ seeds /\ GetFeatures self seed = Ok f /\
                              x ∈ dict_keys f).
Proof.
  induction seeds as [|seed rest IH]; intros sf bw uniq Hnd; simpl.
  - exists sf. split_and!; [reflexivity|exact Hnd|]. intros x. split; [auto|].
    intros [H|(seed & f & H & _)]; [exact H|inversion H].
  - destruct (GetFeatures_total self seed) as [f Hf]. rewrite Hf. simpl.
    match goal with |- context [add_features f ?w sf] =>
      destruct (add_features_keys f w sf Hnd) as [H1 H2];
      destruct (IH (add_features f w sf) (bw * 0.8)%float
                   ({[NormalizeWord self (e_word seed)]} ∪ uniq) H1)
        as (features & -> & Hn & Hk)
    end.
    exists features. split_and!; [reflexivity|exact Hn|].
    intros x. rewrite Hk, H2. split.
    + intros [[H|H]|(s & g & Hs & Hg & Hx)]; [auto| |].
      * right. exists seed, f. split_and!; [left|exact Hf|exact H].
      * right. exists s, g. split_and!; [right; exact Hs|exact Hg|exact Hx].
    + intros [H|(s & g & Hs & Hg & Hx)]; [auto|].
      apply elem_of_cons in Hs. destruct Hs as [->|Hs].
      * rewrite Hf in Hg. injection Hg as <-. auto.
      * right. exists s, g. auto.
Qed.
End AggregateFacts.

(** X20: the seed features that [SearchRelatedWithSeeds] aggregates are a
    dictionary without repeated keys, and its keys are exactly the keys of
    the feature vectors of the seeds: no feature of a seed is dropped,
    whatever its weight, and none is invented. *)
Theorem seed_features_keys :
  forall self seeds,
  exists seed_features,
    aggregate_seeds self seeds [] 1%float ∅ = Ok seed_features /\
    NoDup (dict_keys seed_features) /\
    (forall x, x ∈ dict_keys seed_features <->
               exists seed f, seed ∈ seeds /\ GetFeatures self seed = Ok f /\
                              x ∈ dict_keys f).
Proof.
  intros self seeds.
  destruct (aggregate_seeds_keys self seeds [] 1%float ∅ ltac:(apply NoDup_nil_2))
    as (features & Hf & Hn & Hk).
  exists features. split_and!; [exact Hf|exact Hn|].
  intros x. rewrite Hk. split; [|auto]. intros [H|H]; [inversion H|exact H].
Qed.

(** ** The ranking of the related words *)

Section RankFacts.




End RankFacts.

